(** * go-cfr: sampling CFR traversal engines, tabular policy table and the
      LevelDB-backed reservoir buffer

    A shallow embedding of
      - [ldbstore.ReservoirBuffer] (AddSample, putSample, GetSamples,
        GobEncode, GobDecode),
      - [cfr.PolicyTable] (NewPolicyTable, Update, Iter, GetPolicy),
      - [cfr.RobustSamplingCFR] and [cfr.ChanceSamplingCFR],
    followed by the properties proved about them.

    Conventions.  A Go [int] is a [Z] in the 64-bit two's complement range,
    with the wrap-around of [++] written out.  A [float32] is a
    [spec_float] operated on by the IEEE-754 binary32 instances of the
    Standard Library's [SpecFloat] operations (each operation rounded on its
    own, as on amd64).  Code that can panic returns an [outcome]; state is
    threaded explicitly through a small state-and-panic monad.  The global
    [math/rand] source is an infinite stream of raw draws with a cursor. *)

From Stdlib Require Import ZArith List Bool Lia SpecFloat.
From stdpp Require Import base gmap strings list sorting.

Local Open Scope Z_scope.

(** ** Machine integers *)

Definition MaxInt : Z := 2 ^ 63 - 1.
Definition MinInt : Z := - 2 ^ 63.

(** Two's complement wrap-around of a 64-bit [int]. *)
Definition wrap_int (x : Z) : Z := (x + 2 ^ 63) mod 2 ^ 64 - 2 ^ 63.

(** The conversion [uint64(x)] of an [int]. *)
Definition to_uint64 (x : Z) : Z := x mod 2 ^ 64.

Definition is_int (x : Z) : Prop := MinInt <= x <= MaxInt.

(** ** Outcomes and the state-and-panic monad *)

Inductive outcome (S A : Type) : Type :=
| Ok (a : A) (s : S)
| Panic (s : S).
Arguments Ok {S A} a s.
Arguments Panic {S A} s.

Definition M (S A : Type) : Type := S -> outcome S A.

Definition ret {S A} (a : A) : M S A := fun s => Ok a s.

Definition bind {S A B} (m : M S A) (f : A -> M S B) : M S B :=
  fun s => match m s with
           | Ok a s' => f a s'
           | Panic s' => Panic s'
           end.

Definition panic {S A} : M S A := fun s => Panic s.
Definition get {S} : M S S := fun s => Ok s s.
Definition modify {S} (f : S -> S) : M S unit := fun s => Ok tt (f s).

(** [defer d m]: run [m], then the deferred [d] on normal return and on a
    panic alike. *)
Definition defer {S A} (d : S -> S) (m : M S A) : M S A :=
  fun s => match m s with
           | Ok a s' => Ok a (d s')
           | Panic s' => Panic (d s')
           end.

(** The same outcome in a state transformed by [f]. *)
Definition map_state {S A} (f : S -> S) (o : outcome S A) : outcome S A :=
  match o with
  | Ok a s => Ok a (f s)
  | Panic s => Panic (f s)
  end.

(** What holds of the value and the state whenever [m] returns. *)
Definition post {S A} (m : M S A) (s : S) (Q : A -> S -> Prop) : Prop :=
  match m s with
  | Ok a s' => Q a s'
  | Panic _ => True
  end.

(** What holds between the state before and the state after, however
    [m] ends: on a return and on a panic alike. *)
Definition always {S A} (R : S -> S -> Prop) (m : M S A) (s : S) : Prop :=
  match m s with
  | Ok _ s' => R s s'
  | Panic s' => R s s'
  end.

(** A computation that returns from every state. *)
Definition returns {S A} (m : M S A) : Prop := forall s, exists a s', m s = Ok a s'.

(** Two outcomes that end the same way: both return, the same value, or
    both panic, in states that [R] relates. *)
Definition agree_out {S A} (R : S -> S -> Prop) (o1 o2 : outcome S A) : Prop :=
  match o1, o2 with
  | Ok a s, Ok b t => a = b /\ R s t
  | Panic s, Panic t => R s t
  | _, _ => False
  end.

Declare Scope go_scope.
Delimit Scope go_scope with go.
Notation "x <- c1 ;; c2" := (bind c1 (fun x => c2))
  (at level 100, c1 at next level, right associativity) : go_scope.
Notation "c1 ;;; c2" := (bind c1 (fun _ => c2))
  (at level 100, right associativity) : go_scope.

(** ** The global math/rand source *)

Record Rand : Type := { raw : nat -> Z; cursor : nat }.

Definition rand_next (r : Rand) : Z * Rand :=
  (raw r (cursor r), {| raw := raw r; cursor := S (cursor r) |}).

(** The source after [k] more values were taken from it. *)
Definition rand_skip (k : nat) (r : Rand) : Rand :=
  {| raw := raw r; cursor := (cursor r + k)%nat |}.

(** [rand.Intn(n)]: panics when [n <= 0], a value in [[0, n)] otherwise. *)
Definition rand_Intn (n : Z) (r : Rand) : option (Z * Rand) :=
  if n <=? 0 then None
  else let '(x, r') := rand_next r in Some (x mod n, r').


(** * Package ldbstore: the LevelDB-backed reservoir buffer *)

Module ldbstore.

(** A byte is a [Z] in [[0, 256)]; keys and values are byte strings. *)
Definition bytes : Type := list Z.

(** The conversion [byte(x)] keeps the low eight bits. *)
Definition to_byte (x : Z) : Z := Z.land x 255.

(** [binary.MaxVarintLen64]. *)
Definition MaxVarintLen64 : nat := 10.

(** The loop of [binary.PutUvarint]: [space] is the room left in [buf];
    writing past it is an index-out-of-range panic ([None]). *)
Fixpoint putUvarint_loop (space : nat) (x : Z) : option bytes :=
  match space with
  | O => None
  | S space' =>
      if 128 <=? x
      then cons (Z.lor (to_byte x) 128) <$> putUvarint_loop space' (Z.shiftr x 7)
      else Some [to_byte x]
  end.

(** [m := binary.PutUvarint(buf[:], x); key := buf[:m]] on a buffer of
    [MaxVarintLen64] bytes. *)
Definition PutUvarint (x : Z) : option bytes := putUvarint_loop MaxVarintLen64 x.

(** The value a varint key stands for (the decoding of [binary.Uvarint]). *)
Fixpoint uvarint (k : bytes) : Z :=
  match k with
  | [] => 0
  | b :: k' => Z.land b 127 + 128 * uvarint k'
  end.

(** [bytes.Compare]: the byte-lexicographic order of LevelDB's default
    comparer. *)
Fixpoint bytes_compare (a b : bytes) : comparison :=
  match a, b with
  | [], [] => Eq
  | [], _ :: _ => Lt
  | _ :: _, [] => Gt
  | x :: a', y :: b' =>
      match x ?= y with
      | Eq => bytes_compare a' b'
      | c => c
      end
  end.

Definition bytes_le (a b : bytes) : Prop := bytes_compare a b <> Gt.

#[global] Instance bytes_le_dec a b : Decision (bytes_le a b).
Proof. unfold bytes_le. destruct (bytes_compare a b); [left|left|right]; congruence. Defined.

(** Entries are ordered by key. *)
Definition entry_le (e1 e2 : bytes * bytes) : Prop := bytes_le e1.1 e2.1.

#[global] Instance entry_le_dec e1 e2 : Decision (entry_le e1 e2).
Proof. unfold entry_le. apply _. Defined.

(** ** The LevelDB capability, at its boundary

    A store is a finite map from keys to values; [Put] is an upsert and an
    iterator walks the entries in key order.  The disk maps a directory
    path to the store kept there; a store that is open is locked, and the
    paths of the locked stores are kept beside the disk. *)

Record Options : Type := {
  ErrorIfMissing : bool;
  ErrorIfExist : bool;
  OtherOptions : gmap string Z   (* the remaining fields of [opt.Options]
                                    that are not zero, by name *)
}.

Definition set_ErrorIfMissing (v : bool) (o : Options) : Options :=
  {| ErrorIfMissing := v; ErrorIfExist := ErrorIfExist o; OtherOptions := OtherOptions o |}.

(** [nil] options mean the defaults. *)
Definition defaultOptions : Options :=
  {| ErrorIfMissing := false; ErrorIfExist := false; OtherOptions := ∅ |}.

Abbreviation Store := (gmap bytes bytes).
Abbreviation Disk := (gmap string (gmap bytes bytes)).

(** An open [*leveldb.DB]: the path it was opened at, and whether [Close]
    was called on it. *)
Record DB : Type := { db_path : string; db_closed : bool }.

Inductive error : Type :=
| ErrDecode          (* gob: end of stream or a value of another type *)
| ErrMissing         (* leveldb: the store does not exist *)
| ErrExist           (* leveldb: the store exists already *)
| ErrClosed          (* leveldb: closed *)
| ErrLocked.         (* leveldb: the store is held by an open handle *)

Abbreviation Locks := (gset string).

(** [leveldb.OpenFile(path, opts)].  The storage is opened first and
    takes the lock of the directory: a store that an open handle holds
    is an error whatever the options say.  The handle returned holds the
    lock until it is closed. *)
Definition leveldb_OpenFile (path : string) (o : option Options) (lk : Locks) (d : Disk)
  : (DB + error) * Locks * Disk :=
  let o := default defaultOptions o in
  if decide (path ∈ lk) then (inr ErrLocked, lk, d)
  else
    match d !! path with
    | Some _ =>
        if ErrorIfExist o then (inr ErrExist, lk, d)
        else (inl {| db_path := path; db_closed := false |}, {[path]} ∪ lk, d)
    | None =>
        if ErrorIfMissing o then (inr ErrMissing, lk, d)
        else (inl {| db_path := path; db_closed := false |}, {[path]} ∪ lk, <[path := ∅]> d)
    end.

(** [db.Put(key, value, wo)]: [None] is a nil error. *)
Definition leveldb_Put (db : DB) (key value : bytes) (d : Disk) : option error * Disk :=
  if db_closed db then (Some ErrClosed, d)
  else match d !! db_path db with
       | Some st => (None, <[db_path db := <[key := value]> st]> d)
       | None => (Some ErrMissing, d)
       end.

(** The entries an iterator over the whole store yields, in key order, or
    the iterator's error. *)
Definition leveldb_scan (db : DB) (d : Disk) : list (bytes * bytes) + error :=
  if db_closed db then inr ErrClosed
  else match d !! db_path db with
       | Some st => inl (merge_sort entry_le (map_to_list st))
       | None => inr ErrMissing
       end.

(** ** encoding/gob, at its boundary

    An encoder appends typed values to a stream and a decoder reads them
    back in order; reading past the end or into a variable of another type
    is an error. *)
Inductive gobValue : Type :=
| GobString (s : string)
| GobInt (z : Z)
| GobOptions (o : Options).

Definition gobStream : Type := list gobValue.

Definition decodeString (r : gobStream) : (string * gobStream) + error :=
  match r with GobString s :: r' => inl (s, r') | _ => inr ErrDecode end.
Definition decodeInt (r : gobStream) : (Z * gobStream) + error :=
  match r with GobInt z :: r' => inl (z, r') | _ => inr ErrDecode end.
Definition decodeOptions (r : gobStream) : (Options * gobStream) + error :=
  match r with GobOptions o :: r' => inl (o, r') | _ => inr ErrDecode end.

(** What [Decode] leaves in a [*opt.Options] that held [recv] when the
    struct [sent] arrives.  gob sends the fields of a struct that are not
    zero and writes the fields it receives: into the struct the pointer
    points to, or into a new zero struct when the pointer is nil.  A
    field the sender had at zero keeps the value of the receiver. *)
Definition gob_merge (recv : option Options) (sent : Options) : Options :=
  let r := default defaultOptions recv in
  {| ErrorIfMissing := ErrorIfMissing sent || ErrorIfMissing r;
     ErrorIfExist := ErrorIfExist sent || ErrorIfExist r;
     OtherOptions := OtherOptions sent ∪ OtherOptions r |}.

(** ** ReservoirBuffer *)

Inductive event : Type :=
| EvLock
| EvUnlock
| EvSetN (n : Z)                  (* b.n written *)
| EvIntn (n m : Z)                (* rand.Intn(n) returned m *)
| EvPut (key value : bytes).      (* b.db.Put(key, value) *)

Record ReservoirBuffer : Type := {
  path : string;
  opts : option Options;          (* *opt.Options, [None] is nil *)
  maxSize : Z;
  mx : bool;                      (* sync.Mutex: held or not *)
  n : Z;
  db : option DB                  (* *leveldb.DB, [None] is nil *)
}.

Record state : Type := {
  buf : ReservoirBuffer;
  disk : Disk;
  locks : Locks;                  (* the stores that open handles hold *)
  rng : Rand;
  log : list event                (* effects on shared state, oldest first *)
}.

Definition set_buf (f : ReservoirBuffer -> ReservoirBuffer) (st : state) : state :=
  {| buf := f (buf st); disk := disk st; locks := locks st; rng := rng st; log := log st |}.
Definition set_disk (d : Disk) (st : state) : state :=
  {| buf := buf st; disk := d; locks := locks st; rng := rng st; log := log st |}.
Definition set_locks (lk : Locks) (st : state) : state :=
  {| buf := buf st; disk := disk st; locks := lk; rng := rng st; log := log st |}.
Definition set_rng (r : Rand) (st : state) : state :=
  {| buf := buf st; disk := disk st; locks := locks st; rng := r; log := log st |}.
Definition emit (e : event) (st : state) : state :=
  {| buf := buf st; disk := disk st; locks := locks st; rng := rng st;
     log := log st ++ [e] |}.

Definition with_n (v : Z) (b : ReservoirBuffer) : ReservoirBuffer :=
  {| path := path b; opts := opts b; maxSize := maxSize b; mx := mx b; n := v; db := db b |}.
Definition with_mx (v : bool) (b : ReservoirBuffer) : ReservoirBuffer :=
  {| path := path b; opts := opts b; maxSize := maxSize b; mx := v; n := n b; db := db b |}.
Definition with_db (v : option DB) (b : ReservoirBuffer) : ReservoirBuffer :=
  {| path := path b; opts := opts b; maxSize := maxSize b; mx := mx b; n := n b; db := v |}.
Definition with_path (v : string) (b : ReservoirBuffer) : ReservoirBuffer :=
  {| path := v; opts := opts b; maxSize := maxSize b; mx := mx b; n := n b; db := db b |}.
Definition with_opts (v : option Options) (b : ReservoirBuffer) : ReservoirBuffer :=
  {| path := path b; opts := v; maxSize := maxSize b; mx := mx b; n := n b; db := db b |}.
Definition with_maxSize (v : Z) (b : ReservoirBuffer) : ReservoirBuffer :=
  {| path := path b; opts := opts b; maxSize := v; mx := mx b; n := n b; db := db b |}.

(** [db.Close()]: the lock of the store is released. *)
Definition leveldb_Close (h : DB) (lk : Locks) : option error * DB * Locks :=
  if db_closed h then (Some ErrClosed, h, lk)
  else (None, {| db_path := db_path h; db_closed := true |}, lk ∖ {[db_path h]}).

(** [NewReservoirBuffer(path, opts, maxSize)]. *)
Definition NewReservoirBuffer (p : string) (o : option Options) (size : Z)
    (lk : Locks) (d : Disk) : (ReservoirBuffer + error) * Locks * Disk :=
  match leveldb_OpenFile p o lk d with
  | (inr err, lk', d') => (inr err, lk', d')
  | (inl h, lk', d') =>
      (inl {| path := p; opts := o; maxSize := size; mx := false; n := 0; db := Some h |},
       lk', d')
  end.

(** [b.mx.Lock()].  With a single thread of control a second [Lock] on a
    held mutex can never be granted: the runtime's fatal deadlock error. *)
Definition Lock : M state unit :=
  fun st => if mx (buf st) then Panic st
            else Ok tt (emit EvLock (set_buf (with_mx true) st)).

(** [b.mx.Unlock()], as run by [defer]. *)
Definition Unlock (st : state) : state := emit EvUnlock (set_buf (with_mx false) st).

(** [b.n++]. *)
Definition incr_n : M state unit :=
  fun st => let v := wrap_int (n (buf st) + 1) in
            Ok tt (emit (EvSetN v) (set_buf (with_n v) st)).

(** [m := rand.Intn(b.n)]. *)
Definition Intn (bound : Z) : M state Z :=
  fun st => match rand_Intn bound (rng st) with
            | None => Panic st
            | Some (m, r') => Ok m (emit (EvIntn bound m) (set_rng r' st))
            end.

(** [Close()]. *)
Definition Close : M state (option error) :=
  fun st => match db (buf st) with
            | None => Panic st
            | Some h =>
                let '(err, h', lk') := leveldb_Close h (locks st) in
                Ok err (set_locks lk' (set_buf (with_db (Some h')) st))
            end.

(** The state once an iterator was made and advanced [nexts] times, and
    has taken [seeks nexts] values of the global source. *)
Definition scanned (seeks : nat -> nat) (nexts : nat) (st : state) : state :=
  set_rng (rand_skip (seeks nexts) (rng st)) st.

(** The slot of index [idx]: the key [putSample] writes it under. *)
Definition slot_key (idx : Z) : bytes := default [] (PutUvarint (to_uint64 idx)).

Section Reservoir.

(** [deepcfr.Sample] and its gob encoding: [None] is an encoding or
    decoding error. *)
Context {Sample : Type}.
Variable gobEncodeSample : Sample -> option bytes.
Variable gobDecodeSample : bytes -> option Sample.

(** [putSample(idx, s)]. *)
Definition putSample (idx : Z) (s : Sample) : M state unit :=
  fun st =>
    match PutUvarint (to_uint64 idx) with
    | None => Panic st
    | Some key =>
        match gobEncodeSample s with
        | None => Panic st
        | Some value =>
            match db (buf st) with
            | None => Panic st
            | Some h =>
                match leveldb_Put h key value (disk st) with
                | (Some _, d') => Panic (set_disk d' st)
                | (None, d') => Ok tt (emit (EvPut key value) (set_disk d' st))
                end
            end
        end
    end.

(** The body of [AddSample] between [Lock] and the deferred [Unlock]. *)
Definition AddSample_body (s : Sample) : M state unit :=
  (incr_n ;;;
   st <- get ;;
   let b := buf st in
   if n b <=? maxSize b then putSample (n b - 1) s
   else
     m <- Intn (n b) ;;
     if m <? maxSize b then putSample m s else ret tt)%go.

(** [AddSample(s)]. *)
Definition AddSample (s : Sample) : M state unit :=
  (Lock ;;; defer Unlock (AddSample_body s))%go.

(** The decode loop of [GetSamples] over the entries the iterator yields. *)
Fixpoint decode_entries (es : list (bytes * bytes)) : option (list Sample) :=
  match es with
  | [] => Some []
  | (_, v) :: es' =>
      match gobDecodeSample v with
      | None => None
      | Some s => cons s <$> decode_entries es'
      end
  end.

(** How many entries the loop of [GetSamples] decodes before one that
    does not decode. *)
Fixpoint decoded (es : list (bytes * bytes)) : nat :=
  match es with
  | [] => O
  | (_, v) :: es' =>
      match gobDecodeSample v with
      | None => O
      | Some _ => S (decoded es')
      end
  end.

(** [GetSamples()].  The iterator of goleveldb samples its seeks with
    [rand.Intn] on the global source, the one [AddSample] draws from;
    how many values it takes depends on the options of the store and on
    the files behind it, and is given to the call: [seeks k] is the number
    of values an iterator has taken once it was made and [Next] was
    called [k] times.  A loop that reads every entry calls [Next] once
    more than there are entries; one that stops at an entry has called it
    once for each entry up to that one.  An iterator on a closed store
    is empty and takes nothing. *)
Definition GetSamples (seeks : nat -> nat) : M state (list Sample) :=
  fun st =>
    match db (buf st) with
    | None => Panic st
    | Some h =>
        match leveldb_scan h (disk st) with
        | inr _ => Panic st
        | inl es =>
            match decode_entries es with
            | None => Panic (scanned seeks (S (decoded es)) st)
            | Some samples => Ok samples (scanned seeks (S (length es)) st)
            end
        end
    end.

(** [AddSample] called on each element of a stream, in order. *)
Fixpoint AddSamples (ss : list Sample) : M state unit :=
  match ss with
  | [] => ret tt
  | s :: ss' => (AddSample s ;;; AddSamples ss')%go
  end.

(** The entry of each slot: slot [i] under the key of [i], as the
    encoding of its sample. *)
Definition slot_entries (slots : list Sample) : list (bytes * bytes) :=
  imap (fun i s => (slot_key (Z.of_nat i), default [] (gobEncodeSample s))) slots.

(** The store holds exactly the given slots. *)
Definition holds (store : Store) (slots : list Sample) : Prop :=
  (forall i s, slots !! i = Some s ->
     exists v, gobEncodeSample s = Some v /\ store !! slot_key (Z.of_nat i) = Some v) /\
  (forall k v, store !! k = Some v ->
     exists i s, slots !! i = Some s /\ k = slot_key (Z.of_nat i)).

(** A buffer in use: unlocked, its store open and present on the disk. *)
Definition ready (st : state) (h : DB) (store : Store) : Prop :=
  mx (buf st) = false /\ db (buf st) = Some h /\ db_closed h = false /\
  disk st !! db_path h = Some store.

(** The buffer refines the slots kept as a list: its store holds them,
    and as many are occupied as the count and the capacity allow. *)
Definition refines (st : state) (h : DB) (slots : list Sample) : Prop :=
  exists store, ready st h store /\ holds store slots /\
    0 <= n (buf st) /\
    length slots = Z.to_nat (Z.min (n (buf st)) (maxSize (buf st))).

End Reservoir.

(** [GobEncode()]: gob panics on a nil pointer. *)
Definition GobEncode (b : ReservoirBuffer) : outcome unit (gobStream + error) :=
  match opts b with
  | None => Panic tt
  | Some o =>
      Ok (inl [GobString (path b); GobOptions o; GobInt (maxSize b); GobInt (n b)]) tt
  end.

(** [GobDecode(buf)] on the receiver [b]: the fields are overwritten as
    they are decoded, and an error leaves the earlier ones overwritten.
    The path, the capacity and the count are single values and arrive
    whole; the options arrive as a struct behind the pointer [b.opts] and
    are merged into what the receiver holds there. *)
Definition GobDecode (stream : gobStream) (b : ReservoirBuffer) (lk : Locks) (d : Disk)
  : option error * ReservoirBuffer * Locks * Disk :=
  match decodeString stream with
  | inr err => (Some err, b, lk, d)
  | inl (p, r1) =>
      let b := with_path p b in
      match decodeOptions r1 with
      | inr err => (Some err, b, lk, d)
      | inl (o, r2) =>
          let b := with_opts (Some (gob_merge (opts b) o)) b in
          match decodeInt r2 with
          | inr err => (Some err, b, lk, d)
          | inl (size, r3) =>
              let b := with_maxSize size b in
              match decodeInt r3 with
              | inr err => (Some err, b, lk, d)
              | inl (cnt, _) =>
                  let b := with_n cnt b in
                  let b := with_opts (set_ErrorIfMissing true <$> opts b) b in
                  match leveldb_OpenFile (path b) (opts b) lk d with
                  | (inr err, lk', d') => (Some err, b, lk', d')
                  | (inl h, lk', d') => (None, with_db (Some h) b, lk', d')
                  end
              end
          end
      end
  end.

(** The reservoir as the specification words it, on the slots kept as a
    list (slot [i] is element [i]): count one more; while the count is at
    most the capacity the sample takes the next slot, afterwards a draw
    [m] in [[0, count)] replaces slot [m] when [m] is below the capacity. *)
Definition reservoir_step {Sample} (cap : Z) (acc : list Sample * Z * Rand) (s : Sample)
  : list Sample * Z * Rand :=
  let '(slots, cnt, r) := acc in
  let cnt' := cnt + 1 in
  if cnt' <=? cap then (slots ++ [s], cnt', r)
  else
    let '(x, r') := rand_next r in
    let m := x mod cnt' in
    if m <? cap then (<[Z.to_nat m := s]> slots, cnt', r') else (slots, cnt', r').

Definition reservoir {Sample} (cap : Z) (ss : list Sample) (r : Rand) : list Sample * Z * Rand :=
  fold_left (reservoir_step cap) ss ([], 0, r).

End ldbstore.

(** ** Sample data for the reservoir buffer

    Integer samples, encoded on two bytes, and a fixed stream of draws. *)
Module ldb_example.
Import ldbstore.

Definition encZ (z : Z) : option bytes := Some [z mod 256; z / 256].

Definition decZ (v : bytes) : option Z :=
  match v with
  | [lo; hi] => Some (lo + 256 * hi)
  | _ => None
  end.

Definition draws : Rand := {| raw := fun i => 7 * Z.of_nat i + 3; cursor := 0 |}.

(** The state right after [NewReservoirBuffer("db", nil, cap)] on an empty
    disk. *)
Definition fresh (cap : Z) : state :=
  {| buf := {| path := "db"; opts := None; maxSize := cap; mx := false; n := 0;
               db := Some {| db_path := "db"; db_closed := false |} |};
     disk := {["db" := ∅]};
     locks := {["db"]};
     rng := draws;
     log := [] |}.

(** A buffer opened with explicit options, as [GobEncode] requires. *)
Definition saved : ReservoirBuffer :=
  {| path := "db"; opts := Some defaultOptions; maxSize := 4; mx := false; n := 9;
     db := Some {| db_path := "db"; db_closed := false |} |}.

(** An encoding that fails on the samples that do not fit a byte. *)
Definition encByte (z : Z) : option bytes :=
  if decide (0 <= z < 256) then Some [z] else None.

(** A disk on which the store at "db" has sample 5 in slot 0. *)
Definition one_slot : Disk := {["db" := <[slot_key 0 := [5; 0]]> ∅]}.

(** A store with the samples 5, 6 and 7 in the slots 0, 1 and 2, and one
    in which the value of slot 1 is cut short. *)
Definition three_slots : Store :=
  <[slot_key 1 := [6; 0]]> (<[slot_key 2 := [7; 0]]> (<[slot_key 0 := [5; 0]]> ∅)).
Definition torn_slots : Store :=
  <[slot_key 1 := [6]]> (<[slot_key 2 := [7; 0]]> (<[slot_key 0 := [5; 0]]> ∅)).

(** The zero value gob hands to [GobDecode]. *)
Definition zero : ReservoirBuffer :=
  {| path := ""; opts := None; maxSize := 0; mx := false; n := 0; db := None |}.

(** A receiver that was in use before: options of its own, with a write
    buffer of 8 and ErrorIfExist set, and no handle. *)
Definition strict : ReservoirBuffer :=
  {| path := "old";
     opts := Some {| ErrorIfMissing := false; ErrorIfExist := true;
                     OtherOptions := {["WriteBuffer" := 8]} |};
     maxSize := 1; mx := false; n := 3; db := None |}.

(** A receiver with a write buffer of 8 among its options and nothing
    else. *)
Definition tuned : ReservoirBuffer :=
  {| path := "old";
     opts := Some {| ErrorIfMissing := false; ErrorIfExist := false;
                     OtherOptions := {["WriteBuffer" := 8]} |};
     maxSize := 1; mx := false; n := 3; db := None |}.

(** No store is open. *)
Definition no_locks : Locks := ∅.

(** A disk with an empty store at "db". *)
Definition empty_db : Disk := {["db" := ∅]}.

(** An iterator that takes a value of the global source when it is made
    and one more each time it is advanced. *)
Definition one_each (nexts : nat) : nat := S nexts.

End ldb_example.

Arguments ldbstore.PutUvarint : simpl never.
Arguments ldbstore.slot_key : simpl never.

(** * Package cfr *)

(** ** float32 arithmetic: IEEE-754 binary32 *)
Module f32.

Definition float32 : Type := spec_float.
Definition float64 : Type := spec_float.

Definition prec : Z := 24.
Definition emax : Z := 128.

Definition add : float32 -> float32 -> float32 := SFadd prec emax.
Definition mul : float32 -> float32 -> float32 := SFmul prec emax.
Definition div : float32 -> float32 -> float32 := SFdiv prec emax.
Definition neg : float32 -> float32 := SFopp.
Definition ltb : float32 -> float32 -> bool := SFltb.

Definition zero : float32 := S754_zero false.
Definition one : float32 := SFone prec emax.

(** The conversion [float32(n)] of an [int]. *)
Definition of_int (z : Z) : float32 := binary_normalize prec emax z 0 false.

(** The conversion [float32(x)] of a [float64]. *)
Definition of_float64 (x : float64) : float32 :=
  match x with
  | S754_finite s m e => binary_round prec emax s m e
  | _ => x
  end.

(** Modelled from the spec: [f32.AddConst] of the package internal/f32,
    which is not among the sources; the caller uses it for "subtracting
    out the expected utility over all possible actions": the constant is
    added to every element. *)
Definition AddConst (c : float32) (x : list float32) : list float32 := add c <$> x.

End f32.

Module cfr.
Import f32.

(** [NodeType]: the three constants of the iota block. *)
Inductive NodeType : Type := ChanceNode | TerminalNode | PlayerNode.

(** A node of a finite game tree, with what each method of the
    [GameTreeNode] interface answers on it.  [label] identifies the node
    in the trace; [key p] is [InfoSet(p).Key()]. *)
#[local] Unset Elimination Schemes.
Inductive GameTreeNode : Type :=
| MkNode (label : nat) (type : NodeType) (player : Z) (key : Z -> string)
         (utility : Z -> float64) (children : list GameTreeNode).

#[local] Set Elimination Schemes.

Definition Label (nd : GameTreeNode) : nat := let '(MkNode l _ _ _ _ _) := nd in l.
Definition Type_ (nd : GameTreeNode) : NodeType := let '(MkNode _ t _ _ _ _) := nd in t.
Definition Player (nd : GameTreeNode) : Z := let '(MkNode _ _ p _ _ _) := nd in p.
Definition Key (nd : GameTreeNode) (p : Z) : string := let '(MkNode _ _ _ k _ _) := nd in k p.
Definition Utility (nd : GameTreeNode) (p : Z) : float64 := let '(MkNode _ _ _ _ u _) := nd in u p.
Definition Children (nd : GameTreeNode) : list GameTreeNode :=
  let '(MkNode _ _ _ _ _ cs) := nd in cs.
Definition NumChildren (nd : GameTreeNode) : Z := Z.of_nat (length (Children nd)).

(** [l[i]] for an [int] index: out of range is a panic ([None]). *)
Definition index {A} (l : list A) (i : Z) : option A :=
  if i <? 0 then None else l !! Z.to_nat i.

(** The infosets of the player nodes met on the way down from [node]:
    the key, and the number of children of the node. *)
Fixpoint infosets (node : GameTreeNode) : list (string * Z) :=
  match node with
  | MkNode _ ty pl key _ children =>
      match ty with
      | TerminalNode => []
      | ChanceNode => concat (map infosets children)
      | PlayerNode => (key pl, Z.of_nat (length children)) :: concat (map infosets children)
      end
  end.

(** Every chance node and every player node met on the way down from
    [node] has a child. *)
Fixpoint branching (node : GameTreeNode) : bool :=
  match node with
  | MkNode _ ty _ _ _ children =>
      match ty with
      | TerminalNode => true
      | _ => negb (bool_decide (children = [])) && forallb branching children
      end
  end.

(** No key stands for two numbers of actions. *)
Definition consistent (I : list (string * Z)) : Prop :=
  forall key n n', (key, n) ∈ I -> (key, n') ∈ I -> n = n'.

(** ** internal/policy *)

(** Modelled from the spec: the package internal/policy is not among the
    sources.  A Policy holds the action count, the cumulative regrets, the
    cumulative strategy weights and the derived current strategy. *)
Record Policy : Type := {
  nActions : Z;
  regretSum : list float32;
  strategySum : list float32;
  currentStrategy : list float32
}.

(** Modelled from the spec: regret matching of internal/policy, the
    positive parts over their sum when that is positive, uniform
    otherwise. *)
Definition regretMatching (n : Z) (R : list float32) : list float32 :=
  let pos := (fun r => if ltb zero r then r else zero) <$> R in
  let total := foldr add zero pos in
  if ltb zero total then (fun r => div r total) <$> pos
  else replicate (length R) (div one (of_int n)).

(** Modelled from the spec: [policy.New(n)], a Policy sized to [n]
    actions, nothing accumulated yet. *)
Definition policy_New (n : Z) : Policy :=
  let zeros := replicate (Z.to_nat n) zero in
  {| nActions := n; regretSum := zeros; strategySum := zeros;
     currentStrategy := regretMatching n zeros |}.

(** Modelled from the spec: [NumActions()] and [GetStrategy()] of
    internal/policy read the action count and the current strategy. *)
Definition NumActions (p : Policy) : Z := nActions p.
Definition GetStrategy (p : Policy) : list float32 := currentStrategy p.

(** Modelled from the spec: [AddRegret(scale, values)] of internal/policy,
    [scale * values[a]] is added to [R[a]]. *)
Definition AddRegret (w : float32) (values : list float32) (p : Policy) : Policy :=
  {| nActions := nActions p;
     regretSum := zip_with (fun r v => add r (mul w v)) (regretSum p) values;
     strategySum := strategySum p;
     currentStrategy := currentStrategy p |}.

(** Modelled from the spec: [AddStrategyWeight(weight)] of
    internal/policy, [weight * strategy[a]] is added to [S[a]]. *)
Definition AddStrategyWeight (w : float32) (p : Policy) : Policy :=
  {| nActions := nActions p;
     regretSum := regretSum p;
     strategySum := zip_with (fun s x => add s (mul w x)) (strategySum p) (currentStrategy p);
     currentStrategy := currentStrategy p |}.

(** Modelled from the spec: [NextStrategy(discountPos, discountNeg,
    discountSum)] of internal/policy: the regrets are scaled, the
    non-negative and the negative ones apart, the strategy sum is scaled,
    and the current strategy is matched to the regrets again. *)
Definition NextStrategy (dPos dNeg dSum : float32) (p : Policy) : Policy :=
  let R := (fun r => mul r (if ltb r zero then dNeg else dPos)) <$> regretSum p in
  {| nActions := nActions p;
     regretSum := R;
     strategySum := (fun x => mul x dSum) <$> strategySum p;
     currentStrategy := regretMatching (nActions p) R |}.

(** ** PolicyTable *)

(** [DiscountParams]: only [GetDiscountFactors(iter)] is used, and its
    formula is configuration; the parameters are that schedule. *)
Definition DiscountParams : Type := Z -> float32 * float32 * float32.

(** A [*policy.Policy] of the table is named by the key under which the
    table keeps it: [GetPolicy] never replaces an entry. *)
Record PolicyTable : Type := {
  params : DiscountParams;
  iter : Z;
  policiesByKey : gmap string Policy;
  mayNeedUpdate : gset string
}.

Definition NewPolicyTable (ps : DiscountParams) : PolicyTable :=
  {| params := ps; iter := 1; policiesByKey := ∅; mayNeedUpdate := ∅ |}.

(** [Update()]. *)
Definition Update (pt : PolicyTable) : PolicyTable :=
  let '(dPos, dNeg, dSum) := params pt (iter pt) in
  {| params := params pt;
     iter := wrap_int (iter pt + 1);
     policiesByKey :=
       map_imap (fun key np =>
                   Some (if decide (key ∈ mayNeedUpdate pt)
                         then NextStrategy dPos dNeg dSum np else np))
                (policiesByKey pt);
     mayNeedUpdate := ∅ |}.

(** [Iter()]. *)
Definition Iter (pt : PolicyTable) : Z := iter pt.

(** [GetPolicy(node)]: the policy is returned by its key. *)
Definition GetPolicy (node : GameTreeNode) : M PolicyTable string :=
  fun pt =>
    let p := Player node in
    let key := Key node p in
    let '(np, pt1) :=
      match policiesByKey pt !! key with
      | Some np => (np, pt)
      | None =>
          let np := policy_New (NumChildren node) in
          (np, {| params := params pt; iter := iter pt;
                  policiesByKey := <[key := np]> (policiesByKey pt);
                  mayNeedUpdate := mayNeedUpdate pt |})
      end in
    if decide (NumActions np <> NumChildren node) then Panic pt1
    else Ok key {| params := params pt1; iter := iter pt1;
                   policiesByKey := policiesByKey pt1;
                   mayNeedUpdate := {[key]} ∪ mayNeedUpdate pt1 |}.

(** A method called through a policy pointer. *)
Definition policy_read {A} (np : string) (f : Policy -> A) : M PolicyTable A :=
  fun pt => match policiesByKey pt !! np with
            | Some pol => Ok (f pol) pt
            | None => Panic pt
            end.

Definition policy_update (np : string) (f : Policy -> Policy) : M PolicyTable unit :=
  fun pt => match policiesByKey pt !! np with
            | Some pol =>
                Ok tt {| params := params pt; iter := iter pt;
                         policiesByKey := <[np := f pol]> (policiesByKey pt);
                         mayNeedUpdate := mayNeedUpdate pt |}
            | None => Panic pt
            end.

(** ** The table on the wire

    encoding/gob at its boundary, as for the reservoir buffer: an encoder
    appends typed values to a stream, a decoder reads them back in order,
    and reading past the end or into a variable of another type is an
    error.  All signed integer types share one wire type. *)
Inductive gobValue : Type :=
| GobParams (ps : DiscountParams)
| GobInt (z : Z)
| GobString (s : string)
| GobPolicy (p : Policy).

Definition gobStream : Type := list gobValue.

Inductive error : Type :=
| ErrDecode.         (* gob: end of stream or a value of another type *)

Definition decodeParams (r : gobStream) : (DiscountParams * gobStream) + error :=
  match r with GobParams ps :: r' => inl (ps, r') | _ => inr ErrDecode end.
Definition decodeInt (r : gobStream) : (Z * gobStream) + error :=
  match r with GobInt z :: r' => inl (z, r') | _ => inr ErrDecode end.
Definition decodeString (r : gobStream) : (string * gobStream) + error :=
  match r with GobString s :: r' => inl (s, r') | _ => inr ErrDecode end.
Definition decodePolicy (r : gobStream) : (Policy * gobStream) + error :=
  match r with GobPolicy p :: r' => inl (p, r') | _ => inr ErrDecode end.

Definition with_params (ps : DiscountParams) (pt : PolicyTable) : PolicyTable :=
  {| params := ps; iter := iter pt; policiesByKey := policiesByKey pt;
     mayNeedUpdate := mayNeedUpdate pt |}.
Definition with_iter (it : Z) (pt : PolicyTable) : PolicyTable :=
  {| params := params pt; iter := it; policiesByKey := policiesByKey pt;
     mayNeedUpdate := mayNeedUpdate pt |}.

(** The [for key, p := range pt.policiesByKey] loop of [MarshalBinary]
    over the entries in the order the runtime ranges over them. *)
Definition encode_entries (es : list (string * Policy)) : gobStream :=
  flat_map (fun kp => [GobString kp.1; GobPolicy kp.2]) es.

(** [MarshalBinary()].  Go leaves the iteration order of a map
    unspecified: [range] is the order the runtime happens to take. *)
Definition MarshalBinary (range : gmap string Policy -> list (string * Policy))
    (pt : PolicyTable) : gobStream + error :=
  inl ([GobParams (params pt); GobInt (iter pt);
        GobInt (Z.of_nat (size (policiesByKey pt)))] ++
       encode_entries (range (policiesByKey pt))).

(** The [for i := int64(0); i < nStrategies; i++] loop of
    [UnmarshalBinary]: [cnt] iterations are left, [m] is the map filled
    so far. *)
Fixpoint decode_policies (cnt : nat) (r : gobStream) (m : gmap string Policy)
  : option error * gmap string Policy :=
  match cnt with
  | O => (None, m)
  | S cnt' =>
      match decodeString r with
      | inr err => (Some err, m)
      | inl (key, r1) =>
          match decodePolicy r1 with
          | inr err => (Some err, m)
          | inl (s, r2) => decode_policies cnt' r2 (<[key := s]> m)
          end
      end
  end.

(** [UnmarshalBinary(buf)] on the receiver [pt]: the fields are
    overwritten as they are decoded.  The map is replaced before the loop
    and every policy decoded is a new one, so once the loop has started
    the pointers [mayNeedUpdate] holds name no policy of the table, on an
    error as after the reset that ends a successful call: in terms of
    keys the set is empty. *)
Definition UnmarshalBinary (buf : gobStream) (pt : PolicyTable) : option error * PolicyTable :=
  match decodeParams buf with
  | inr err => (Some err, pt)
  | inl (ps, r1) =>
      let pt := with_params ps pt in
      match decodeInt r1 with
      | inr err => (Some err, pt)
      | inl (it, r2) =>
          let pt := with_iter it pt in
          match decodeInt r2 with
          | inr err => (Some err, pt)
          | inl (nStrategies, r3) =>
              let '(err, m) := decode_policies (Z.to_nat nStrategies) r3 ∅ in
              (err, {| params := params pt; iter := iter pt; policiesByKey := m;
                       mayNeedUpdate := ∅ |})
          end
      end
  end.

(** One table against a later one: the parameters and the iteration
    counter are the same, nothing was taken from the set of policies to
    update, and every policy is still there with its number of actions. *)
Definition table_grows (pt pt' : PolicyTable) : Prop :=
  params pt' = params pt /\ iter pt' = iter pt /\
  mayNeedUpdate pt ⊆ mayNeedUpdate pt' /\
  forall key np, policiesByKey pt !! key = Some np ->
    exists np', policiesByKey pt' !! key = Some np' /\ NumActions np' = NumActions np.

(** A policy sized to [n] actions throughout. *)
Definition policy_ok (n : Z) (np : Policy) : Prop :=
  nActions np = n /\ length (regretSum np) = Z.to_nat n /\
  length (strategySum np) = Z.to_nat n /\ length (currentStrategy np) = Z.to_nat n.

(** Every policy the table has for one of the infosets [I] is sized to
    that infoset. *)
Definition table_ok (I : list (string * Z)) (pt : PolicyTable) : Prop :=
  forall key n np, (key, n) ∈ I -> policiesByKey pt !! key = Some np -> policy_ok n np.

(** The table has a policy for the infoset of [node], sized to its
    children and marked for the next [Update]. *)
Definition marked (node : GameTreeNode) (pt : PolicyTable) : Prop :=
  Key node (Player node) ∈ mayNeedUpdate pt /\
  exists np, policiesByKey pt !! Key node (Player node) = Some np /\
             NumActions np = NumChildren node.

(** ** The world of a traversal *)

Inductive event : Type :=
| EvType (label : nat)      (* node.Type(), called on entering runHelper *)
| EvClose (label : nat).    (* node.Close() *)

#[global] Instance event_eq_dec : EqDecision event.
Proof. solve_decision. Defined.

Record World (P : Type) : Type := {
  profile : P;                      (* the strategy profile *)
  pool : list (list float32);       (* the free list of the slice pool *)
  rng : Rand;
  trace : list event                (* oldest first *)
}.
Arguments profile {P} _.
Arguments pool {P} _.
Arguments rng {P} _.
Arguments trace {P} _.

Section WorldOps.
Context {P : Type}.

Definition emit (e : event) : M (World P) unit :=
  fun w => Ok tt {| profile := profile w; pool := pool w; rng := rng w;
                    trace := trace w ++ [e] |}.

(** A call into the strategy profile. *)
Definition in_profile {A} (m : M P A) : M (World P) A :=
  fun w => match m (profile w) with
           | Ok a p' => Ok a {| profile := p'; pool := pool w; rng := rng w; trace := trace w |}
           | Panic p' => Panic {| profile := p'; pool := pool w; rng := rng w; trace := trace w |}
           end.

(** [rand.Intn(n)]. *)
Definition Intn (bound : Z) : M (World P) Z :=
  fun w => match rand_Intn bound (rng w) with
           | None => Panic w
           | Some (m, r') =>
               Ok m {| profile := profile w; pool := pool w; rng := r'; trace := trace w |}
           end.

(** [rand.Float32()]: a multiple of 2^-24 in [[0, 1)]. *)
Definition Float32 : M (World P) float32 :=
  fun w => let '(x, r') := rand_next (rng w) in
           Ok (div (of_int (x mod 2 ^ 24)) (of_int (2 ^ 24)))
              {| profile := profile w; pool := pool w; rng := r'; trace := trace w |}.

(** [node.Type()]. *)
Definition node_Type (node : GameTreeNode) : M (World P) NodeType :=
  (emit (EvType (Label node)) ;;; ret (Type_ node))%go.

(** [node.Close()]. *)
Definition node_Close (node : GameTreeNode) : M (World P) unit :=
  emit (EvClose (Label node)).

(** [node.SampleChild()]: which child the game draws is up to the random
    source; the index of the child is returned.  A node without children
    has none to give. *)
Definition node_SampleChild (node : GameTreeNode) : M (World P) Z :=
  Intn (NumChildren node).

(** Modelled from the spec: the slice pool is not among the sources.
    [alloc(n)] gives [n] slots, from the free list when it has a buffer
    (whose content is then what was left in it) and freshly zeroed
    otherwise. *)
Definition alloc (n : Z) : M (World P) (list float32) :=
  fun w => match pool w with
           | [] => Ok (replicate (Z.to_nat n) zero) w
           | b :: rest =>
               Ok (resize (Z.to_nat n) zero b)
                  {| profile := profile w; pool := rest; rng := rng w; trace := trace w |}
           end.

(** Modelled from the spec: [free(buffer)] of the slice pool puts the
    buffer back on the free list. *)
Definition free (b : list float32) (w : World P) : World P :=
  {| profile := profile w; pool := b :: pool w; rng := rng w; trace := trace w |}.

End WorldOps.

(** One world against a later one of the same traversal: the profile is
    related by [RP], the pool has lost no buffer, the random source is
    the same stream read no less far, and the trace was only added to. *)
Definition world_frame {P} (RP : P -> P -> Prop) (w w' : World P) : Prop :=
  RP (profile w) (profile w') /\
  (length (pool w) <= length (pool w'))%nat /\
  raw (rng w') = raw (rng w) /\ (cursor (rng w) <= cursor (rng w'))%nat /\
  trace w `prefix_of` trace w'.

(** Two worlds that differ at most in the slice pool. *)
Definition but_pool {P} (w1 w2 : World P) : Prop :=
  profile w1 = profile w2 /\ rng w1 = rng w2 /\ trace w1 = trace w2.

(** Two runs of a loop over a local slice of length [L]: the worlds
    differ at most in the pool and the slices agree on the indices in
    [D], those written so far. *)
Definition slices {P} (L : nat) (D : Z -> Prop) (a b : World P * list float32) : Prop :=
  but_pool a.1 b.1 /\ length a.2 = L /\ length b.2 = L /\
  forall i, D i -> a.2 !! Z.to_nat i = b.2 !! Z.to_nat i.

Definition agree_loop {P} (L : nat) (D : Z -> Prop)
    (o1 o2 : outcome (World P * list float32) float32) : Prop :=
  match o1, o2 with
  | Ok a s, Ok b t => a = b /\ slices L D s t
  | Panic s, Panic t => but_pool s.1 t.1
  | _, _ => False
  end.

(** Modelled from the spec: [getSign] is not among the sources; the value
    is negated when the last acting player differs from the acting one. *)
Definition getSign (lastPlayer player : Z) : float32 :=
  if decide (lastPlayer = player) then one else neg one.

(** [arange(n)]. *)
Definition arange (n : Z) : list Z := seqZ 0 n.

(** The evaluator of a child: [runHelper] on it, awaiting the remaining
    arguments. *)
Definition evaluator (S : Type) : Type := Z -> float32 -> Z -> M S float32.

(** A statement run while the local slice [x] is live: the state is the
    outer state and the current content of the slice. *)
Definition with_slice {S A} (m : M S A) : M (S * list float32) A :=
  fun sx => match m sx.1 with
            | Ok a s' => Ok a (s', sx.2)
            | Panic s' => Panic (s', sx.2)
            end.

(** [x[i] = v]. *)
Definition slice_set {S} (i : Z) (v : float32) : M (S * list float32) unit :=
  fun sx => if decide (0 <= i < Z.of_nat (length sx.2))
            then Ok tt (sx.1, <[Z.to_nat i := v]> sx.2)
            else Panic sx.

End cfr.

(** ** Robust sampling *)
Module RobustSampling.
Import f32 cfr.

(** The strategy profile is the tabular one; it and the slice pool live
    in the world, [k] is the field that remains. *)
Record RobustSamplingCFR : Type := { k : Z }.

(** [NewRobustSampling(strategyProfile, k)]. *)
Definition NewRobustSampling (k : Z) : RobustSamplingCFR := {| k := k |}.

(** [min(i, j)]. *)
Definition min (i j : Z) : Z := if i <? j then i else j.

(** The state of one traversal: the world and the [sampledActions] map
    that [Run] makes and every call of the traversal shares. *)
Definition St : Type := World PolicyTable * gmap string Z.

Definition world {A} (m : M (World PolicyTable) A) : M St A :=
  fun st => match m st.1 with
            | Ok a w => Ok a (w, st.2)
            | Panic w => Panic (w, st.2)
            end.

(** [selected[i], selected[j] = selected[j], selected[i]]. *)
Definition swap (l : list Z) (i j : nat) : list Z :=
  match l !! i, l !! j with
  | Some x, Some y => <[j := x]> (<[i := y]> l)
  | _, _ => l
  end.

(** The loop of [rand.Shuffle]: [i] runs from [n - 1] down to 1, each
    time swapped with a drawn [j] in [[0, i]]. *)
Fixpoint shuffle_loop (i : nat) (l : list Z) : M (World PolicyTable) (list Z) :=
  match i with
  | O => ret l
  | S i' =>
      (j <- Intn (Z.of_nat i + 1) ;;
       shuffle_loop i' (swap l i (Z.to_nat j)))%go
  end.

Definition Shuffle (l : list Z) : M (World PolicyTable) (list Z) :=
  shuffle_loop (length l - 1) l.

(** Modelled from the spec: [sampleOne] is not among the sources; it
    samples one action index according to the strategy: the first index
    at which the cumulative probability exceeds a uniform draw, the last
    index if none does. *)
Fixpoint sampleOne_scan (x cum : float32) (i : Z) (pv : list float32) : Z :=
  match pv with
  | [] => i - 1
  | p :: pv' =>
      let cum' := add cum p in
      if ltb x cum' then i else sampleOne_scan x cum' (i + 1) pv'
  end.

Definition sampleOne (pv : list float32) : M (World PolicyTable) Z :=
  (x <- Float32 ;; ret (sampleOne_scan x zero 0 pv))%go.

(** [node.GetChild(i)] followed by [c.runHelper(child, ...)]: the
    evaluator of the child. *)
Definition GetChild {S S'} (kids : list (evaluator S)) (i : Z) : M S' (evaluator S) :=
  match index kids i with
  | Some child => ret child
  | None => panic
  end.

(** [defer c.slicePool.free(x)] around the statements that use [x]. *)
Definition slice_scope {A} (x : list float32) (m : M (St * list float32) A) : M St A :=
  fun st => match m (st, x) with
            | Ok a (st', x') => Ok a (free x' st'.1, st'.2)
            | Panic (st', x') => Panic (free x' st'.1, st'.2)
            end.

Section Handlers.
Variable c : RobustSamplingCFR.
Variable node : GameTreeNode.
(** The evaluators of the children of [node], in order. *)
Variable kids : list (evaluator St).

(** [handleChanceNode]. *)
Definition handleChanceNode (lastPlayer : Z) (sampleProb : float32) (traversingPlayer : Z)
  : M St float32 :=
  (i <- world (node_SampleChild node) ;;
   child <- GetChild kids i ;;
   child lastPlayer sampleProb traversingPlayer)%go.

(** The [range selected] loop of [handleTraversingPlayerNode]; the state
    carries the [regrets] slice. *)
Fixpoint traversing_loop (strategy : list float32) (player : Z) (q sampleProb : float32)
    (traversingPlayer : Z) (selected : list Z) (cfValue : float32)
  : M (St * list float32) float32 :=
  match selected with
  | [] => ret cfValue
  | i :: rest =>
      (child <- GetChild kids i ;;
       p <- match index strategy i with Some p => ret p | None => panic end ;;
       util <- with_slice (child player (mul q sampleProb) traversingPlayer) ;;
       slice_set i util ;;;
       traversing_loop strategy player q sampleProb traversingPlayer rest
                       (add cfValue (mul p util)))%go
  end.

(** The actions [handleTraversingPlayerNode] selects. *)
Definition select_actions (nChildren : Z) : M St (list Z) :=
  let selected := arange nChildren in
  if k c <? Z.of_nat (length selected)
  then (shuffled <- world (Shuffle selected) ;;
        if k c <? 0 then panic else ret (take (Z.to_nat (k c)) shuffled))%go
  else ret selected.

(** [handleTraversingPlayerNode]. *)
Definition handleTraversingPlayerNode (sampleProb : float32) (traversingPlayer : Z)
  : M St float32 :=
  let player := Player node in
  let nChildren := NumChildren node in
  (policy <- world (in_profile (GetPolicy node)) ;;
   strategy <- world (in_profile (policy_read policy GetStrategy)) ;;
   selected <- select_actions nChildren ;;
   let q := div one (of_int nChildren) in
   regrets <- world (alloc nChildren) ;;
   slice_scope regrets
     (cfValue <- traversing_loop strategy player q sampleProb traversingPlayer selected zero ;;
      modify (fun sx => (sx.1, AddConst (neg cfValue) sx.2)) ;;;
      sx <- get ;;
      with_slice (world (in_profile (policy_update policy (AddRegret (div one q) sx.2)))) ;;;
      ret cfValue))%go.

(** [handleSampledPlayerNode]. *)
Definition handleSampledPlayerNode (sampleProb : float32) (traversingPlayer : Z)
  : M St float32 :=
  let player := Player node in
  let key := Key node player in
  (policy <- world (in_profile (GetPolicy node)) ;;
   st <- get ;;
   i <- match st.2 !! key with
        | Some i => ret i
        | None =>
            (strategy <- world (in_profile (policy_read policy GetStrategy)) ;;
             i <- world (sampleOne strategy) ;;
             modify (fun st => (st.1, <[key := i]> st.2)) ;;;
             ret i)
        end ;;
   world (in_profile (policy_update policy (AddStrategyWeight (div one sampleProb)))) ;;;
   child <- GetChild kids i ;;
   child player sampleProb traversingPlayer)%go.

(** [handlePlayerNode]. *)
Definition handlePlayerNode (sampleProb : float32) (traversingPlayer : Z) : M St float32 :=
  if decide (traversingPlayer = Player node)
  then handleTraversingPlayerNode sampleProb traversingPlayer
  else handleSampledPlayerNode sampleProb traversingPlayer.

(** The body of [runHelper], the recursive calls being those of [kids]. *)
Definition runHelper_body (lastPlayer : Z) (sampleProb : float32) (traversingPlayer : Z)
  : M St float32 :=
  (ty <- world (node_Type node) ;;
   ev <- match ty with
         | TerminalNode => ret (div (of_float64 (Utility node lastPlayer)) sampleProb)
         | ChanceNode => handleChanceNode lastPlayer sampleProb traversingPlayer
         | PlayerNode =>
             let sgn := getSign lastPlayer (Player node) in
             (v <- handlePlayerNode sampleProb traversingPlayer ;; ret (mul sgn v))
         end ;;
   world (node_Close node) ;;;
   ret ev)%go.

End Handlers.

(** [runHelper]. *)
Fixpoint runHelper (c : RobustSamplingCFR) (node : GameTreeNode) : evaluator St :=
  match node with
  | MkNode _ _ _ _ _ children =>
      runHelper_body c node (map (runHelper c) children)
  end.

(** The selected children evaluated one after the other with the same
    arguments, the values gathered in order. *)
Fixpoint run_selected (kids : list (evaluator St)) (player : Z) (x : float32)
    (traversingPlayer : Z) (selected : list Z) : M St (list float32) :=
  match selected with
  | [] => ret []
  | i :: rest =>
      (child <- GetChild kids i ;;
       util <- child player x traversingPlayer ;;
       utils <- run_selected kids player x traversingPlayer rest ;;
       ret (util :: utils))%go
  end.

(** The strategy-weighted sum of the values, accumulated in order. *)
Definition weighted (strategy : list float32) (selected : list Z) (utils : list float32)
  : float32 :=
  foldl (fun acc iu => add acc (mul (default zero (index strategy iu.1)) iu.2)) zero
        (zip selected utils).

(** The slice with the value of each selected action stored at its
    index. *)
Definition collected (x : list float32) (selected : list Z) (utils : list float32)
  : list float32 :=
  foldl (fun x iu => <[Z.to_nat iu.1 := iu.2]> x) x (zip selected utils).

(** The entries of the sampled-actions map are kept from one state to
    another. *)
Definition cache_kept (st st' : St) : Prop :=
  forall key i, st.2 !! key = Some i -> st'.2 !! key = Some i.

(** An outcome that keeps them, a return or a panic. *)
Definition kept_by {A} (st : St) (o : outcome St A) : Prop :=
  match o with
  | Ok _ st' => cache_kept st st'
  | Panic st' => cache_kept st st'
  end.

(** A computation that keeps them, however it ends. *)
Definition keeps {A} (m : M St A) : Prop := forall st, kept_by st (m st).

(** Two lists of evaluators that do the same when called with the last
    player [lp], the sampling probability [x] and the traversing player
    [tp]. *)
Definition agree_at (lp : Z) (x : float32) (tp : Z) (kids1 kids2 : list (evaluator St))
  : Prop :=
  length kids1 = length kids2 /\
  forall i ev1 ev2, index kids1 i = Some ev1 -> index kids2 i = Some ev2 ->
    forall st, ev1 lp x tp st = ev2 lp x tp st.

(** [Run]. *)
Definition Run (c : RobustSamplingCFR) (node : GameTreeNode) : M (World PolicyTable) float32 :=
  fun w =>
    let iter := Iter (profile w) in
    let traversingPlayer := Z.rem iter 2 in
    let sampledActions : gmap string Z := ∅ in
    match runHelper c node (Player node) one traversingPlayer (w, sampledActions) with
    | Ok ev (w', _) => Ok ev w'
    | Panic (w', _) => Panic w'
    end.

(** Every action in the sampled-actions map is an action of the policy
    the table has under its key. *)
Definition cache_ok (st : St) : Prop :=
  forall key i, st.2 !! key = Some i ->
    exists np, policiesByKey (profile st.1) !! key = Some np /\ 0 <= i < nActions np.

(** A state from which a traversal over the infosets [I] does not
    panic. *)
Definition sound (I : list (string * Z)) (st : St) : Prop :=
  table_ok I (profile st.1) /\ cache_ok st.

(** An outcome of the evaluator of [node] from the state [st]: the world
    is a later one of the same traversal, the table grown, and on a
    return the infoset of the node is marked. *)
Definition framed_marked (node : GameTreeNode) (st : St) (o : outcome St float32) : Prop :=
  match o with
  | Ok _ st' => world_frame table_grows st.1 st'.1 /\ marked node (profile st'.1)
  | Panic st' => world_frame table_grows st.1 st'.1
  end.

End RobustSampling.

(** ** Chance sampling *)
Module ChanceSampling.
Import f32 cfr.

(** The [StrategyProfile] and [NodeStrategy] interfaces this engine
    calls: any implementation, on a state of its own; each method may
    panic. *)
Class StrategyProfile (P : Type) : Type := {
  NodeStrategy : Type;
  GetStrategy : GameTreeNode -> M P NodeStrategy;
  GetActionProbability : NodeStrategy -> Z -> M P float32;
  AddRegret : NodeStrategy -> float32 -> float32 -> list float32 -> M P unit
}.

(** Modelled from the spec: [reachProb] and [counterFactualProb] are not
    among the sources; the first is the acting player's own reach
    probability, the second the product of the reach probabilities
    "excluding the acting player's own". *)
Definition reachProb (player : Z) (reachP0 reachP1 reachChance : float32) : float32 :=
  if decide (player = 0) then reachP0 else reachP1.

Definition counterFactualProb (player : Z) (reachP0 reachP1 reachChance : float32) : float32 :=
  if decide (player = 0) then mul reachP1 reachChance else mul reachP0 reachChance.

(** The evaluator of a child: [runHelper] on it, awaiting [lastPlayer],
    [reachP0] and [reachP1]. *)
Definition evaluator (S : Type) : Type := Z -> float32 -> float32 -> M S float32.

Definition GetChild {S S'} (kids : list (evaluator S)) (i : Z) : M S' (evaluator S) :=
  match index kids i with
  | Some child => ret child
  | None => panic
  end.

Section Engine.
Context {P : Type} `{StrategyProfile P}.

(** [defer c.slicePool.free(x)] around the statements that use [x]. *)
Definition slice_scope {A} (x : list float32) (m : M (World P * list float32) A)
  : M (World P) A :=
  fun w => match m (w, x) with
           | Ok a (w', x') => Ok a (free x' w')
           | Panic (w', x') => Panic (free x' w')
           end.

Section Handlers.
Variable node : GameTreeNode.
Variable kids : list (evaluator (World P)).

(** [handleChanceNode]. *)
Definition handleChanceNode (lastPlayer : Z) (reachP0 reachP1 : float32)
  : M (World P) float32 :=
  (i <- node_SampleChild node ;;
   child <- GetChild kids i ;;
   child lastPlayer reachP0 reachP1)%go.

(** The [for i := 0; i < node.NumChildren(); i++] loop of
    [handlePlayerNode]; the state carries the [advantages] slice. *)
Fixpoint player_loop (strat : NodeStrategy) (player : Z) (reachP0 reachP1 : float32)
    (actions : list Z) (expectedUtil : float32)
  : M (World P * list float32) float32 :=
  match actions with
  | [] => ret expectedUtil
  | i :: rest =>
      (child <- GetChild kids i ;;
       p <- with_slice (in_profile (GetActionProbability strat i)) ;;
       util <- with_slice
                 (if decide (player = 0)
                  then child player (mul p reachP0) reachP1
                  else child player reachP0 (mul p reachP1)) ;;
       slice_set i util ;;;
       player_loop strat player reachP0 reachP1 rest (add expectedUtil (mul p util)))%go
  end.

(** [handlePlayerNode]. *)
Definition handlePlayerNode (reachP0 reachP1 : float32) : M (World P) float32 :=
  let player := Player node in
  (strat <- in_profile (GetStrategy node) ;;
   advantages <- alloc (NumChildren node) ;;
   slice_scope advantages
     (expectedUtil <- player_loop strat player reachP0 reachP1
                        (arange (NumChildren node)) zero ;;
      modify (fun wx => (wx.1, AddConst (neg expectedUtil) wx.2)) ;;;
      let reachP := reachProb player reachP0 reachP1 one in
      let counterFactualP := counterFactualProb player reachP0 reachP1 one in
      wx <- get ;;
      with_slice (in_profile (AddRegret strat reachP counterFactualP wx.2)) ;;;
      ret expectedUtil))%go.

(** The body of [runHelper], the recursive calls being those of [kids]. *)
Definition runHelper_body (lastPlayer : Z) (reachP0 reachP1 : float32)
  : M (World P) float32 :=
  (ty <- node_Type node ;;
   ev <- match ty with
         | TerminalNode => ret (of_float64 (Utility node lastPlayer))
         | ChanceNode => handleChanceNode lastPlayer reachP0 reachP1
         | PlayerNode =>
             let sgn := getSign lastPlayer (Player node) in
             (v <- handlePlayerNode reachP0 reachP1 ;; ret (mul sgn v))
         end ;;
   node_Close node ;;;
   ret ev)%go.

End Handlers.

(** [runHelper]. *)
Fixpoint runHelper (node : GameTreeNode) : evaluator (World P) :=
  match node with
  | MkNode _ _ _ _ _ children => runHelper_body node (map runHelper children)
  end.

(** [Run]. *)
Definition Run (node : GameTreeNode) : M (World P) float32 :=
  runHelper node (Player node) one one.

End Engine.

End ChanceSampling.

(** ** What a traversal leaves in the trace *)
Module traces.
Import cfr.

(** The trace of one completed call of [runHelper] on a node: the node is
    entered, some of its children, each at most once, are evaluated one
    after the other, each leaving such a trace, and the node is closed. *)
Inductive nested : GameTreeNode -> list event -> Prop :=
| nested_node node idx t :
    NoDup idx -> nested_children (Children node) idx t ->
    nested node (EvType (Label node) :: t ++ [EvClose (Label node)])
with nested_children : list GameTreeNode -> list Z -> list event -> Prop :=
| nested_nil cs : nested_children cs [] []
| nested_cons cs i idx child t ts :
    index cs i = Some child -> nested child t -> nested_children cs idx ts ->
    nested_children cs (i :: idx) (t ++ ts).

(** A nested trace in which every opponent node of infoset key [kappa]
    that was entered went on into its child [i] and no other; [tp] is the
    traversing player. *)
Inductive pinned (tp : Z) (kappa : string) (i : Z) : GameTreeNode -> list event -> Prop :=
| pinned_node node idx t :
    (Type_ node = PlayerNode -> tp <> Player node -> Key node (Player node) = kappa ->
     idx = [i]) ->
    pinned_children tp kappa i (Children node) idx t ->
    pinned tp kappa i node (EvType (Label node) :: t ++ [EvClose (Label node)])
with pinned_children (tp : Z) (kappa : string) (i : Z)
  : list GameTreeNode -> list Z -> list event -> Prop :=
| pinned_nil cs : pinned_children tp kappa i cs [] []
| pinned_cons cs j idx child t ts :
    index cs j = Some child -> pinned tp kappa i child t ->
    pinned_children tp kappa i cs idx ts ->
    pinned_children tp kappa i cs (j :: idx) (t ++ ts).

(** An evaluator of [node] of the robust-sampling engine that, started
    with the action cached and returning, keeps it cached and leaves a
    pinned trace. *)
Definition pinned_ev (tp : Z) (kappa : string) (i : Z) (node : GameTreeNode)
    (ev : evaluator RobustSampling.St) : Prop :=
  forall lp sp st, st.2 !! kappa = Some i ->
    post (ev lp sp tp) st
      (fun _ st' => st'.2 !! kappa = Some i /\
         exists t, trace st'.1 = trace st.1 ++ t /\ pinned tp kappa i node t).

Scheme nested_mut := Minimality for nested Sort Prop
  with nested_children_mut := Minimality for nested_children Sort Prop.

(** An evaluator of [node] that leaves such a trace whenever it returns;
    [tr] reads the trace off the state. *)
Definition traced {S X Y W} (tr : S -> list event) (node : GameTreeNode)
    (ev : X -> Y -> W -> M S f32.float32) : Prop :=
  forall x y w s,
    post (ev x y w) s (fun _ s' => exists t, tr s' = tr s ++ t /\ nested node t).

(** The evaluators [kids] are those of the children [cs], in order. *)
Definition kids_traced {S X Y W} (tr : S -> list event) (cs : list GameTreeNode)
    (kids : list (X -> Y -> W -> M S f32.float32)) : Prop :=
  forall i ev, index kids i = Some ev ->
    exists child, index cs i = Some child /\ traced tr child ev.

(** A computation that leaves the trace as it was. *)
Definition silent {S A} (tr : S -> list event) (m : M S A) : Prop :=
  forall s, post m s (fun _ s' => tr s' = tr s).

(** The labels of the nodes of a tree, the root first. *)
Fixpoint labels (node : GameTreeNode) : list nat :=
  match node with
  | MkNode l _ _ _ _ children => l :: concat (map labels children)
  end.

(** How often a node was entered, and closed. *)
Definition entered (l : nat) (t : list event) : nat :=
  length (filter (fun e => e = EvType l) t).
Definition closed (l : nat) (t : list event) : nat :=
  length (filter (fun e => e = EvClose l) t).

(** The trace of a traversal that goes into every child of every player
    node it meets, in index order, and into no child of another node. *)
Fixpoint full_trace (node : GameTreeNode) : list event :=
  match node with
  | MkNode l ty _ _ _ children =>
      EvType l ::
      match ty with
      | PlayerNode => concat (map full_trace children)
      | _ => []
      end ++ [EvClose l]
  end.

(** No chance node is met on the way down from [node] through player
    nodes. *)
Fixpoint chance_free (node : GameTreeNode) : bool :=
  match node with
  | MkNode _ ty _ _ _ children =>
      match ty with
      | ChanceNode => false
      | TerminalNode => true
      | PlayerNode => forallb chance_free children
      end
  end.

(** Every chance node met on the way down from [node] has a child to
    sample. *)
Fixpoint playable (node : GameTreeNode) : bool :=
  match node with
  | MkNode _ ty _ _ _ children =>
      match ty with
      | ChanceNode => negb (bool_decide (children = [])) && forallb playable children
      | TerminalNode => true
      | PlayerNode => forallb playable children
      end
  end.

(** An evaluator of [child] of the chance-sampling engine that, whenever
    it returns, has added the full trace of [child] and left the random
    source alone. *)
Definition full_ev {P} (child : GameTreeNode) (ev : ChanceSampling.evaluator (World P))
  : Prop :=
  forall lp x y w,
    post (ev lp x y) w (fun _ w' => trace w' = trace w ++ full_trace child /\ rng w' = rng w).

End traces.

(** ** Sample data for the traversal engines *)
Module cfr_example.
Import f32 cfr.

Definition f64_of_int (z : Z) : float64 := binary_normalize 53 1024 z 0 false.

(** A terminal node worth [u] to player 0 and [-u] to the other. *)
Definition leaf (label : nat) (u : Z) : GameTreeNode :=
  MkNode label TerminalNode 0 (fun _ => "")
         (fun p => if decide (p = 0) then f64_of_int u else f64_of_int (- u)) [].

(** Player 0 to act, three actions worth 3, 5 and 7. *)
Definition three : GameTreeNode :=
  MkNode 0 PlayerNode 0 (fun _ => "root") (fun _ => S754_zero false)
         [leaf 1 3; leaf 2 5; leaf 3 7].

(** Two nodes that report the same infoset key with two and three
    children. *)
Definition two_of_key : GameTreeNode :=
  MkNode 4 PlayerNode 0 (fun _ => "root") (fun _ => S754_zero false) [leaf 5 1; leaf 6 2].

Definition clash : GameTreeNode :=
  MkNode 7 PlayerNode 1 (fun _ => "top") (fun _ => S754_zero false) [three; two_of_key].

Definition vanilla : DiscountParams := fun _ => (one, one, one).

Definition draws (from : nat) : Rand :=
  {| raw := fun i => 6000000 * Z.of_nat i + 3; cursor := from |}.

(** A world with an empty table at the given iteration, an empty pool
    and an empty trace. *)
Definition world0 (it : Z) (from : nat) : World PolicyTable :=
  {| profile := {| params := vanilla; iter := it; policiesByKey := ∅; mayNeedUpdate := ∅ |};
     pool := []; rng := draws from; trace := [] |}.

(** A strategy profile that plays uniformly and learns nothing, on no
    state. *)
#[global] Instance uniform_profile : ChanceSampling.StrategyProfile unit := {|
  ChanceSampling.NodeStrategy := Z;
  ChanceSampling.GetStrategy := fun node => ret (NumChildren node);
  ChanceSampling.GetActionProbability := fun n _ => ret (div one (of_int n));
  ChanceSampling.AddRegret := fun _ _ _ _ => ret tt
|}.

Definition unit_world : World unit :=
  {| profile := tt; pool := []; rng := draws 0; trace := [] |}.

(** The same world after an earlier traversal left a used buffer in the
    pool. *)
Definition used_world : World unit :=
  {| profile := tt; pool := [[one; one; one]]; rng := draws 0; trace := [] |}.

End cfr_example.

(* ===================================================================== *)
(** * Properties *)
(* ===================================================================== *)

(** ** Machine integers and the random source *)

Lemma wrap_int_id x : is_int x -> wrap_int x = x.
Proof.
  unfold is_int, wrap_int, MinInt, MaxInt. intros H.
  rewrite Z.mod_small; lia.
Qed.

Lemma to_uint64_id x : 0 <= x < 2 ^ 64 -> to_uint64 x = x.
Proof. intros H. unfold to_uint64. now apply Z.mod_small. Qed.

Lemma to_uint64_range x : 0 <= to_uint64 x < 2 ^ 64.
Proof. unfold to_uint64. apply Z.mod_pos_bound. lia. Qed.

Lemma rand_Intn_range n r m r' :
  rand_Intn n r = Some (m, r') -> 0 <= m < n.
Proof.
  unfold rand_Intn. destruct (Z.leb_spec n 0); [discriminate|].
  intros [= <- _]. apply Z.mod_pos_bound. lia.
Qed.

Lemma rand_Intn_pos n r :
  0 < n -> rand_Intn n r = Some (raw r (cursor r) mod n, (rand_next r).2).
Proof.
  intros Hn. unfold rand_Intn. destruct (Z.leb_spec n 0); [lia|reflexivity].
Qed.

(** ** Slot keys: unsigned varints *)

Section Varint.
Import ldbstore.

Lemma low7_continuation x : Z.land (Z.lor (to_byte x) 128) 127 = x mod 128.
Proof.
  unfold to_byte. rewrite Z.land_lor_distr_l.
  change (Z.land 128 127) with 0. rewrite Z.lor_0_r.
  rewrite <- Z.land_assoc. change (Z.land 255 127) with (Z.ones 7).
  now rewrite Z.land_ones by lia.
Qed.

Lemma low7_last x : 0 <= x < 128 -> Z.land (to_byte x) 127 = x.
Proof.
  intros H. unfold to_byte. rewrite <- Z.land_assoc.
  change (Z.land 255 127) with (Z.ones 7).
  rewrite Z.land_ones by lia. apply Z.mod_small. lia.
Qed.

Lemma putUvarint_loop_total space x :
  0 <= x < 128 ^ Z.of_nat (S space) -> is_Some (putUvarint_loop (S space) x).
Proof.
  revert x. induction space as [|space IH]; intros x Hx.
  - cbn [putUvarint_loop]. change (128 ^ Z.of_nat 1) with 128 in Hx.
    destruct (Z.leb_spec 128 x); [lia|eauto].
  - remember (S space) as sp eqn:Hsp. cbn [putUvarint_loop].
    destruct (Z.leb_spec 128 x) as [Hge|Hlt]; [|eauto].
    destruct (IH (Z.shiftr x 7)) as [k Hk].
    + rewrite Z.shiftr_div_pow2 by lia. change (2 ^ 7) with 128.
      rewrite Nat2Z.inj_succ, Z.pow_succ_r in Hx by lia.
      split; [apply Z.div_pos; lia|apply Z.div_lt_upper_bound; lia].
    + rewrite Hk. eauto.
Qed.

Lemma putUvarint_loop_decode space x k :
  0 <= x -> putUvarint_loop space x = Some k -> uvarint k = x.
Proof.
  revert x k. induction space as [|space IH]; intros x k Hx; [discriminate|].
  cbn [putUvarint_loop]. destruct (Z.leb_spec 128 x) as [Hge|Hlt].
  - destruct (putUvarint_loop space (Z.shiftr x 7)) as [k'|] eqn:Hk'; [|discriminate].
    intros [= <-]. cbn [uvarint]. rewrite low7_continuation.
    rewrite (IH _ _ (proj2 (Z.shiftr_nonneg x 7) Hx) Hk').
    rewrite Z.shiftr_div_pow2 by lia. change (2 ^ 7) with 128.
    pose proof (Z.div_mod x 128). lia.
  - intros [= <-]. cbn [uvarint]. rewrite low7_last by lia. lia.
Qed.

Lemma PutUvarint_slot_key idx : PutUvarint (to_uint64 idx) = Some (slot_key idx).
Proof.
  unfold slot_key.
  destruct (putUvarint_loop_total 9 (to_uint64 idx)) as [k Hk].
  - pose proof (to_uint64_range idx). change (128 ^ Z.of_nat 10) with (2 ^ 70). lia.
  - unfold PutUvarint, MaxVarintLen64. now rewrite Hk.
Qed.

Lemma uvarint_slot_key idx : uvarint (slot_key idx) = to_uint64 idx.
Proof.
  apply (putUvarint_loop_decode MaxVarintLen64).
  - apply to_uint64_range.
  - apply PutUvarint_slot_key.
Qed.

Lemma slot_key_inj i j :
  0 <= i < 2 ^ 64 -> 0 <= j < 2 ^ 64 -> slot_key i = slot_key j -> i = j.
Proof.
  intros Hi Hj E. apply (f_equal uvarint) in E.
  now rewrite !uvarint_slot_key, !to_uint64_id in E.
Qed.

End Varint.

(** ** The byte-lexicographic order *)

Section KeyOrder.
Import ldbstore.

Lemma bytes_compare_eq a b : bytes_compare a b = Eq -> a = b.
Proof.
  revert b. induction a as [|x a IH]; intros [|y b]; cbn; try discriminate; [done|].
  destruct (Z.compare_spec x y); try discriminate.
  intros E. subst. f_equal. now apply IH.
Qed.

Lemma bytes_compare_swap a b : bytes_compare b a = CompOpp (bytes_compare a b).
Proof.
  revert b. induction a as [|x a IH]; intros [|y b]; cbn; try reflexivity.
  rewrite (Z.compare_antisym x y).
  destruct (x ?= y); cbn; [apply IH|reflexivity..].
Qed.

Lemma bytes_compare_lt_trans a b c :
  bytes_compare a b = Lt -> bytes_compare b c = Lt -> bytes_compare a c = Lt.
Proof.
  revert b c. induction a as [|x a IH]; intros [|y b] [|z c]; cbn; try discriminate; try done.
  destruct (Z.compare_spec x y), (Z.compare_spec y z); try discriminate; subst; intros H1 H2.
  - rewrite Z.compare_refl. eauto.
  - now rewrite (proj2 (Z.compare_lt_iff _ _)) by lia.
  - now rewrite (proj2 (Z.compare_lt_iff _ _)) by lia.
  - now rewrite (proj2 (Z.compare_lt_iff _ _)) by lia.
Qed.

#[global] Instance bytes_le_total : Total bytes_le.
Proof.
  intros a b. unfold bytes_le. rewrite (bytes_compare_swap a b).
  destruct (bytes_compare a b); cbn; [left|left|right]; congruence.
Qed.

#[global] Instance bytes_le_trans : Transitive bytes_le.
Proof.
  intros a b c. unfold bytes_le.
  destruct (bytes_compare a b) eqn:Hab; [|intros _|congruence].
  - apply bytes_compare_eq in Hab. now subst.
  - destruct (bytes_compare b c) eqn:Hbc; [|intros _|congruence].
    + apply bytes_compare_eq in Hbc. subst. intros _. congruence.
    + rewrite (bytes_compare_lt_trans _ _ _ Hab Hbc). congruence.
Qed.

#[global] Instance bytes_le_antisym : AntiSymm (=) bytes_le.
Proof.
  intros a b. unfold bytes_le. rewrite (bytes_compare_swap a b).
  destruct (bytes_compare a b) eqn:E; cbn; try congruence.
  intros _ _. now apply bytes_compare_eq.
Qed.

#[global] Instance entry_le_total : Total entry_le.
Proof. intros e1 e2. apply bytes_le_total. Qed.

#[global] Instance entry_le_trans : Transitive entry_le.
Proof. intros e1 e2 e3. apply bytes_le_trans. Qed.

End KeyOrder.

(** ** AddSample, one call *)

Section ReservoirFacts.
Import ldbstore.
Context {Sample : Type}.
Variable enc : Sample -> option bytes.
Variable dec : bytes -> option Sample.
Variable seeks : nat -> nat.

Lemma putSample_ok idx s v st h store :
  db (buf st) = Some h -> db_closed h = false -> disk st !! db_path h = Some store ->
  enc s = Some v ->
  putSample enc idx s st =
  Ok tt (emit (EvPut (slot_key idx) v)
           (set_disk (<[db_path h := <[slot_key idx := v]> store]> (disk st)) st)).
Proof.
  intros Hdb Hopen Hstore Hv. unfold putSample.
  rewrite PutUvarint_slot_key, Hv, Hdb. unfold leveldb_Put.
  now rewrite Hopen, Hstore.
Qed.

Lemma set_buf_unlock b cnt :
  mx b = false -> with_mx false (with_n cnt (with_mx true b)) = with_n cnt b.
Proof. destruct b; cbn. now intros ->. Qed.

(** The count is at most the capacity: the sample takes slot [n]. *)
Lemma AddSample_fill s v st h store :
  ready st h store -> 0 <= n (buf st) < MaxInt -> enc s = Some v ->
  n (buf st) + 1 <= maxSize (buf st) ->
  AddSample enc s st =
  Ok tt {| buf := with_n (n (buf st) + 1) (buf st);
           disk := <[db_path h := <[slot_key (n (buf st)) := v]> store]> (disk st);
           locks := locks st;
           rng := rng st;
           log := log st ++ [EvLock; EvSetN (n (buf st) + 1);
                             EvPut (slot_key (n (buf st))) v; EvUnlock] |}.
Proof.
  intros (Hmx & Hdb & Hopen & Hstore) Hn Hv Hle.
  unfold AddSample, bind, Lock, defer, AddSample_body, bind, incr_n, get. rewrite Hmx. cbn.
  rewrite wrap_int_id by (unfold is_int, MinInt, MaxInt in *; lia).
  destruct (Z.leb_spec (n (buf st) + 1) (maxSize (buf st))); [|lia].
  replace (n (buf st) + 1 - 1) with (n (buf st)) by lia.
  erewrite putSample_ok by (cbn; eauto).
  unfold Unlock, emit, set_buf, set_disk. cbn.
  rewrite set_buf_unlock by done. rewrite <- !app_assoc. reflexivity.
Qed.

(** Past the capacity, a draw below it: the sample replaces slot [m]. *)
Lemma AddSample_replace s v st h store :
  ready st h store -> 0 <= n (buf st) < MaxInt -> enc s = Some v ->
  maxSize (buf st) < n (buf st) + 1 ->
  let m := raw (rng st) (cursor (rng st)) mod (n (buf st) + 1) in
  m < maxSize (buf st) ->
  AddSample enc s st =
  Ok tt {| buf := with_n (n (buf st) + 1) (buf st);
           disk := <[db_path h := <[slot_key m := v]> store]> (disk st);
           locks := locks st;
           rng := (rand_next (rng st)).2;
           log := log st ++ [EvLock; EvSetN (n (buf st) + 1);
                             EvIntn (n (buf st) + 1) m; EvPut (slot_key m) v; EvUnlock] |}.
Proof.
  intros (Hmx & Hdb & Hopen & Hstore) Hn Hv Hgt m Hm.
  unfold AddSample, bind, Lock, defer, AddSample_body, bind, incr_n, get. rewrite Hmx. cbn.
  rewrite wrap_int_id by (unfold is_int, MinInt, MaxInt in *; lia).
  destruct (Z.leb_spec (n (buf st) + 1) (maxSize (buf st))); [lia|].
  unfold Intn. cbn. rewrite rand_Intn_pos by lia. cbn. fold m.
  destruct (Z.ltb_spec m (maxSize (buf st))); [|lia].
  erewrite putSample_ok by (cbn; eauto).
  unfold Unlock, emit, set_buf, set_disk. cbn.
  rewrite set_buf_unlock by done. rewrite <- !app_assoc. reflexivity.
Qed.

(** Past the capacity, a draw at or above it: the sample is discarded. *)
Lemma AddSample_discard s st :
  mx (buf st) = false -> 0 <= n (buf st) < MaxInt ->
  maxSize (buf st) < n (buf st) + 1 ->
  let m := raw (rng st) (cursor (rng st)) mod (n (buf st) + 1) in
  maxSize (buf st) <= m ->
  AddSample enc s st =
  Ok tt {| buf := with_n (n (buf st) + 1) (buf st);
           disk := disk st;
           locks := locks st;
           rng := (rand_next (rng st)).2;
           log := log st ++ [EvLock; EvSetN (n (buf st) + 1);
                             EvIntn (n (buf st) + 1) m; EvUnlock] |}.
Proof.
  intros Hmx Hn Hgt m Hm.
  unfold AddSample, bind, Lock, defer, AddSample_body, bind, incr_n, get. rewrite Hmx. cbn.
  rewrite wrap_int_id by (unfold is_int, MinInt, MaxInt in *; lia).
  destruct (Z.leb_spec (n (buf st) + 1) (maxSize (buf st))); [lia|].
  unfold Intn. cbn. rewrite rand_Intn_pos by lia. cbn. fold m.
  destruct (Z.ltb_spec m (maxSize (buf st))); [lia|].
  unfold ret, Unlock, emit, set_buf, set_disk. cbn.
  rewrite set_buf_unlock by done. rewrite <- !app_assoc. reflexivity.
Qed.

(** ** The store against the slots *)

Lemma holds_empty : holds enc ∅ [].
Proof.
  split.
  - intros i s H. now rewrite lookup_nil in H.
  - intros k v H. now rewrite lookup_empty in H.
Qed.

Lemma slot_key_nat_inj (i j : nat) :
  Z.of_nat i < 2 ^ 64 -> Z.of_nat j < 2 ^ 64 ->
  slot_key (Z.of_nat i) = slot_key (Z.of_nat j) -> i = j.
Proof. intros Hi Hj E. apply Nat2Z.inj, slot_key_inj; [lia..|done]. Qed.

(** The next sample takes the next free slot. *)
Lemma holds_snoc store slots s v :
  Z.of_nat (length slots) < 2 ^ 64 -> enc s = Some v -> holds enc store slots ->
  holds enc (<[slot_key (Z.of_nat (length slots)) := v]> store) (slots ++ [s]).
Proof.
  intros Hlen Hv [H1 H2]. split.
  - intros i s' [[Hi Hs]|[-> <-]]%lookup_snoc_Some.
    + destruct (H1 i s' Hs) as (v' & Hv' & Hst). exists v'. split; [done|].
      rewrite lookup_insert_ne; [done|].
      intros E. apply slot_key_nat_inj in E; lia.
    + exists v. split; [done|]. apply lookup_insert_eq.
  - intros k v' Hk.
    destruct (decide (k = slot_key (Z.of_nat (length slots)))) as [->|Hne].
    + exists (length slots), s. split; [|done]. apply lookup_snoc_Some. auto.
    + rewrite lookup_insert_ne in Hk by done.
      destruct (H2 k v' Hk) as (i & s' & Hs & ->). exists i, s'. split; [|done].
      apply lookup_snoc_Some. left. split; [|done]. eapply lookup_lt_Some, Hs.
Qed.

(** A later sample replaces an occupied slot. *)
Lemma holds_replace store slots (m : nat) s v :
  Z.of_nat (length slots) < 2 ^ 64 -> (m < length slots)%nat -> enc s = Some v ->
  holds enc store slots ->
  holds enc (<[slot_key (Z.of_nat m) := v]> store) (<[m := s]> slots).
Proof.
  intros Hlen Hm Hv [H1 H2]. split.
  - intros i s' [(<- & <- & _)|[Hne Hs]]%list_lookup_insert_Some.
    + exists v. split; [done|]. apply lookup_insert_eq.
    + destruct (H1 i s' Hs) as (v' & Hv' & Hst). exists v'. split; [done|].
      rewrite lookup_insert_ne; [done|].
      pose proof (lookup_lt_Some _ _ _ Hs).
      intros E. apply slot_key_nat_inj in E; lia.
  - intros k v' Hk.
    destruct (decide (k = slot_key (Z.of_nat m))) as [->|Hne].
    + exists m, s. split; [|done]. now apply list_lookup_insert_eq.
    + rewrite lookup_insert_ne in Hk by done.
      destruct (H2 k v' Hk) as (i & s' & Hs & ->). exists i, s'. split; [|done].
      rewrite list_lookup_insert_ne; [done|]. intros ->. done.
Qed.

Lemma slot_entries_NoDup_keys (slots : list Sample) :
  Z.of_nat (length slots) < 2 ^ 64 -> NoDup (slot_entries enc slots).*1.
Proof.
  intros Hlen. unfold slot_entries. rewrite fmap_imap.
  replace (imap _ slots) with ((fun i => slot_key (Z.of_nat i)) <$> seq 0 (length slots)).
  - apply NoDup_fmap_2_strong; [|apply NoDup_seq].
    intros i j [_ Hi]%elem_of_seq [_ Hj]%elem_of_seq E.
    apply slot_key_nat_inj in E; lia.
  - rewrite <- (imap_seq_0 slots). reflexivity.
Qed.

(** The entries of the store are those of the slots, in some order. *)
Lemma holds_entries store slots :
  Z.of_nat (length slots) < 2 ^ 64 -> holds enc store slots ->
  map_to_list store ≡ₚ slot_entries enc slots.
Proof.
  intros Hlen [H1 H2]. apply NoDup_Permutation.
  - apply NoDup_map_to_list.
  - eapply NoDup_fmap_1, slot_entries_NoDup_keys, Hlen.
  - intros [k v]. rewrite elem_of_map_to_list. unfold slot_entries.
    rewrite elem_of_lookup_imap. split.
    + intros Hk. destruct (H2 k v Hk) as (i & s & Hs & ->).
      destruct (H1 i s Hs) as (v' & Hv' & Hst).
      exists i, s. split; [|done]. rewrite Hv'. cbn.
      rewrite Hk in Hst. now injection Hst as ->.
    + intros (i & s & [= -> ->] & Hs).
      destruct (H1 i s Hs) as (v' & Hv' & Hst). now rewrite Hv'.
Qed.

(** ** AddSample against the reservoir on a list *)

Lemma AddSample_refines s st h slots :
  refines enc st h slots -> n (buf st) < MaxInt -> is_Some (enc s) ->
  exists st',
    AddSample enc s st = Ok tt st' /\
    let res := reservoir_step (maxSize (buf st)) (slots, n (buf st), rng st) s in
    refines enc st' h res.1.1 /\ n (buf st') = res.1.2 /\ rng st' = res.2 /\
    maxSize (buf st') = maxSize (buf st) /\
    (forall p, p <> db_path h -> disk st' !! p = disk st !! p).
Proof.
  intros (store & Hready & Hholds & Hn0 & Hlen) Hn [v Hv].
  pose proof Hready as (Hmx & Hdb & Hopen & Hstore).
  assert (Z.of_nat (length slots) < 2 ^ 64) as Hlt.
  { rewrite Hlen. unfold MaxInt in Hn. lia. }
  cbn [reservoir_step].
  destruct (Z.leb_spec (n (buf st) + 1) (maxSize (buf st))) as [Hle|Hgt].
  - (* the next free slot *)
    eexists. split; [now apply (AddSample_fill s v st h store)|].
    assert (Z.of_nat (length slots) = n (buf st)) as Hidx by (rewrite Hlen; lia).
    cbn. split; [|split; [done|split; [done|split; [done|]]]].
    + exists (<[slot_key (n (buf st)) := v]> store). split; [|split; [|split]]; cbn.
      * repeat split; cbn; try done. apply lookup_insert_eq.
      * rewrite <- Hidx. now apply holds_snoc.
      * lia.
      * rewrite length_app. cbn. lia.
    + intros p Hp. now rewrite lookup_insert_ne.
  - cbn [rand_next]. set (m := raw (rng st) (cursor (rng st)) mod (n (buf st) + 1)).
    assert (0 <= m < n (buf st) + 1) as Hm by (apply Z.mod_pos_bound; lia).
    destruct (Z.ltb_spec m (maxSize (buf st))) as [Hin|Hout].
    + (* an occupied slot is replaced *)
      eexists. split; [now apply (AddSample_replace s v st h store)|].
      cbn. split; [|split; [done|split; [done|split; [done|]]]].
      * exists (<[slot_key m := v]> store). split; [|split; [|split]]; cbn.
        -- repeat split; cbn; try done. apply lookup_insert_eq.
        -- rewrite <- (Z2Nat.id m) at 1 by lia. apply holds_replace; [done|lia|done..].
        -- lia.
        -- rewrite length_insert. lia.
      * intros p Hp. now rewrite lookup_insert_ne.
    + (* the sample is discarded *)
      eexists. split; [now apply (AddSample_discard s st)|].
      cbn. split; [|split; [done|split; [done|split; [done|done]]]].
      exists store. split; [|split; [|split]]; cbn; [done|done|lia|lia].
Qed.

Lemma AddSamples_refines ss : forall st h slots,
  refines enc st h slots -> n (buf st) + Z.of_nat (length ss) <= MaxInt ->
  Forall (fun s => is_Some (enc s)) ss ->
  exists st',
    AddSamples enc ss st = Ok tt st' /\
    let res := fold_left (reservoir_step (maxSize (buf st))) ss (slots, n (buf st), rng st) in
    refines enc st' h res.1.1 /\ n (buf st') = res.1.2 /\ rng st' = res.2 /\
    maxSize (buf st') = maxSize (buf st) /\
    (forall p, p <> db_path h -> disk st' !! p = disk st !! p).
Proof.
  induction ss as [|s ss IH]; intros st h slots Href Hn Henc.
  - exists st. cbn. tauto.
  - apply Forall_cons in Henc as [Hs Henc]. cbn [length] in Hn.
    destruct (AddSample_refines s st h slots Href ltac:(lia) Hs)
      as (st1 & Hrun & Href1 & Hn1 & Hr1 & Hsz1 & Hd1).
    destruct (reservoir_step (maxSize (buf st)) (slots, n (buf st), rng st) s)
      as [[slots1 cnt1] r1] eqn:Hstep.
    cbn in Href1, Hn1, Hr1.
    assert (cnt1 = n (buf st) + 1) as Hcnt.
    { revert Hstep. cbn. repeat case_match; congruence. }
    destruct (IH st1 h slots1 Href1 ltac:(lia) Henc)
      as (st' & Hrun' & Href' & Hn' & Hr' & Hsz' & Hd').
    exists st'. split.
    + cbn [AddSamples]. unfold bind. now rewrite Hrun.
    + cbn [fold_left]. rewrite Hstep. rewrite Hsz1, Hn1, Hr1 in *.
      repeat split; try done. intros p Hp. rewrite Hd', Hd1; done.
Qed.

(** The reservoir on a list: the count, and the slots while they fill. *)
Lemma reservoir_count cap ss : forall (slots : list Sample) cnt r,
  (fold_left (reservoir_step cap) ss (slots, cnt, r)).1.2 = cnt + Z.of_nat (length ss).
Proof.
  induction ss as [|s ss IH]; intros slots cnt r; cbn [fold_left length]; [cbn; lia|].
  destruct (reservoir_step cap (slots, cnt, r) s) as [[slots1 cnt1] r1] eqn:Hstep.
  assert (cnt1 = cnt + 1) as -> by (revert Hstep; cbn; repeat case_match; congruence).
  rewrite IH. lia.
Qed.

Lemma reservoir_fill cap ss : forall (slots : list Sample) cnt r,
  cnt + Z.of_nat (length ss) <= cap ->
  (fold_left (reservoir_step cap) ss (slots, cnt, r)).1.1 = slots ++ ss.
Proof.
  induction ss as [|s ss IH]; intros slots cnt r Hle; cbn [fold_left length] in *.
  - cbn. now rewrite app_nil_r.
  - cbn [reservoir_step]. destruct (Z.leb_spec (cnt + 1) cap); [|lia].
    rewrite IH by lia. now rewrite <- app_assoc.
Qed.

(** ** Key order against slot order *)

Lemma StronglySorted_imap {A B} (R : relation B) (f : nat -> A -> B) (l : list A) :
  (forall i j x y, l !! i = Some x -> l !! j = Some y -> (i < j)%nat -> R (f i x) (f j y)) ->
  StronglySorted R (imap f l).
Proof.
  revert f. induction l as [|x l IH]; intros f Hf; cbn; constructor.
  - apply IH. intros i j y z Hy Hz Hij. apply (Hf (S i) (S j)); [done..|lia].
  - apply Forall_forall. intros e (i & y & -> & Hy)%elem_of_lookup_imap.
    apply (Hf 0%nat (S i)); [done..|lia].
Qed.

(** Below 256 the varint keys are ordered as their slot indices. *)
Lemma slot_key_order_256 :
  forallb (fun i =>
    forallb (fun j =>
      if i <? j
      then match bytes_compare (slot_key i) (slot_key j) with Lt => true | _ => false end
      else true) (seqZ 0 256)) (seqZ 0 256) = true.
Proof. vm_compute. reflexivity. Qed.

Lemma slot_key_lt (i j : nat) :
  (i < j)%nat -> (j < 256)%nat ->
  bytes_le (slot_key (Z.of_nat i)) (slot_key (Z.of_nat j)).
Proof.
  intros Hij Hj. pose proof slot_key_order_256 as H.
  rewrite forallb_forall in H.
  specialize (H (Z.of_nat i)). rewrite forallb_forall in H.
  assert (Z.of_nat i ∈ seqZ 0 256) as Hi' by (apply elem_of_seqZ; lia).
  assert (Z.of_nat j ∈ seqZ 0 256) as Hj' by (apply elem_of_seqZ; lia).
  apply list_elem_of_In in Hi', Hj'.
  specialize (H Hi' (Z.of_nat j) Hj').
  destruct (Z.ltb_spec (Z.of_nat i) (Z.of_nat j)); [|lia].
  unfold bytes_le. destruct (bytes_compare _ _); [discriminate|congruence|discriminate].
Qed.

Lemma slot_entries_sorted (slots : list Sample) :
  (length slots <= 256)%nat -> Sorted entry_le (slot_entries enc slots).
Proof.
  intros Hlen. apply StronglySorted_Sorted, StronglySorted_imap.
  intros i j x y _ Hy Hij. apply slot_key_lt; [done|].
  apply lookup_lt_Some in Hy. lia.
Qed.

(** With at most 256 slots occupied the scan meets the slots in slot
    order. *)
Lemma scan_slot_order store slots :
  holds enc store slots -> (length slots <= 256)%nat ->
  merge_sort entry_le (map_to_list store) = slot_entries enc slots.
Proof.
  intros Hholds Hlen.
  assert (Z.of_nat (length slots) < 2 ^ 64) as Hlt by lia.
  apply (Sorted_unique_strong entry_le).
  - intros [k1 v1] [k2 v2] H1 H2 Hle Hge.
    assert (k1 = k2) as <- by (apply (anti_symm bytes_le); done).
    rewrite merge_sort_Permutation in H1.
    rewrite <- (holds_entries _ _ Hlt Hholds) in H2.
    apply elem_of_map_to_list in H1, H2. congruence.
  - apply Sorted_merge_sort, _.
  - now apply slot_entries_sorted.
  - rewrite merge_sort_Permutation. now apply holds_entries.
Qed.

(** C2: one call of AddSample on a buffer in use whose count [n] is a
    count a 64-bit int can still increment, with a sample that encodes:
    the call returns, the count becomes [n + 1]; when [n + 1] is at most
    the capacity the sample is stored under the key of slot [n];
    otherwise the draw [m] lies in [[0, n + 1)], and the sample
    overwrites slot [m] exactly when [m] is below the capacity and is
    discarded otherwise.  The log shows the count, the draw and the write
    all between the one Lock and the one Unlock. *)
Theorem AddSample_reservoir_step s v st h store :
  ready st h store -> 0 <= n (buf st) < MaxInt -> enc s = Some v ->
  let cnt := n (buf st) in
  let cap := maxSize (buf st) in
  let m := raw (rng st) (cursor (rng st)) mod (cnt + 1) in
  exists st',
    AddSample enc s st = Ok tt st' /\
    buf st' = with_n (cnt + 1) (buf st) /\
    (cnt + 1 <= cap ->
       disk st' = <[db_path h := <[slot_key cnt := v]> store]> (disk st) /\
       rng st' = rng st /\
       log st' = log st ++ [EvLock; EvSetN (cnt + 1); EvPut (slot_key cnt) v; EvUnlock]) /\
    (cap < cnt + 1 ->
       0 <= m < cnt + 1 /\ rng st' = (rand_next (rng st)).2 /\
       (m < cap ->
          disk st' = <[db_path h := <[slot_key m := v]> store]> (disk st) /\
          log st' = log st ++ [EvLock; EvSetN (cnt + 1); EvIntn (cnt + 1) m;
                               EvPut (slot_key m) v; EvUnlock]) /\
       (cap <= m ->
          disk st' = disk st /\
          log st' = log st ++ [EvLock; EvSetN (cnt + 1); EvIntn (cnt + 1) m; EvUnlock])).
Proof.
  intros Hready Hn Hv cnt cap m.
  assert (0 <= m < cnt + 1) as Hm by (apply Z.mod_pos_bound; lia).
  destruct (Z.le_gt_cases (cnt + 1) cap) as [Hle|Hgt].
  - eexists. split; [now apply (AddSample_fill s v st h store)|].
    cbn. split; [done|]. split; [done|]. intros ?. lia.
  - destruct (Z.lt_ge_cases m cap) as [Hin|Hout].
    + eexists. split; [now apply (AddSample_replace s v st h store)|].
      cbn. split; [done|]. split; [intros ?; lia|]. intros _.
      split; [done|]. split; [done|]. split; [done|]. intros ?. lia.
    + destruct Hready as [Hmx _].
      eexists. split; [now apply (AddSample_discard s st)|].
      cbn. split; [done|]. split; [intros ?; lia|]. intros _.
      split; [done|]. split; [done|]. split; [|done]. intros ?. lia.
Qed.

(** ** GetSamples *)

Lemma omap_imap_id {A B} (f : nat -> A -> B) (g : B -> option A) (l : list A) :
  (forall i x, l !! i = Some x -> g (f i x) = Some x) -> omap g (imap f l) = l.
Proof.
  revert f. induction l as [|x l IH]; intros f Hf; [done|].
  cbn. rewrite (Hf 0%nat x eq_refl). f_equal.
  apply IH. intros i y Hy. apply (Hf (S i)), Hy.
Qed.

Lemma decode_entries_omap es :
  Forall (fun e => is_Some (dec e.2)) es ->
  decode_entries dec es = Some (omap (fun e => dec e.2) es).
Proof.
  induction 1 as [|[k v] es [s Hs] _ IH]; [done|].
  cbn in *. now rewrite Hs, IH.
Qed.

Lemma decode_entries_values es out :
  decode_entries dec es = Some out -> Forall2 (fun e s => dec e.2 = Some s) es out.
Proof.
  revert out. induction es as [|[k v] es IH]; intros out; cbn.
  - intros [= <-]. constructor.
  - destruct (dec v) as [s|] eqn:Hs; [|discriminate].
    destruct (decode_entries dec es) as [out'|]; [|discriminate].
    intros [= <-]. constructor; [done|]. now apply IH.
Qed.

Section Roundtrip.
Hypothesis gob_roundtrip : forall s v, enc s = Some v -> dec v = Some s.

Lemma slot_entries_decode store slots :
  holds enc store slots ->
  Forall (fun e => is_Some (dec e.2)) (slot_entries enc slots) /\
  omap (fun e => dec e.2) (slot_entries enc slots) = slots.
Proof.
  intros [H1 _]. split.
  - apply Forall_forall. intros e (i & s & -> & Hs)%elem_of_lookup_imap.
    destruct (H1 i s Hs) as (v & Hv & _). rewrite Hv. cbn. eauto.
  - apply omap_imap_id. intros i s Hs.
    destruct (H1 i s Hs) as (v & Hv & _). rewrite Hv. cbn. eauto.
Qed.

(** The scan yields the entries of the slots sorted by key, and the
    decoded samples are those of the slots in that order. *)
Lemma GetSamples_eval st h store slots :
  ready st h store -> holds enc store slots -> Z.of_nat (length slots) < 2 ^ 64 ->
  let es := merge_sort entry_le (map_to_list store) in
  GetSamples dec seeks st =
    Ok (omap (fun e => dec e.2) es) (scanned seeks (S (length slots)) st) /\
  es ≡ₚ slot_entries enc slots /\ Sorted entry_le es /\
  Forall2 (fun e s => dec e.2 = Some s) es (omap (fun e => dec e.2) es) /\
  omap (fun e => dec e.2) es ≡ₚ slots.
Proof.
  intros (Hmx & Hdb & Hopen & Hstore) Hholds Hlen es.
  pose proof (holds_entries _ _ Hlen Hholds) as Hperm.
  destruct (slot_entries_decode _ _ Hholds) as [Hall Hslots].
  assert (es ≡ₚ slot_entries enc slots) as Hes.
  { unfold es. now rewrite merge_sort_Permutation. }
  assert (decode_entries dec es = Some (omap (fun e => dec e.2) es)) as Hdec.
  { apply decode_entries_omap. now rewrite Hes. }
  split; [|split; [done|split; [|split]]].
  - unfold GetSamples. rewrite Hdb. unfold leveldb_scan. rewrite Hopen, Hstore.
    fold es. rewrite Hdec.
    assert (length es = length slots) as ->; [|done].
    rewrite (Permutation_length Hes). unfold slot_entries. apply length_imap.
  - apply Sorted_merge_sort, _.
  - now apply decode_entries_values.
  - rewrite Hes. now rewrite Hslots.
Qed.

Lemma fresh_refines p o cap lk d b lk' d' r l :
  NewReservoirBuffer p o cap lk d = (inl b, lk', d') -> d !! p = None -> 0 <= cap ->
  db b = Some {| db_path := p; db_closed := false |} /\ n b = 0 /\ maxSize b = cap /\
  refines enc {| buf := b; disk := d'; locks := lk'; rng := r; log := l |}
    {| db_path := p; db_closed := false |} [].
Proof.
  unfold NewReservoirBuffer, leveldb_OpenFile. intros Hnew Hfree Hcap.
  rewrite Hfree in Hnew. destruct (decide (p ∈ lk)); [discriminate|].
  destruct (ErrorIfMissing (default defaultOptions o)); [discriminate|].
  injection Hnew as <- <- <-. cbn. repeat split; try done.
  exists ∅. cbn. split; [|split; [apply holds_empty|split; [done|]]].
  - repeat split; cbn; try done. apply lookup_insert_eq.
  - cbn. lia.
Qed.

(** C6: on a fresh buffer of capacity [cap > 0], after each number [k] of
    the AddSample calls of a stream (of a length a 64-bit int can count,
    all samples encodable), the store holds min(k, cap) slots — never more
    than [cap] —, GetSamples returns exactly min(k, cap) samples, and
    while [k <= cap] these are the [k] samples added, none lost. *)
Theorem reservoir_retention p o cap lk d b lk' d' r l ss :
  NewReservoirBuffer p o cap lk d = (inl b, lk', d') -> d !! p = None ->
  0 < cap -> Z.of_nat (length ss) <= MaxInt ->
  Forall (fun s => is_Some (enc s)) ss ->
  forall k, (k <= length ss)%nat ->
  exists st' store out,
    AddSamples enc (take k ss) {| buf := b; disk := d'; locks := lk'; rng := r; log := l |} = Ok tt st' /\
    disk st' !! p = Some store /\
    Z.of_nat (size store) = Z.min (Z.of_nat k) cap /\
    GetSamples dec seeks st' = Ok out (scanned seeks (S (length out)) st') /\
    Z.of_nat (length out) = Z.min (Z.of_nat k) cap /\
    (Z.of_nat k <= cap -> out ≡ₚ take k ss).
Proof.
  intros Hnew Hfree Hcap Hlen Henc k Hk.
  destruct (fresh_refines p o cap lk d b lk' d' r l Hnew Hfree ltac:(lia))
    as (Hdb & Hn & Hsz & Href).
  set (st0 := {| buf := b; disk := d'; locks := lk'; rng := r; log := l |}) in *.
  assert (length (take k ss) = k) as Hlk by (rewrite length_take; lia).
  destruct (AddSamples_refines (take k ss) st0 _ [] Href) as (st' & Hrun & Hres).
  { cbn. rewrite Hn, Hlk. lia. }
  { now apply Forall_take. }
  cbn zeta in Hres. cbn [buf st0 rng] in Hres.
  destruct Hres as (Href' & Hn' & _ & Hsz' & _).
  rewrite reservoir_count, Hn, Hlk in Hn'.
  set (slots := (fold_left (reservoir_step (maxSize b)) (take k ss) ([], n b, r)).1.1) in *.
  destruct Href' as (store & Hready & Hholds & _ & Hslots).
  rewrite Hn', Hsz', Hsz in Hslots. rewrite Z.add_0_l in Hslots.
  assert (Z.of_nat (length slots) < 2 ^ 64) as Hlt.
  { rewrite Hslots. unfold MaxInt in Hlen. lia. }
  destruct (GetSamples_eval st' _ store slots Hready Hholds Hlt)
    as (Hget & Hperm & _ & _ & Hout).
  exists st', store, (omap (fun e => dec e.2) (merge_sort entry_le (map_to_list store))).
  split; [done|]. split; [apply Hready|]. split; [|split; [|split]].
  - rewrite <- length_map_to_list, (holds_entries _ _ Hlt Hholds).
    unfold slot_entries. rewrite length_imap, Hslots. lia.
  - now rewrite (Permutation_length Hout).
  - rewrite Hout, Hslots. lia.
  - intros Hfit. rewrite Hout. unfold slots.
    rewrite reservoir_fill; [done|]. rewrite Hn, Hlk, Hsz. lia.
Qed.

(** C7, as amended: GetSamples returns one decoded sample per occupied
    slot, in the byte-lexicographic order of the varint keys of the slots;
    this is slot-index order when at most 256 slots are occupied (every
    index is below 256). *)
Theorem GetSamples_key_order st h store slots :
  ready st h store -> holds enc store slots -> Z.of_nat (length slots) < 2 ^ 64 ->
  exists es out,
    GetSamples dec seeks st = Ok out (scanned seeks (S (length slots)) st) /\
    es ≡ₚ slot_entries enc slots /\ Sorted entry_le es /\
    Forall2 (fun e s => dec e.2 = Some s) es out /\
    ((length slots <= 256)%nat -> out = slots).
Proof.
  intros Hready Hholds Hlt.
  destruct (GetSamples_eval st h store slots Hready Hholds Hlt)
    as (Hget & Hperm & Hsorted & Hvals & _).
  eexists _, _. split; [exact Hget|]. split; [done|]. split; [done|]. split; [done|].
  intros Hlen. rewrite (scan_slot_order _ _ Hholds Hlen).
  apply (slot_entries_decode store slots Hholds).
Qed.

End Roundtrip.

(** AddSample never reads the options of the buffer. *)
Lemma AddSample_opts_irrelevant s x st :
  AddSample enc s (set_buf (with_opts x) st) =
  map_state (set_buf (with_opts x)) (AddSample enc s st).
Proof.
  unfold AddSample, bind, Lock, defer. cbn.
  destruct (mx (buf st)); [reflexivity|]. cbn.
  unfold AddSample_body, bind, incr_n, get. cbn.
  destruct (Z.leb_spec (wrap_int (n (buf st) + 1)) (maxSize (buf st))).
  - unfold putSample. cbn. destruct (PutUvarint _); [|reflexivity].
    destruct (enc s); [|reflexivity]. destruct (db (buf st)); [|reflexivity].
    destruct (leveldb_Put _ _ _ _) as [[e|] d']; reflexivity.
  - unfold Intn. cbn. destruct (rand_Intn _ _) as [[m r']|]; [|reflexivity]. cbn.
    destruct (m <? maxSize (buf st)); [|reflexivity].
    unfold putSample. cbn. destruct (PutUvarint _); [|reflexivity].
    destruct (enc s); [|reflexivity]. destruct (db (buf st)); [|reflexivity].
    destruct (leveldb_Put _ _ _ _) as [[e|] d']; reflexivity.
Qed.

End ReservoirFacts.


(** ** Persisted metadata *)

Section Metadata.
Import ldbstore.

Lemma gob_merge_nil o : gob_merge None o = o.
Proof.
  destruct o as [m e other]. unfold gob_merge. cbn.
  now rewrite !orb_false_r, (right_id_L ∅ (∪)).
Qed.

Lemma gob_merge_fields recv o :
  ErrorIfExist (gob_merge recv o) =
    ErrorIfExist o || ErrorIfExist (default defaultOptions recv) /\
  (forall f z, OtherOptions o !! f = Some z -> OtherOptions (gob_merge recv o) !! f = Some z) /\
  (forall f, OtherOptions o !! f = None ->
     OtherOptions (gob_merge recv o) !! f = OtherOptions (default defaultOptions recv) !! f).
Proof.
  split; [reflexivity|]. split; intros f; cbn.
  - intros z Hz. now apply lookup_union_Some_l.
  - intros Hf. now apply lookup_union_r.
Qed.

(** [GobDecode] never creates a store, and an error leaves the handle of
    the receiver and the locks as they were. *)
Lemma GobDecode_total stream b0 lk d :
  (GobDecode stream b0 lk d).2 = d /\
  ((GobDecode stream b0 lk d).1.1.1 <> None ->
     db (GobDecode stream b0 lk d).1.1.2 = db b0 /\ (GobDecode stream b0 lk d).1.2 = lk).
Proof.
  unfold GobDecode.
  destruct (decodeString stream) as [[p r1]|e1]; [|cbn; done].
  destruct (decodeOptions r1) as [[o r2]|e2]; [|cbn; done].
  destruct (decodeInt r2) as [[size r3]|e3]; [|cbn; done].
  destruct (decodeInt r3) as [[cnt r4]|e4]; [|cbn; done].
  cbn. unfold leveldb_OpenFile. cbn.
  destruct (decide (p ∈ lk)); [cbn; done|].
  destruct (d !! p); [destruct (_ || _)|]; cbn; done.
Qed.

Lemma GobDecode_malformed stream b0 lk d :
  (forall p o size cnt rest,
     stream <> GobString p :: GobOptions o :: GobInt size :: GobInt cnt :: rest) ->
  (GobDecode stream b0 lk d).1.1.1 = Some ErrDecode.
Proof.
  intros Hbad. unfold GobDecode.
  destruct stream as [|[p| |] [|[| |o] [|[|size|] [|[|cnt|] rest]]]]; try reflexivity.
  now destruct (Hbad p o size cnt rest).
Qed.

(** C8, as amended: GobDecode restores the path, the capacity and the
    running count exactly as GobEncode serialized them.  The options come
    back as serialized, laid over those the receiver had (a field
    serialized at zero keeps the value of the receiver; a receiver
    without options, the one gob makes, gets the serialized ones), and
    with ErrorIfMissing forced to true.  The store at the path is reopened
    with these options: a store that is there, not held by an open handle
    and not refused by ErrorIfExist is opened and locked; a missing store
    is an error and no store is created; a store still held is an error.
    A stream that does not decode is an error as well, and an error
    leaves the receiver without a new handle and the locks as they were.
    On the restored buffer AddSample goes on as on the serialized one. *)
Theorem GobDecode_restores {Sample} (enc : Sample -> option bytes)
    (b b0 : ReservoirBuffer) (o : Options) (lk : Locks) (d : Disk) :
  opts b = Some o ->
  let stream := [GobString (path b); GobOptions o; GobInt (maxSize b); GobInt (n b)] in
  let o' := set_ErrorIfMissing true (gob_merge (opts b0) o) in
  let b' := {| path := path b; opts := Some o';
               maxSize := maxSize b; mx := mx b0; n := n b;
               db := Some {| db_path := path b; db_closed := false |} |} in
  GobEncode b = Ok (inl stream) tt /\
  (opts b0 = None -> o' = set_ErrorIfMissing true o) /\
  (ErrorIfExist o' = ErrorIfExist o || ErrorIfExist (default defaultOptions (opts b0)) /\
   (forall f z, OtherOptions o !! f = Some z -> OtherOptions o' !! f = Some z) /\
   (forall f, OtherOptions o !! f = None ->
      OtherOptions o' !! f = OtherOptions (default defaultOptions (opts b0)) !! f)) /\
  (is_Some (d !! path b) -> path b ∉ lk -> ErrorIfExist o' = false ->
     GobDecode stream b0 lk d = (None, b', {[path b]} ∪ lk, d)) /\
  (d !! path b = None -> path b ∉ lk ->
     exists b'', GobDecode stream b0 lk d = (Some ErrMissing, b'', lk, d) /\ db b'' = db b0) /\
  (path b ∈ lk ->
     exists b'', GobDecode stream b0 lk d = (Some ErrLocked, b'', lk, d) /\ db b'' = db b0) /\
  (is_Some (d !! path b) -> path b ∉ lk -> ErrorIfExist o' = true ->
     exists b'', GobDecode stream b0 lk d = (Some ErrExist, b'', lk, d) /\ db b'' = db b0) /\
  (forall any,
     (GobDecode any b0 lk d).2 = d /\
     ((GobDecode any b0 lk d).1.1.1 <> None ->
        db (GobDecode any b0 lk d).1.1.2 = db b0 /\ (GobDecode any b0 lk d).1.2 = lk)) /\
  (forall bad,
     (forall p o' size cnt rest,
        bad <> GobString p :: GobOptions o' :: GobInt size :: GobInt cnt :: rest) ->
     (GobDecode bad b0 lk d).1.1.1 = Some ErrDecode) /\
  (mx b = mx b0 -> db b = Some {| db_path := path b; db_closed := false |} ->
   forall s st, buf st = b ->
     AddSample enc s (set_buf (fun _ => b') st) =
     map_state (set_buf (with_opts (Some o'))) (AddSample enc s st)).
Proof.
  intros Ho stream o' b'.
  split; [|split; [|split; [|split; [|split; [|split; [|split; [|split; [|split]]]]]]]].
  - unfold GobEncode. now rewrite Ho.
  - intros Hnil. unfold o'. now rewrite Hnil, gob_merge_nil.
  - apply gob_merge_fields.
  - intros [store Hstore] Hfree Hexist. unfold GobDecode, stream. cbn.
    unfold leveldb_OpenFile. cbn. rewrite decide_False by done.
    rewrite Hstore. cbn in Hexist. now rewrite Hexist.
  - intros Hmiss Hfree. unfold GobDecode, stream. cbn.
    unfold leveldb_OpenFile. cbn. rewrite decide_False by done.
    rewrite Hmiss. eexists. split; reflexivity.
  - intros Hheld. unfold GobDecode, stream. cbn.
    unfold leveldb_OpenFile. cbn. rewrite decide_True by done.
    eexists. split; reflexivity.
  - intros [store Hstore] Hfree Hexist. unfold GobDecode, stream. cbn.
    unfold leveldb_OpenFile. cbn. rewrite decide_False by done.
    rewrite Hstore. cbn in Hexist. rewrite Hexist. eexists. split; reflexivity.
  - intros any. apply GobDecode_total.
  - intros bad. apply GobDecode_malformed.
  - intros Hmx Hdb s st Hbuf. rewrite <- AddSample_opts_irrelevant. f_equal.
    unfold set_buf. f_equal. unfold b', with_opts. rewrite Hbuf, <- Hmx, <- Hdb.
    reflexivity.
Qed.

End Metadata.

(** ** The reservoir buffer on sample data *)

Section ReservoirExamples.
Import ldbstore ldb_example.

Lemma encZ_roundtrip s v : encZ s = Some v -> decZ v = Some s.
Proof.
  intros [= <-]. cbn. f_equal. pose proof (Z.div_mod s 256). lia.
Qed.

Lemma fresh_ready cap : ready (fresh cap) {| db_path := "db"; db_closed := false |} ∅.
Proof. repeat split. Qed.

Lemma AddSample_reservoir_step_witness :
  ready (fresh 2) {| db_path := "db"; db_closed := false |} ∅ /\
  0 <= n (buf (fresh 2)) < MaxInt /\
  encZ 5 = Some [5; 0] /\
  exists st', AddSample encZ 5 (fresh 2) = Ok tt st' /\ n (buf st') = 1 /\
    log st' = [EvLock; EvSetN 1; EvPut (slot_key 0) [5; 0]; EvUnlock].
Proof.
  assert (0 <= n (buf (fresh 2)) < MaxInt) as Hn by (cbn; unfold MaxInt; lia).
  split; [apply fresh_ready|]. split; [exact Hn|]. split; [reflexivity|].
  destruct (AddSample_reservoir_step encZ 5 [5; 0] (fresh 2) _ ∅ (fresh_ready 2) Hn eq_refl)
    as (st' & Hrun & Hbuf & Hfill & _).
  exists st'. split; [exact Hrun|]. split; [now rewrite Hbuf|].
  apply Hfill. cbn. lia.
Defined.

Lemma reservoir_retention_witness :
  NewReservoirBuffer "db" None 2 ∅ ∅ =
    (inl (buf (fresh 2)), locks (fresh 2), disk (fresh 2)) /\
  (∅ : Disk) !! "db" = None /\ 0 < 2 /\
  Z.of_nat (length [10; 20; 30]) <= MaxInt /\
  Forall (fun s => is_Some (encZ s)) [10; 20; 30] /\
  (3 <= length [10; 20; 30])%nat /\
  exists st' out,
    AddSamples encZ [10; 20; 30] (fresh 2) = Ok tt st' /\
    GetSamples decZ one_each st' = Ok out (scanned one_each (S (length out)) st') /\
    Z.of_nat (length out) = 2.
Proof.
  assert (Forall (fun s => is_Some (encZ s)) [10; 20; 30]) as Henc.
  { repeat constructor; eexists; reflexivity. }
  assert (Z.of_nat (length [10; 20; 30]) <= MaxInt) as Hlen by (cbn; unfold MaxInt; lia).
  assert (NewReservoirBuffer "db" None 2 ∅ ∅ =
            (inl (buf (fresh 2)), locks (fresh 2), disk (fresh 2))) as Hnew
    by reflexivity.
  assert ((∅ : Disk) !! "db" = None) as Hfree by reflexivity.
  repeat (split; [first [exact Hnew | exact Hfree | exact Henc | exact Hlen | cbn; lia]|]).
  destruct (reservoir_retention encZ decZ one_each encZ_roundtrip "db" None 2 ∅ ∅
              (buf (fresh 2)) (locks (fresh 2)) (disk (fresh 2)) draws []
              [10; 20; 30] Hnew Hfree ltac:(lia) Hlen Henc 3%nat ltac:(cbn; lia))
    as (st' & store & out & Hrun & _ & _ & Hget & Hout & _).
  exists st', out. split; [exact Hrun|]. split; [exact Hget|]. exact Hout.
Defined.

(** The buffer after the samples 0 to 129 were added to a fresh one of
    capacity 200: slot [i] holds sample [i]. *)
Lemma filled_130 :
  exists st store,
    AddSamples encZ (seqZ 0 130) (fresh 200) = Ok tt st /\
    ready st {| db_path := "db"; db_closed := false |} store /\
    holds encZ store (seqZ 0 130).
Proof.
  assert (NewReservoirBuffer "db" None 200 ∅ ∅ =
            (inl (buf (fresh 200)), locks (fresh 200), disk (fresh 200))) as Hnew
    by reflexivity.
  destruct (fresh_refines encZ "db" None 200 ∅ ∅ (buf (fresh 200)) (locks (fresh 200))
              (disk (fresh 200)) draws [] Hnew eq_refl ltac:(lia))
    as (_ & _ & _ & Href).
  destruct (AddSamples_refines encZ (seqZ 0 130) _ _ [] Href) as (st & Hrun & Hres).
  { rewrite length_seqZ. cbn. unfold MaxInt. lia. }
  { apply Forall_forall. intros s _. eexists. reflexivity. }
  cbn zeta in Hres. destruct Hres as (Href' & _).
  rewrite reservoir_fill in Href' by (rewrite length_seqZ; cbn; lia).
  destruct Href' as (store & Hready & Hholds & _).
  exists st, store. split; [exact Hrun|]. split; [exact Hready|exact Hholds].
Defined.

Lemma GetSamples_key_order_witness :
  exists st store,
    AddSamples encZ (seqZ 0 130) (fresh 200) = Ok tt st /\
    ready st {| db_path := "db"; db_closed := false |} store /\
    holds encZ store (seqZ 0 130) /\
    Z.of_nat (length (seqZ 0 130)) < 2 ^ 64 /\
    slot_key 127 = [127] /\ slot_key 128 = [128; 1] /\ slot_key 129 = [129; 1] /\
    GetSamples decZ one_each st = Ok (seqZ 0 130) (scanned one_each 131 st).
Proof.
  destruct filled_130 as (st & store & Hrun & Hready & Hholds).
  assert (Z.of_nat (length (seqZ 0 130)) < 2 ^ 64) as Hlt by (rewrite length_seqZ; lia).
  exists st, store. split; [exact Hrun|]. split; [exact Hready|]. split; [exact Hholds|].
  split; [exact Hlt|]. split; [reflexivity|]. split; [reflexivity|]. split; [reflexivity|].
  destruct (GetSamples_key_order encZ decZ one_each encZ_roundtrip st _ store (seqZ 0 130)
              Hready Hholds Hlt) as (es & out & Hget & _ & _ & _ & Hout).
  rewrite Hget, Hout by (rewrite length_seqZ; lia). reflexivity.
Defined.

(** C7 as stated fails: after 257 samples on a fresh buffer of capacity
    300, slot [i] holding sample [i], GetSamples returns the sample of
    slot 256 between those of slots 128 and 129. *)
Lemma GetSamples_slot_order_fails :
  match AddSamples encZ (seqZ 0 257) (fresh 300) with
  | Ok _ st =>
      match GetSamples decZ one_each st with
      | Ok out _ =>
          default ∅ (disk st !! "db") !! slot_key 128 = encZ 128 /\
          default ∅ (disk st !! "db") !! slot_key 129 = encZ 129 /\
          default ∅ (disk st !! "db") !! slot_key 256 = encZ 256 /\
          out !! 128%nat = Some 128 /\ out !! 129%nat = Some 256 /\
          out !! 130%nat = Some 129 /\ out <> seqZ 0 257
      | Panic _ => False
      end
  | Panic _ => False
  end.
Proof.
  vm_compute. repeat split; try reflexivity. intros H. discriminate H.
Qed.

Lemma GobDecode_restores_witness :
  opts saved = Some defaultOptions /\
  is_Some (empty_db !! path saved) /\ (path saved ∉ no_locks) /\
  ErrorIfExist (set_ErrorIfMissing true (gob_merge (opts tuned) defaultOptions)) = false /\
  GobDecode [GobString "db"; GobOptions defaultOptions; GobInt 4; GobInt 9] tuned
            no_locks empty_db =
    (None,
     {| path := "db";
        opts := Some {| ErrorIfMissing := true; ErrorIfExist := false;
                        OtherOptions := {["WriteBuffer" := 8]} |};
        maxSize := 4; mx := false; n := 9;
        db := Some {| db_path := "db"; db_closed := false |} |},
     {["db"]}, empty_db) /\
  GobDecode [GobString "db"; GobOptions defaultOptions; GobInt 4; GobInt 9] zero
            no_locks empty_db =
    (None,
     {| path := "db"; opts := Some (set_ErrorIfMissing true defaultOptions);
        maxSize := 4; mx := false; n := 9;
        db := Some {| db_path := "db"; db_closed := false |} |},
     {["db"]}, empty_db).
Proof.
  assert (is_Some (empty_db !! path saved)) as Hthere by (eexists; reflexivity).
  assert (path saved ∉ no_locks) as Hfree by apply not_elem_of_empty.
  split; [reflexivity|]. split; [exact Hthere|]. split; [exact Hfree|].
  split; [reflexivity|]. split.
  - destruct (GobDecode_restores encZ saved tuned defaultOptions no_locks empty_db eq_refl)
      as (_ & _ & _ & Hok & _).
    exact (Hok Hthere Hfree eq_refl).
  - destruct (GobDecode_restores encZ saved zero defaultOptions no_locks empty_db eq_refl)
      as (_ & _ & _ & Hok & _).
    exact (Hok Hthere Hfree eq_refl).
Defined.

(** C8 as stated fails: options serialized with ErrorIfMissing off come
    back with it on. *)
Lemma GobDecode_changes_options :
  exists stream b',
    GobEncode saved = Ok (inl stream) tt /\
    GobDecode stream zero no_locks empty_db = (None, b', {["db"]}, empty_db) /\
    path b' = path saved /\ maxSize b' = maxSize saved /\ n b' = n saved /\
    opts b' <> opts saved.
Proof.
  eexists _, _. split; [reflexivity|]. split; [reflexivity|].
  cbn. repeat split. discriminate.
Qed.

End ReservoirExamples.

(** ** The monad *)

Lemma bind_Ok {S A B} (m : M S A) (f : A -> M S B) s b s' :
  bind m f s = Ok b s' <-> exists a s1, m s = Ok a s1 /\ f a s1 = Ok b s'.
Proof.
  unfold bind. destruct (m s) as [a s1|s1]; split.
  - eauto.
  - now intros (a' & s1' & [= <- <-] & Hf).
  - discriminate.
  - now intros (a' & s1' & [=] & _).
Qed.

Lemma post_Ok {S A} (m : M S A) s Q a s' : post m s Q -> m s = Ok a s' -> Q a s'.
Proof. unfold post. intros H E. now rewrite E in H. Qed.

Lemma post_intro {S A} (m : M S A) s (Q : A -> S -> Prop) :
  (forall a s', m s = Ok a s' -> Q a s') -> post m s Q.
Proof. unfold post. destruct (m s); eauto. Qed.

Lemma post_ret {S A} (a : A) (s : S) (Q : A -> S -> Prop) : Q a s -> post (ret a) s Q.
Proof. done. Qed.

Lemma post_panic {S A} (s : S) (Q : A -> S -> Prop) : post panic s Q.
Proof. done. Qed.

Lemma post_bind {S A B} (m : M S A) (f : A -> M S B) s (Q : B -> S -> Prop) :
  post m s (fun a s1 => post (f a) s1 Q) -> post (bind m f) s Q.
Proof. unfold post, bind. now destruct (m s). Qed.

Lemma post_mono {S A} (m : M S A) s (Q Q' : A -> S -> Prop) :
  post m s Q -> (forall a s', Q a s' -> Q' a s') -> post m s Q'.
Proof. unfold post. destruct (m s); eauto. Qed.

Lemma post_get {S} (s : S) (Q : S -> S -> Prop) : Q s s -> post get s Q.
Proof. done. Qed.

Lemma post_modify {S} (f : S -> S) (s : S) (Q : unit -> S -> Prop) :
  Q tt (f s) -> post (modify f) s Q.
Proof. done. Qed.

(** ** Game trees *)

Section Trees.
Import cfr.

(** Induction on a tree, the property assumed of every child. *)
Lemma GameTreeNode_ind (Q : GameTreeNode -> Prop) :
  (forall l ty pl key u children,
     Forall Q children -> Q (MkNode l ty pl key u children)) ->
  forall node, Q node.
Proof.
  intros Hnode. fix IH 1. intros [l ty pl key u children].
  apply Hnode. induction children as [|child children IHc]; constructor.
  - apply IH.
  - apply IHc.
Qed.

Lemma index_Some {A} (l : list A) i x :
  index l i = Some x <-> 0 <= i /\ l !! Z.to_nat i = Some x.
Proof.
  unfold index. destruct (Z.ltb_spec i 0); split.
  - discriminate.
  - intros [? _]. lia.
  - intros ?. split; [lia|done].
  - now intros [_ ?].
Qed.

Lemma index_map {A B} (f : A -> B) (l : list A) i :
  index (map f l) i = f <$> index l i.
Proof.
  unfold index. destruct (i <? 0); [done|]. apply (list_lookup_fmap f l).
Qed.

Lemma index_lt {A} (l : list A) i x : index l i = Some x -> 0 <= i < Z.of_nat (length l).
Proof.
  intros [Hi Hx]%index_Some. apply lookup_lt_Some in Hx. lia.
Qed.

End Trees.

(** ** The policy table *)

Section PolicyTableFacts.
Import f32 cfr.

Lemma NumActions_New n : NumActions (policy_New n) = n.
Proof. reflexivity. Qed.

(** C3: GetPolicy on a node whose infoset key is absent creates a Policy
    sized to the node's child count and stores it under the key; on a
    key whose stored policy has another action count it panics; so the
    same key requested with two different child counts in two calls
    always meets the panic, in the first call or else in the second. *)
Theorem GetPolicy_action_count node pt :
  let key := Key node (Player node) in
  (policiesByKey pt !! key = None ->
     exists pt',
       GetPolicy node pt = Ok key pt' /\
       policiesByKey pt' = <[key := policy_New (NumChildren node)]> (policiesByKey pt) /\
       NumActions (policy_New (NumChildren node)) = NumChildren node) /\
  (forall np, policiesByKey pt !! key = Some np ->
     NumActions np <> NumChildren node -> GetPolicy node pt = Panic pt) /\
  (forall np, policiesByKey pt !! key = Some np ->
     NumActions np = NumChildren node ->
     exists pt', GetPolicy node pt = Ok key pt' /\ policiesByKey pt' = policiesByKey pt) /\
  (forall node2, Key node2 (Player node2) = key ->
     NumChildren node2 <> NumChildren node ->
     match GetPolicy node pt with
     | Ok _ pt' => GetPolicy node2 pt' = Panic pt'
     | Panic _ => True
     end).
Proof.
  intros key. split; [|split; [|split]].
  - intros Habsent. unfold GetPolicy. fold key. rewrite Habsent. cbn.
    destruct (decide _) as [Hne|_]; [now destruct Hne|].
    eexists. split; [reflexivity|]. split; reflexivity.
  - intros np Hnp Hne. unfold GetPolicy. fold key. rewrite Hnp. cbn.
    destruct (decide _) as [_|Heq]; [reflexivity|]. now destruct Heq.
  - intros np Hnp Heq. unfold GetPolicy. fold key. rewrite Hnp. cbn.
    destruct (decide _) as [Hne|_]; [now destruct Hne|].
    eexists. split; reflexivity.
  - intros node2 Hkey Hne.
    assert (forall pt' np, policiesByKey pt' !! key = Some np ->
              NumActions np = NumChildren node -> GetPolicy node2 pt' = Panic pt') as Hsecond.
    { intros pt' np Hnp Heq. unfold GetPolicy. rewrite Hkey, Hnp. cbn.
      destruct (decide _) as [_|Heq']; [reflexivity|]. destruct Heq'. congruence. }
    unfold GetPolicy at 1. fold key.
    destruct (policiesByKey pt !! key) as [np|] eqn:Hnp; cbn.
    + destruct (decide _) as [_|Heq]; [done|].
      apply (Hsecond _ np); [done|]. now apply dec_stable.
    + destruct (decide _) as [Hne'|_]; [now destruct Hne'|].
      apply (Hsecond _ (policy_New (NumChildren node))); [|done].
      cbn. apply lookup_insert_eq.
Qed.

Lemma Update_iter pt : iter (Update pt) = wrap_int (iter pt + 1).
Proof. unfold Update. now destruct (params pt (iter pt)) as [[? ?] ?]. Qed.

End PolicyTableFacts.

(** ** The worlds of a traversal *)

Section WorldFacts.
Import f32 cfr.
Context {P : Type}.

Lemma post_emit e (w : World P) (Q : unit -> World P -> Prop) :
  Q tt {| profile := profile w; pool := pool w; rng := rng w; trace := trace w ++ [e] |} ->
  post (emit e) w Q.
Proof. done. Qed.

Lemma post_in_profile {A} (m : M P A) (w : World P) (Q : A -> World P -> Prop) :
  (forall a p', m (profile w) = Ok a p' ->
     Q a {| profile := p'; pool := pool w; rng := rng w; trace := trace w |}) ->
  post (in_profile m) w Q.
Proof. intros H. unfold post, in_profile. destruct (m (profile w)); eauto. Qed.

Lemma post_Intn bound (w : World P) (Q : Z -> World P -> Prop) :
  (forall m r', rand_Intn bound (rng w) = Some (m, r') ->
     Q m {| profile := profile w; pool := pool w; rng := r'; trace := trace w |}) ->
  post (Intn bound) w Q.
Proof.
  intros H. unfold post, Intn. destruct (rand_Intn bound (rng w)) as [[m r']|]; eauto.
Qed.

Lemma post_Float32 (w : World P) (Q : float32 -> World P -> Prop) :
  (forall x r', Q x {| profile := profile w; pool := pool w; rng := r'; trace := trace w |}) ->
  post Float32 w Q.
Proof. intros H. unfold post, Float32. cbn. apply H. Qed.

Lemma post_alloc n (w : World P) (Q : list float32 -> World P -> Prop) :
  (forall x pool', Q x {| profile := profile w; pool := pool'; rng := rng w; trace := trace w |}) ->
  post (alloc n) w Q.
Proof.
  intros H. unfold post, alloc. destruct w as [pf [|b rest] r t]; cbn; apply H.
Qed.

Lemma post_with_slice {S A} (m : M S A) (sx : S * list float32) Q :
  post m sx.1 (fun a s' => Q a (s', sx.2)) -> post (with_slice m) sx Q.
Proof. unfold post, with_slice. now destruct (m sx.1). Qed.

Lemma post_slice_set {S} i v (sx : S * list float32) (Q : unit -> S * list float32 -> Prop) :
  (0 <= i < Z.of_nat (length sx.2) -> Q tt (sx.1, <[Z.to_nat i := v]> sx.2)) ->
  post (slice_set i v) sx Q.
Proof. intros H. unfold post, slice_set. destruct (decide _); eauto. Qed.

End WorldFacts.

(** ** Robust sampling: the steps of a traversal *)

Section RobustSteps.
Import f32 cfr RobustSampling.

Lemma runHelper_unfold c node :
  runHelper c node = runHelper_body c node (map (runHelper c) (Children node)).
Proof. now destruct node. Qed.

Lemma post_world {A} (m : M (World PolicyTable) A) (st : St) Q :
  post m st.1 (fun a w' => Q a (w', st.2)) -> post (world m) st Q.
Proof. unfold post, world. now destruct (m st.1). Qed.

Lemma post_slice_scope {A} x (m : M (St * list float32) A) (st : St) Q :
  post m (st, x) (fun a sx' => Q a (free sx'.2 sx'.1.1, sx'.1.2)) ->
  post (slice_scope x m) st Q.
Proof. unfold post, slice_scope. now destruct (m (st, x)) as [a [st' x']|[st' x']]. Qed.

Lemma post_GetChild {S S'} (kids : list (evaluator S)) i (s : S')
    (Q : evaluator S -> S' -> Prop) :
  (forall child, index kids i = Some child -> Q child s) -> post (GetChild kids i) s Q.
Proof. intros H. unfold GetChild. destruct (index kids i); [now apply H|done]. Qed.

(** A swap permutes. *)
Lemma swap_Permutation l i j : swap l i j ≡ₚ l.
Proof.
  unfold swap. destruct (l !! i) as [x|] eqn:Hx; [|done].
  destruct (l !! j) as [y|] eqn:Hy; [|done].
  apply Permutation_inj. split; [now rewrite !length_insert|].
  exists (fun a => if decide (a = j) then i else if decide (a = i) then j else a). split.
  - intros a b. repeat case_decide; congruence.
  - intros a. pose proof (lookup_lt_Some _ _ _ Hx). pose proof (lookup_lt_Some _ _ _ Hy).
    destruct (decide (a = j)) as [->|].
    + rewrite list_lookup_insert_eq by (rewrite length_insert; lia). done.
    + rewrite list_lookup_insert_ne by done.
      destruct (decide (a = i)) as [->|].
      * now rewrite list_lookup_insert_eq.
      * now rewrite list_lookup_insert_ne.
Qed.

(** The shuffle returns, with a permutation, and touches the random
    source only. *)
Lemma shuffle_loop_spec i : forall l (w : World PolicyTable),
  exists l' r',
    shuffle_loop i l w =
      Ok l' {| profile := profile w; pool := pool w; rng := r'; trace := trace w |} /\
    l' ≡ₚ l.
Proof.
  induction i as [|i IH]; intros l w.
  - exists l, (rng w). split; [now destruct w|done].
  - cbn [shuffle_loop]. unfold bind, Intn.
    rewrite rand_Intn_pos by lia. cbn.
    destruct (IH (swap l (S i) (Z.to_nat (raw (rng w) (cursor (rng w)) mod (Z.of_nat (S i) + 1))))
                {| profile := profile w; pool := pool w; rng := (rand_next (rng w)).2;
                   trace := trace w |}) as (l' & r' & Hrun & Hperm).
    exists l', r'. split; [exact Hrun|]. now rewrite Hperm, swap_Permutation.
Qed.

(** The selection: with [0 <= k] it returns min(k, n) distinct indices of
    children; with [k < 0 < n] it panics. *)
Lemma select_actions_spec c n (st : St) :
  0 <= n ->
  (0 <= k c ->
   exists sel r',
     select_actions c n st =
       Ok sel ({| profile := profile st.1; pool := pool st.1; rng := r';
                  trace := trace st.1 |}, st.2) /\
     Z.of_nat (length sel) = Z.min (k c) n /\ NoDup sel /\
     (forall i, i ∈ sel -> 0 <= i < n)) /\
  (k c < 0 -> 0 < n -> exists st', select_actions c n st = Panic st').
Proof.
  intros Hn. unfold select_actions, arange. rewrite length_seqZ, Z2Nat.id by lia.
  destruct (shuffle_loop_spec (length (seqZ 0 n) - 1) (seqZ 0 n) st.1)
    as (l' & r' & Hrun & Hperm).
  split.
  - intros Hk. destruct (Z.ltb_spec (k c) n) as [Hlt|Hge].
    + exists (take (Z.to_nat (k c)) l'), r'. split; [|split; [|split]].
      * unfold bind, world, Shuffle. rewrite Hrun.
        destruct (Z.ltb_spec (k c) 0); [lia|]. reflexivity.
      * rewrite length_take, Hperm, length_seqZ. lia.
      * eapply sublist_NoDup; [|apply sublist_take]. rewrite Hperm. apply NoDup_seqZ.
      * intros i Hi%subseteq_take. rewrite Hperm in Hi. apply elem_of_seqZ in Hi. lia.
    + exists (seqZ 0 n), (rng st.1). split; [|split; [|split]].
      * destruct st as [[pf pl r t] cache]. reflexivity.
      * rewrite length_seqZ. lia.
      * apply NoDup_seqZ.
      * intros i Hi%elem_of_seqZ. lia.
  - intros Hk Hpos. destruct (Z.ltb_spec (k c) n); [|lia].
    unfold bind, world, Shuffle. rewrite Hrun.
    destruct (Z.ltb_spec (k c) 0); [|lia]. eexists. reflexivity.
Qed.

(** ** The shuffle, draw by draw *)

Lemma swap_lookup_high l i j p :
  (j <= i)%nat -> (i < p)%nat -> swap l i j !! p = l !! p.
Proof.
  intros Hj Hp. unfold swap.
  destruct (l !! i) as [x|]; [|done]. destruct (l !! j) as [y|]; [|done].
  rewrite !list_lookup_insert_ne by lia. done.
Qed.

Lemma swap_lookup_top l i j :
  (i < length l)%nat -> (j <= i)%nat -> swap l i j !! i = l !! j.
Proof.
  intros Hi Hj. unfold swap.
  destruct (lookup_lt_is_Some_2 l i Hi) as [x Hx].
  destruct (lookup_lt_is_Some_2 l j ltac:(lia)) as [y Hy].
  rewrite Hx, Hy. destruct (decide (i = j)) as [->|Hne].
  - rewrite list_lookup_insert_eq by (rewrite length_insert; lia). congruence.
  - rewrite list_lookup_insert_ne by lia.
    now rewrite list_lookup_insert_eq by lia.
Qed.

Lemma swap_length l i j : length (swap l i j) = length l.
Proof.
  unfold swap. destruct (l !! i); [|done]. destruct (l !! j); [|done].
  now rewrite !length_insert.
Qed.

Lemma shuffle_loop_step i l (w : World PolicyTable) :
  shuffle_loop (S i) l w =
  shuffle_loop i (swap l (S i) (Z.to_nat (raw (rng w) (cursor (rng w)) mod (Z.of_nat (S i) + 1))))
    {| profile := profile w; pool := pool w; rng := (rand_next (rng w)).2; trace := trace w |}.
Proof.
  cbn [shuffle_loop]. unfold bind, Intn. rewrite rand_Intn_pos by lia. reflexivity.
Qed.

Lemma shuffle_loop_draws i : forall l (w1 w2 : World PolicyTable) l1 l2 w1' w2',
  NoDup l -> (i < length l)%nat ->
  shuffle_loop i l w1 = Ok l1 w1' -> shuffle_loop i l w2 = Ok l2 w2' ->
  (forall p, (i < p)%nat -> l1 !! p = l !! p) /\
  cursor (rng w1') = (cursor (rng w1) + i)%nat /\
  (l1 = l2 <->
   forall t, (t < i)%nat ->
     raw (rng w1) (cursor (rng w1) + t)%nat mod (Z.of_nat i - Z.of_nat t + 1) =
     raw (rng w2) (cursor (rng w2) + t)%nat mod (Z.of_nat i - Z.of_nat t + 1)).
Proof.
  induction i as [|i IH]; intros l w1 w2 l1 l2 w1' w2' Hnd Hlen.
  - cbn. intros [= <- <-] [= <- <-]. split; [done|]. split; [lia|]. split; [intros _ t; lia|done].
  - rewrite !shuffle_loop_step.
    set (j1 := raw (rng w1) (cursor (rng w1)) mod (Z.of_nat (S i) + 1)).
    set (j2 := raw (rng w2) (cursor (rng w2)) mod (Z.of_nat (S i) + 1)).
    assert (0 <= j1 < Z.of_nat (S i) + 1) as Hj1 by (apply Z.mod_pos_bound; lia).
    assert (0 <= j2 < Z.of_nat (S i) + 1) as Hj2 by (apply Z.mod_pos_bound; lia).
    intros Hrun1 Hrun2.
    assert (NoDup (swap l (S i) (Z.to_nat j1))) as Hnd1 by now rewrite swap_Permutation.
    pose proof (IH _ _ _ _ _ _ _ Hnd1 ltac:(rewrite swap_length; lia) Hrun1 Hrun1)
      as (Hhigh1 & Hcur1 & _).
    assert (NoDup (swap l (S i) (Z.to_nat j2))) as Hnd2 by now rewrite swap_Permutation.
    pose proof (IH _ _ _ _ _ _ _ Hnd2 ltac:(rewrite swap_length; lia) Hrun2 Hrun2)
      as (Hhigh2 & _ & _).
    split; [|split].
    + intros p Hp. rewrite Hhigh1 by lia. apply swap_lookup_high; lia.
    + rewrite Hcur1. cbn. lia.
    + assert (l1 !! S i = l !! Z.to_nat j1) as Htop1.
      { rewrite Hhigh1 by lia. apply swap_lookup_top; lia. }
      assert (l2 !! S i = l !! Z.to_nat j2) as Htop2.
      { rewrite Hhigh2 by lia. apply swap_lookup_top; lia. }
      assert (forall t, (t < i)%nat ->
                (raw (rng w1) (cursor (rng w1) + S t)%nat mod
                   (Z.of_nat (S i) - Z.of_nat (S t) + 1) =
                 raw (rng w2) (cursor (rng w2) + S t)%nat mod
                   (Z.of_nat (S i) - Z.of_nat (S t) + 1)) <->
                (raw (rng w1) (S (cursor (rng w1)) + t)%nat mod
                   (Z.of_nat i - Z.of_nat t + 1) =
                 raw (rng w2) (S (cursor (rng w2)) + t)%nat mod
                   (Z.of_nat i - Z.of_nat t + 1))) as Hshift.
      { intros t Ht.
        replace (cursor (rng w1) + S t)%nat with (S (cursor (rng w1)) + t)%nat by lia.
        replace (cursor (rng w2) + S t)%nat with (S (cursor (rng w2)) + t)%nat by lia.
        replace (Z.of_nat (S i) - Z.of_nat (S t) + 1) with (Z.of_nat i - Z.of_nat t + 1) by lia.
        done. }
      split.
      * intros <-. rewrite Htop1 in Htop2.
        assert (Z.to_nat j1 = Z.to_nat j2) as Ej.
        { destruct (lookup_lt_is_Some_2 l (Z.to_nat j1) ltac:(lia)) as [x Hx].
          rewrite Hx in Htop2. symmetry in Htop2.
          apply (NoDup_lookup l _ _ x); done. }
        rewrite <- Ej in Hrun2.
        pose proof (IH _ _ _ _ _ _ _ Hnd1 ltac:(rewrite swap_length; lia) Hrun1 Hrun2)
          as (_ & _ & Hiff).
        intros [|t] Ht.
        -- rewrite !Nat.add_0_r. replace (Z.of_nat (S i) - Z.of_nat 0 + 1)
             with (Z.of_nat (S i) + 1) by lia. fold j1 j2. lia.
        -- apply Hshift; [lia|]. apply (proj1 Hiff eq_refl). lia.
      * intros Hdraws.
        assert (j1 = j2) as Ej.
        { specialize (Hdraws 0%nat ltac:(lia)). rewrite !Nat.add_0_r in Hdraws.
          replace (Z.of_nat (S i) - Z.of_nat 0 + 1) with (Z.of_nat (S i) + 1) in Hdraws by lia.
          exact Hdraws. }
        rewrite <- Ej in Hrun2.
        pose proof (IH _ _ _ _ _ _ _ Hnd1 ltac:(rewrite swap_length; lia) Hrun1 Hrun2)
          as (_ & _ & Hiff).
        apply Hiff. intros t Ht. apply Hshift; [done|]. apply Hdraws. lia.
Qed.

(** The shuffle takes one value of the source for each position but
    the first, and touches nothing else. *)
Lemma shuffle_loop_rng i : forall l (w : World PolicyTable) l' w',
  shuffle_loop i l w = Ok l' w' ->
  w' = {| profile := profile w; pool := pool w; rng := rand_skip i (rng w);
          trace := trace w |}.
Proof.
  induction i as [|i IH]; intros l w l' w'.
  - cbn. intros [= _ <-]. destruct w as [pf pl [rw cu] t]. unfold rand_skip. cbn.
    now rewrite Nat.add_0_r.
  - rewrite shuffle_loop_step. intros Hrun. apply IH in Hrun as ->. cbn.
    unfold rand_skip. cbn. do 2 f_equal. lia.
Qed.

Lemma shuffle_loop_onto i : forall l target,
  NoDup l -> (i < length l)%nat -> target ≡ₚ l ->
  (forall p, (i < p)%nat -> target !! p = l !! p) ->
  exists f : nat -> Z,
    forall w : World PolicyTable,
      (forall t, (t < i)%nat -> raw (rng w) (cursor (rng w) + t)%nat = f t) ->
      exists w', shuffle_loop i l w = Ok target w'.
Proof.
  induction i as [|i IH]; intros l target Hnd Hlen Hperm Hhigh.
  - exists (fun _ => 0). intros w _. exists w. cbn. unfold ret. f_equal.
    assert (NoDup target) as Hndt by now rewrite Hperm.
    symmetry. apply list_eq. intros [|p]; [|apply Hhigh; lia].
    destruct (lookup_lt_is_Some_2 target 0) as [x Hx].
    { rewrite (Permutation_length Hperm). lia. }
    assert (x ∈ l) as Hin.
    { rewrite <- Hperm. eapply list_elem_of_lookup_2, Hx. }
    apply list_elem_of_lookup_1 in Hin as [q Hq].
    destruct q as [|q]; [congruence|].
    rewrite <- Hhigh in Hq by lia.
    pose proof (NoDup_lookup _ _ _ _ Hndt Hx Hq). lia.
  - assert (NoDup target) as Hndt by now rewrite Hperm.
    destruct (lookup_lt_is_Some_2 target (S i)) as [e He].
    { rewrite (Permutation_length Hperm). lia. }
    assert (e ∈ l) as Hin.
    { rewrite <- Hperm. eapply list_elem_of_lookup_2, He. }
    apply list_elem_of_lookup_1 in Hin as [j Hj].
    assert (j <= S i)%nat as Hle.
    { destruct (decide (j <= S i)%nat) as [|Hgt]; [done|].
      rewrite <- Hhigh in Hj by lia.
      pose proof (NoDup_lookup _ _ _ _ Hndt He Hj). lia. }
    destruct (IH (swap l (S i) j) target) as [f' Hf'].
    + now rewrite swap_Permutation.
    + rewrite swap_length. lia.
    + now rewrite swap_Permutation.
    + intros p Hp. destruct (decide (p = S i)) as [->|Hne].
      * rewrite swap_lookup_top by lia. congruence.
      * rewrite swap_lookup_high by lia. apply Hhigh. lia.
    + exists (fun t => match t with O => Z.of_nat j | S t' => f' t' end).
      intros w Hw. rewrite shuffle_loop_step.
      pose proof (Hw 0%nat ltac:(lia)) as H0. rewrite Nat.add_0_r in H0. rewrite H0.
      rewrite Z.mod_small by lia. rewrite Nat2Z.id.
      apply Hf'. intros t Ht. cbn.
      specialize (Hw (S t) ltac:(lia)). cbn in Hw.
      now replace (cursor (rng w) + S t)%nat with (S (cursor (rng w) + t)) in Hw by lia.
Qed.

Lemma Shuffle_onto l target (w : World PolicyTable) :
  NoDup l -> target ≡ₚ l ->
  exists r w', Shuffle l {| profile := profile w; pool := pool w; rng := r; trace := trace w |} =
               Ok target w'.
Proof.
  intros Hnd Hperm. unfold Shuffle. destruct l as [|a l'].
  - apply Permutation_nil_r in Hperm as ->. exists (rng w). eexists. reflexivity.
  - destruct (shuffle_loop_onto (length (a :: l') - 1) (a :: l') target Hnd) as [f Hf].
    + cbn [length]. lia.
    + done.
    + intros p Hp. rewrite !lookup_ge_None_2; [done|cbn [length] in *; lia|].
      rewrite (Permutation_length Hperm). cbn [length] in *. lia.
    + exists {| raw := f; cursor := 0 |}.
      apply Hf. intros t Ht. reflexivity.
Qed.

(** A shuffle against another from the same list: the orders agree
    exactly when the draws do. *)
Lemma Shuffle_eval l (w1 w2 : World PolicyTable) l1 l2 w1' w2' :
  NoDup l -> Shuffle l w1 = Ok l1 w1' -> Shuffle l w2 = Ok l2 w2' ->
  l1 ≡ₚ l /\
  cursor (rng w1') = (cursor (rng w1) + (length l - 1))%nat /\
  (l1 = l2 <->
   forall t, (S t < length l)%nat ->
     raw (rng w1) (cursor (rng w1) + t)%nat mod (Z.of_nat (length l) - Z.of_nat t) =
     raw (rng w2) (cursor (rng w2) + t)%nat mod (Z.of_nat (length l) - Z.of_nat t)).
Proof.
  intros Hnd Hrun1 Hrun2. unfold Shuffle in *.
  destruct (shuffle_loop_spec (length l - 1) l w1) as (l1' & r1 & Hspec & Hperm).
  rewrite Hrun1 in Hspec. injection Hspec as -> _.
  split; [exact Hperm|].
  destruct l as [|a l'].
  - cbn in *. injection Hrun1 as <- <-. injection Hrun2 as <- <-.
    split; [lia|]. split; [intros _ t; lia|done].
  - assert (length (a :: l') - 1 < length (a :: l'))%nat as Hlt by (cbn [length]; lia).
    destruct (shuffle_loop_draws _ _ _ _ _ _ _ _ Hnd Hlt Hrun1 Hrun2)
      as (_ & Hcur & Hiff).
    split; [exact Hcur|]. rewrite Hiff. cbn [length].
    split; intros Hd t Ht.
    + specialize (Hd t ltac:(lia)).
      replace (Z.of_nat (S (length l')) - Z.of_nat t)
        with (Z.of_nat (S (length l') - 1) - Z.of_nat t + 1) by lia. exact Hd.
    + specialize (Hd t ltac:(lia)).
      replace (Z.of_nat (S (length l') - 1) - Z.of_nat t + 1)
        with (Z.of_nat (S (length l')) - Z.of_nat t) by lia. exact Hd.
Qed.

(** What the selection returns: all the actions, undrawn, when [k] is
    at least their number, the first [k] of their shuffle otherwise. *)
Lemma select_actions_eval c n (st : St) :
  0 <= n -> 0 <= k c ->
  exists sel r3,
    select_actions c n st =
      Ok sel ({| profile := profile st.1; pool := pool st.1; rng := r3;
                 trace := trace st.1 |}, st.2) /\
    (n <= k c -> sel = arange n /\ r3 = rng st.1) /\
    (k c < n ->
       exists shuffled,
         Shuffle (arange n) st.1 =
           Ok shuffled {| profile := profile st.1; pool := pool st.1; rng := r3;
                          trace := trace st.1 |} /\
         sel = take (Z.to_nat (k c)) shuffled /\
         r3 = rand_skip (Z.to_nat n - 1) (rng st.1)).
Proof.
  intros Hn Hk. unfold select_actions.
  assert (length (arange n) = Z.to_nat n) as Hlen by apply length_seqZ.
  rewrite Hlen, Z2Nat.id by lia.
  destruct (Z.ltb_spec (k c) n) as [Hlt|Hge].
  - destruct (shuffle_loop_spec (length (arange n) - 1) (arange n) st.1)
      as (l' & r' & Hrun & _).
    pose proof (shuffle_loop_rng _ _ _ _ _ Hrun) as Hw. injection Hw as ->.
    eexists _, _. split; [|split; [lia|]].
    + unfold bind, world, Shuffle. rewrite Hrun.
      destruct (Z.ltb_spec (k c) 0); [lia|]. reflexivity.
    + intros _. exists l'. split; [|split; [done|]].
      * unfold Shuffle. exact Hrun.
      * now rewrite Hlen.
  - exists (arange n), (rng st.1). split; [|split; [done|lia]].
    destruct st as [[pf pl r t] cache]. reflexivity.
Qed.

End RobustSteps.

(** ** Robust sampling: the trace of a traversal *)

Section RobustTrace.
Import f32 cfr RobustSampling traces.

Abbreviation tr := (fun st : St => trace st.1).
Abbreviation trx := (fun sx : St * list float32 => trace sx.1.1).

Lemma silent_bind {S A B} (tr' : S -> list event) (m : M S A) (f : A -> M S B)
    s (Q : B -> S -> Prop) :
  silent tr' m -> (forall a s1, tr' s1 = tr' s -> post (f a) s1 Q) -> post (bind m f) s Q.
Proof.
  intros Hm Hf. apply post_bind. eapply post_mono; [apply Hm|]. cbn. eauto.
Qed.

Lemma silent_in_profile {A} (m : M PolicyTable A) : silent tr (world (in_profile m)).
Proof. intros st. apply post_world, post_in_profile. done. Qed.

Lemma silent_Intn bound : silent tr (world (Intn bound)).
Proof. intros st. apply post_world, post_Intn. done. Qed.

Lemma silent_sampleOne pv : silent tr (world (sampleOne pv)).
Proof. intros st. apply post_world, post_bind, post_Float32. done. Qed.

Lemma silent_alloc n : silent tr (world (alloc n)).
Proof. intros st. apply post_world, post_alloc. done. Qed.

Lemma silent_select c n : silent tr (select_actions c n).
Proof.
  intros st. unfold select_actions.
  destruct (k c <? _); [|done].
  destruct (shuffle_loop_spec (length (arange n) - 1) (arange n) st.1)
    as (l' & r' & Hrun & _).
  unfold post, bind, world, Shuffle. rewrite Hrun. now destruct (k c <? 0).
Qed.

Lemma kids_traced_map c node :
  Forall (fun child => traced tr child (runHelper c child)) (Children node) ->
  kids_traced tr (Children node) (map (runHelper c) (Children node)).
Proof.
  intros Hall i ev. rewrite index_map.
  destruct (index (Children node) i) as [child|] eqn:Hchild; [|done].
  intros [= <-]. exists child. split; [done|].
  rewrite Forall_forall in Hall. apply Hall.
  apply index_Some in Hchild as [_ Hchild]. eapply list_elem_of_lookup_2, Hchild.
Qed.

Section Handlers.
Variable c : RobustSamplingCFR.
Variable node : GameTreeNode.
Variable kids : list (evaluator St).
Hypothesis Hkids : kids_traced tr (Children node) kids.

(** One child is evaluated. *)
Lemma one_child_trace i lp sp tp (st0 st : St) :
  tr st = tr st0 ->
  post (child <- GetChild kids i ;; child lp sp tp)%go st
    (fun _ st' => exists idx t, NoDup idx /\
       nested_children (Children node) idx t /\ tr st' = tr st0 ++ t).
Proof.
  intros Hst. apply post_bind, post_GetChild. intros ev Hev.
  destruct (Hkids i ev Hev) as (child & Hchild & Htraced).
  eapply post_mono; [apply Htraced|]. cbn. intros _ st' (t & Ht & Hnested).
  exists [i], t. split; [apply NoDup_singleton|]. split.
  - rewrite <- (app_nil_r t). econstructor; [done..|constructor].
  - now rewrite Ht, Hst.
Qed.

Lemma handleChanceNode_trace lp sp tp st :
  post (handleChanceNode node kids lp sp tp) st
    (fun _ st' => exists idx t, NoDup idx /\
       nested_children (Children node) idx t /\ tr st' = tr st ++ t).
Proof.
  unfold handleChanceNode. eapply silent_bind; [apply silent_Intn|].
  intros i st1 Hst1. now apply one_child_trace.
Qed.

Lemma handleSampledPlayerNode_trace sp tp st :
  post (handleSampledPlayerNode node kids sp tp) st
    (fun _ st' => exists idx t, NoDup idx /\
       nested_children (Children node) idx t /\ tr st' = tr st ++ t).
Proof.
  unfold handleSampledPlayerNode. eapply silent_bind; [apply silent_in_profile|].
  intros policy st1 Hst1. apply post_bind, post_get.
  eapply (silent_bind tr).
  { destruct (st1.2 !! _); [done|]. intros s.
    eapply silent_bind; [apply silent_in_profile|]. intros strategy s1 Hs1.
    eapply silent_bind; [apply silent_sampleOne|]. intros i s2 Hs2.
    apply post_bind, post_modify, post_ret. cbn. congruence. }
  intros i st2 Hst2. eapply silent_bind; [apply silent_in_profile|].
  intros _ st3 Hst3. apply one_child_trace. congruence.
Qed.

Lemma traversing_loop_trace strategy player q sp tp sel : forall cf (sx0 sx : St * list float32) t0,
  trx sx = trx sx0 ++ t0 ->
  post (traversing_loop kids strategy player q sp tp sel cf) sx
    (fun _ sx' => exists t, nested_children (Children node) sel t /\
       trx sx' = trx sx0 ++ t0 ++ t).
Proof.
  induction sel as [|i sel IH]; intros cf sx0 sx t0 Hsx.
  - apply post_ret. exists []. split; [constructor|]. now rewrite app_nil_r.
  - cbn [traversing_loop]. apply post_bind, post_GetChild. intros ev Hev.
    destruct (Hkids i ev Hev) as (child & Hchild & Htraced).
    apply post_bind. destruct (index strategy i); [|done]. apply post_ret.
    apply post_bind, post_with_slice.
    eapply post_mono; [apply Htraced|]. cbn. intros util st1 (t & Ht & Hnested).
    apply post_bind, post_slice_set. intros _.
    eapply post_mono; [apply (IH _ sx0 _ (t0 ++ t))|].
    + cbn. rewrite Ht. cbn in Hsx. rewrite Hsx. now rewrite app_assoc.
    + cbn. intros _ sx' (ts & Hts & Hsx'). exists (t ++ ts). split.
      * econstructor; done.
      * rewrite Hsx'. now rewrite <- !app_assoc.
Qed.

Lemma handleTraversingPlayerNode_trace sp tp st :
  post (handleTraversingPlayerNode c node kids sp tp) st
    (fun _ st' => exists idx t, NoDup idx /\
       nested_children (Children node) idx t /\ tr st' = tr st ++ t).
Proof.
  unfold handleTraversingPlayerNode. eapply silent_bind; [apply silent_in_profile|].
  intros policy st1 Hst1. eapply silent_bind; [apply silent_in_profile|].
  intros strategy st2 Hst2.
  assert (0 <= NumChildren node) as Hn by (unfold NumChildren; lia).
  apply post_bind. apply post_intro. intros sel st3 Hsel.
  assert (tr st3 = tr st2 /\ NoDup sel) as [Hst3 Hnodup].
  { split; [exact (post_Ok _ _ _ _ _ (silent_select c _ st2) Hsel)|].
    destruct (Z.lt_ge_cases (k c) 0) as [Hneg|Hk].
    - unfold select_actions in Hsel. unfold arange in Hsel at 1.
      rewrite length_seqZ, Z2Nat.id in Hsel by lia.
      destruct (Z.ltb_spec (k c) (NumChildren node)).
      + apply bind_Ok in Hsel as (l & s1 & _ & Hsel).
        destruct (Z.ltb_spec (k c) 0); [discriminate|lia].
      + injection Hsel as <- _. apply NoDup_seqZ.
    - destruct (select_actions_spec c _ st2 Hn) as [Hok _].
      destruct (Hok Hk) as (sel' & r' & Hrun & _ & Hnd & _).
      rewrite Hrun in Hsel. now injection Hsel as <- _. }
  eapply silent_bind; [apply silent_alloc|]. intros regrets st4 Hst4.
  apply post_slice_scope. apply post_bind.
  eapply post_mono; [apply (traversing_loop_trace _ _ _ _ _ sel _ (st4, regrets) _ [])|].
  { now rewrite app_nil_r. }
  cbn. intros cfValue sx1 (t & Hnested & Hsx1).
  apply post_bind, post_modify, post_bind, post_get, post_bind, post_with_slice.
  eapply post_mono; [apply silent_in_profile|]. cbn. intros _ st5 Hst5.
  unfold post. cbn. exists sel, t. split; [done|]. split; [done|]. congruence.
Qed.

Lemma runHelper_body_trace lp sp tp st :
  post (runHelper_body c node kids lp sp tp) st
    (fun _ st' => exists t, tr st' = tr st ++ t /\ nested node t).
Proof.
  assert (forall (m : M St float32) st1,
            tr st1 = tr st ++ [EvType (Label node)] ->
            post m st1 (fun _ st' => exists idx t, NoDup idx /\
              nested_children (Children node) idx t /\ tr st' = tr st1 ++ t) ->
            post (ev <- m ;; world (node_Close node) ;;; ret ev)%go st1
              (fun _ st' => exists t, tr st' = tr st ++ t /\ nested node t)) as Hwrap.
  { intros m st1 Hst1 Hm. apply post_bind.
    eapply post_mono; [apply Hm|]. cbn. intros v st2 (idx & t & Hnd & Hnested & Hst2).
    unfold post. cbn.
    exists (EvType (Label node) :: t ++ [EvClose (Label node)]). split.
    - rewrite Hst2, Hst1. now rewrite <- !app_assoc.
    - now apply (nested_node node idx). }
  unfold runHelper_body. apply post_bind, post_world, post_bind, post_emit, post_ret.
  cbn -[handleChanceNode handlePlayerNode].
  destruct (Type_ node).
  - apply Hwrap; [done|]. apply handleChanceNode_trace.
  - unfold post. cbn.
    exists [EvType (Label node); EvClose (Label node)]. split.
    + now rewrite <- app_assoc.
    + apply (nested_node node [] []); constructor.
  - apply Hwrap; [done|]. apply post_bind.
    eapply post_mono; [|intros v st2 Hv; apply post_ret, Hv].
    unfold handlePlayerNode. destruct (decide _).
    + apply handleTraversingPlayerNode_trace.
    + apply handleSampledPlayerNode_trace.
Qed.

End Handlers.

Lemma runHelper_traced c node : traced tr node (runHelper c node).
Proof.
  induction node as [l ty pl key u children IH] using GameTreeNode_ind.
  intros lp sp tp st. rewrite runHelper_unfold.
  apply runHelper_body_trace. now apply kids_traced_map.
Qed.

End RobustTrace.

(** ** Chance sampling: the trace of a traversal *)

Section ChanceTrace.
Import f32 cfr ChanceSampling traces.
Context {P : Type} `{StrategyProfile P}.

Abbreviation trw := (fun w : World P => trace w).
Abbreviation trwx := (fun wx : World P * list float32 => trace wx.1).

Lemma chance_runHelper_unfold node :
  runHelper node = runHelper_body node (map runHelper (Children node)).
Proof. now destruct node. Qed.

Lemma chance_post_slice_scope {A} x (m : M (World P * list float32) A) (w : World P) Q :
  post m (w, x) (fun a wx' => Q a (free wx'.2 wx'.1)) -> post (slice_scope x m) w Q.
Proof. unfold post, slice_scope. now destruct (m (w, x)) as [a [w' x']|[w' x']]. Qed.

Lemma chance_post_GetChild {S S'} (kids : list (evaluator S)) i (s : S')
    (Q : evaluator S -> S' -> Prop) :
  (forall child, index kids i = Some child -> Q child s) -> post (GetChild kids i) s Q.
Proof. intros Hc. unfold GetChild. destruct (index kids i); [now apply Hc|done]. Qed.

Lemma chance_kids_traced_map node :
  Forall (fun child => traced trw child (runHelper child)) (Children node) ->
  kids_traced trw (Children node) (map runHelper (Children node)).
Proof.
  intros Hall i ev. rewrite index_map.
  destruct (index (Children node) i) as [child|] eqn:Hchild; [|done].
  intros [= <-]. exists child. split; [done|].
  rewrite Forall_forall in Hall. apply Hall.
  apply index_Some in Hchild as [_ Hchild]. eapply list_elem_of_lookup_2, Hchild.
Qed.

Section Handlers.
Variable node : GameTreeNode.
Variable kids : list (evaluator (World P)).
Hypothesis Hkids : kids_traced trw (Children node) kids.

Lemma chance_handleChanceNode_trace lp r0 r1 w :
  post (handleChanceNode node kids lp r0 r1) w
    (fun _ w' => exists idx t, NoDup idx /\
       nested_children (Children node) idx t /\ trace w' = trace w ++ t).
Proof.
  unfold handleChanceNode. apply post_bind, post_Intn. intros i r' _.
  apply post_bind, chance_post_GetChild. intros ev Hev.
  destruct (Hkids i ev Hev) as (child & Hchild & Htraced).
  eapply post_mono; [apply Htraced|]. cbn. intros _ w' (t & Ht & Hnested).
  exists [i], t. split; [apply NoDup_singleton|]. split; [|done].
  rewrite <- (app_nil_r t). econstructor; [done..|constructor].
Qed.

Lemma player_loop_trace strat player r0 r1 actions :
  forall eu (wx0 wx : World P * list float32) t0,
  trwx wx = trwx wx0 ++ t0 ->
  post (player_loop kids strat player r0 r1 actions eu) wx
    (fun _ wx' => exists t, nested_children (Children node) actions t /\
       trwx wx' = trwx wx0 ++ t0 ++ t).
Proof.
  induction actions as [|i actions IH]; intros eu wx0 wx t0 Hwx.
  - apply post_ret. exists []. split; [constructor|]. now rewrite app_nil_r.
  - cbn [player_loop]. apply post_bind, chance_post_GetChild. intros ev Hev.
    destruct (Hkids i ev Hev) as (child & Hchild & Htraced).
    apply post_bind, post_with_slice, post_in_profile. intros p pf' _. cbn.
    apply post_bind, post_with_slice.
    assert (forall x y, post (ev player x y)
              {| profile := pf'; pool := pool wx.1; rng := rng wx.1; trace := trace wx.1 |}
              (fun _ w' => exists t, trace w' = trace wx.1 ++ t /\ nested child t)) as Hev'.
    { intros x y.
      exact (Htraced player x y
               {| profile := pf'; pool := pool wx.1; rng := rng wx.1; trace := trace wx.1 |}). }
    eapply post_mono; [destruct (decide _); apply Hev'|].
    cbn. intros util w1 (t & Ht & Hnested).
    apply post_bind, post_slice_set. intros _.
    eapply post_mono; [apply (IH _ wx0 _ (t0 ++ t))|].
    + cbn. rewrite Ht. cbn in Hwx. rewrite Hwx. now rewrite app_assoc.
    + cbn. intros _ wx' (ts & Hts & Hwx'). exists (t ++ ts). split.
      * econstructor; done.
      * rewrite Hwx'. now rewrite <- !app_assoc.
Qed.

Lemma chance_handlePlayerNode_trace r0 r1 w :
  post (handlePlayerNode node kids r0 r1) w
    (fun _ w' => exists idx t, NoDup idx /\
       nested_children (Children node) idx t /\ trace w' = trace w ++ t).
Proof.
  unfold handlePlayerNode. apply post_bind, post_in_profile. intros strat pf' _.
  apply post_bind, post_alloc. intros advantages pool'.
  apply chance_post_slice_scope, post_bind.
  set (w1 := {| profile := pf'; pool := pool'; rng := rng w; trace := trace w |}).
  eapply post_mono;
    [apply (player_loop_trace _ _ _ _ _ _ (w1, advantages) (w1, advantages) []);
     now rewrite app_nil_r|].
  cbn. intros eu wx1 (t & Hnested & Hwx1).
  apply post_bind, post_modify, post_bind, post_get, post_bind, post_with_slice,
    post_in_profile.
  intros _ pf'' _. unfold post. cbn.
  exists (arange (NumChildren node)), t. split; [apply NoDup_seqZ|]. split; [done|].
  exact Hwx1.
Qed.

Lemma chance_runHelper_body_trace lp r0 r1 w :
  post (runHelper_body node kids lp r0 r1) w
    (fun _ w' => exists t, trace w' = trace w ++ t /\ nested node t).
Proof.
  assert (forall (m : M (World P) float32) w1,
            trace w1 = trace w ++ [EvType (Label node)] ->
            post m w1 (fun _ w' => exists idx t, NoDup idx /\
              nested_children (Children node) idx t /\ trace w' = trace w1 ++ t) ->
            post (ev <- m ;; node_Close node ;;; ret ev)%go w1
              (fun _ w' => exists t, trace w' = trace w ++ t /\ nested node t)) as Hwrap.
  { intros m w1 Hw1 Hm. apply post_bind.
    eapply post_mono; [apply Hm|]. cbn. intros v w2 (idx & t & Hnd & Hnested & Hw2).
    unfold post. cbn.
    exists (EvType (Label node) :: t ++ [EvClose (Label node)]). split.
    - rewrite Hw2, Hw1. now rewrite <- !app_assoc.
    - now apply (nested_node node idx). }
  unfold runHelper_body. apply post_bind, post_bind, post_emit, post_ret.
  cbn -[handleChanceNode handlePlayerNode].
  destruct (Type_ node).
  - apply Hwrap; [done|]. apply chance_handleChanceNode_trace.
  - unfold post. cbn.
    exists [EvType (Label node); EvClose (Label node)]. split.
    + now rewrite <- app_assoc.
    + apply (nested_node node [] []); constructor.
  - apply Hwrap; [done|]. apply post_bind.
    eapply post_mono; [|intros v w2 Hv; apply post_ret, Hv].
    apply chance_handlePlayerNode_trace.
Qed.

End Handlers.

Lemma chance_runHelper_traced node : traced trw node (runHelper node).
Proof.
  induction node as [l ty pl key u children IH] using GameTreeNode_ind.
  intros lp r0 r1 w. rewrite chance_runHelper_unfold.
  apply chance_runHelper_body_trace. now apply chance_kids_traced_map.
Qed.

End ChanceTrace.

(** ** Nested traces: every node entered is closed, once *)

Section NestedFacts.
Import cfr traces.

Lemma entered_app l t1 t2 : entered l (t1 ++ t2) = (entered l t1 + entered l t2)%nat.
Proof. unfold entered. now rewrite filter_app, length_app. Qed.

Lemma closed_app l t1 t2 : closed l (t1 ++ t2) = (closed l t1 + closed l t2)%nat.
Proof. unfold closed. now rewrite filter_app, length_app. Qed.

Lemma entered_cons l e t :
  entered l (e :: t) = ((if decide (e = EvType l) then 1 else 0) + entered l t)%nat.
Proof. unfold entered. rewrite filter_cons. now destruct (decide _). Qed.

Lemma closed_cons l e t :
  closed l (e :: t) = ((if decide (e = EvClose l) then 1 else 0) + closed l t)%nat.
Proof. unfold closed. rewrite filter_cons. now destruct (decide _). Qed.

Lemma labels_unfold node :
  labels node = Label node :: concat (map labels (Children node)).
Proof. now destruct node. Qed.

Lemma elem_of_concat {A} (x : A) (ls : list (list A)) :
  x ∈ concat ls <-> exists l, x ∈ l /\ l ∈ ls.
Proof.
  rewrite list_elem_of_In, in_concat. split.
  - intros (l & Hl & Hx). exists l. now rewrite !list_elem_of_In.
  - intros (l & Hx & Hl). exists l. now rewrite <- !list_elem_of_In.
Qed.

Lemma NoDup_concat_lookup {A} (ls : list (list A)) a x :
  NoDup (concat ls) -> ls !! a = Some x -> NoDup x.
Proof.
  revert a. induction ls as [|y ls IH]; intros a Hnd Ha; [done|].
  cbn in Hnd. apply NoDup_app in Hnd as (Hy & _ & Hrest).
  destruct a as [|a]; cbn in Ha; [now injection Ha as <-|eauto].
Qed.

Lemma NoDup_concat_disjoint {A} (ls : list (list A)) a b x y e :
  NoDup (concat ls) -> ls !! a = Some x -> ls !! b = Some y -> a <> b ->
  e ∈ x -> e ∈ y -> False.
Proof.
  revert a b. induction ls as [|z ls IH]; intros a b Hnd Ha Hb Hab Hx Hy; [done|].
  cbn in Hnd. apply NoDup_app in Hnd as (_ & Hdisj & Hrest).
  assert (forall c u, ls !! c = Some u -> e ∈ u -> e ∈ concat ls) as Hin.
  { intros c u Hc Hu. apply elem_of_concat. exists u. split; [done|].
    eapply list_elem_of_lookup_2, Hc. }
  destruct a as [|a], b as [|b]; cbn in Ha, Hb; try done.
  - injection Ha as <-. eapply Hdisj; eauto.
  - injection Hb as <-. eapply Hdisj; eauto.
  - eapply (IH a b); eauto.
Qed.

Lemma index_labels cs i child :
  index cs i = Some child -> map labels cs !! Z.to_nat i = Some (labels child).
Proof.
  intros [_ Hc]%index_Some. change (map labels cs) with (labels <$> cs).
  now rewrite list_lookup_fmap, Hc.
Qed.

(** In a nested trace every node is closed as often as it is entered,
    only nodes of the tree are entered, and when the labels of the tree
    are distinct none is entered twice. *)
Lemma nested_counts node t :
  nested node t -> forall l,
    closed l t = entered l t /\
    ((0 < entered l t)%nat -> l ∈ labels node) /\
    (NoDup (labels node) -> (entered l t <= 1)%nat).
Proof.
  revert node t.
  assert (forall cs i child l, index cs i = Some child -> l ∈ labels child ->
            l ∈ concat (map labels cs)) as Hin.
  { intros cs i child l Hc Hl. apply elem_of_concat. exists (labels child).
    split; [done|]. eapply list_elem_of_lookup_2, index_labels, Hc. }
  apply (nested_mut
      (fun node t => forall l,
         closed l t = entered l t /\
         ((0 < entered l t)%nat -> l ∈ labels node) /\
         (NoDup (labels node) -> (entered l t <= 1)%nat))
      (fun cs idx t => forall l,
         closed l t = entered l t /\
         ((0 < entered l t)%nat ->
            exists i child, i ∈ idx /\ index cs i = Some child /\ l ∈ labels child) /\
         (NoDup idx -> NoDup (concat (map labels cs)) -> (entered l t <= 1)%nat))).
    + intros node idx t Hnd _ IH l. destruct (IH l) as (Hcl & Hin' & Hone).
      rewrite entered_cons, closed_cons, entered_app, closed_app.
      rewrite entered_cons, closed_cons. cbn.
      rewrite labels_unfold. split; [|split].
      * rewrite Hcl. repeat case_decide; try congruence; lia.
      * intros Hpos. destruct (decide (l = Label node)) as [->|Hne]; [left|right].
        destruct (decide (EvType (Label node) = EvType l)) as [[= ?]|_]; [congruence|].
        destruct (decide (EvClose (Label node) = EvType l)); [done|].
        destruct Hin' as (i & child & _ & Hc & Hl); [lia|]. eauto.
      * intros [Hroot Hrest]%NoDup_cons.
        destruct (decide (EvClose (Label node) = EvType l)); [done|].
        destruct (decide (EvType (Label node) = EvType l)) as [[= <-]|_].
        -- destruct (entered (Label node) t) eqn:He; [lia|].
           destruct Hin' as (i & child & _ & Hc & Hl); [lia|].
           destruct Hroot. eauto.
        -- specialize (Hone Hnd Hrest). lia.
    + intros cs l. cbn. split; [done|]. split; [lia|lia].
    + intros cs i idx child t ts Hc _ IHt _ IHts l.
      destruct (IHt l) as (Hcl1 & Hin1 & Hone1). destruct (IHts l) as (Hcl2 & Hin2 & Hone2).
      rewrite entered_app, closed_app. split; [lia|]. split.
      * intros Hpos. destruct (entered l t) eqn:He.
        -- destruct Hin2 as (j & child' & Hj & Hc' & Hl); [lia|].
           exists j, child'. split; [now right|done].
        -- exists i, child. split; [left|]. split; [done|]. apply Hin1. lia.
      * intros [Hi Hidx]%NoDup_cons Hnd.
        specialize (Hone2 Hidx Hnd).
        assert (entered l t <= 1)%nat as Hone1'.
        { apply Hone1. eapply NoDup_concat_lookup; [exact Hnd|].
          exact (index_labels _ _ _ Hc). }
        destruct (entered l t) eqn:He; [lia|].
        destruct (entered l ts) eqn:He'; [lia|]. exfalso.
        destruct Hin2 as (j & child' & Hj & Hc' & Hl'); [lia|].
        assert (l ∈ labels child) as Hl by (apply Hin1; lia).
        apply (NoDup_concat_disjoint (map labels cs) (Z.to_nat i) (Z.to_nat j)
                 (labels child) (labels child') l); try done.
        -- exact (index_labels _ _ _ Hc).
        -- exact (index_labels _ _ _ Hc').
        -- apply index_Some in Hc as [? _]. apply index_Some in Hc' as [? _].
           intros E. apply Z2Nat.inj in E; [|lia..]. congruence.
Qed.

End NestedFacts.

(** ** Closing nodes *)

Section CloseFacts.
Import f32 cfr traces.

(** C9: in both engines, whenever the evaluator returns on a node of a
    finite tree, what it added to the trace is nested: the node was
    entered, some of its children were evaluated one after the other,
    each leaving a nested trace of its own, and Close was called on the
    node last, after the Close of every child visited.  So every node
    entered is a node of the tree and is closed as often as entered, and
    exactly once when the labels of the tree tell its nodes apart. *)
Theorem Close_after_value :
  (forall c node lp sp tp st v st',
     RobustSampling.runHelper c node lp sp tp st = Ok v st' ->
     exists t, trace st'.1 = trace st.1 ++ t /\ nested node t /\
       forall l, closed l t = entered l t /\
                 ((0 < entered l t)%nat -> l ∈ labels node) /\
                 (NoDup (labels node) -> (0 < entered l t)%nat -> closed l t = 1%nat)) /\
  (forall P (SP : ChanceSampling.StrategyProfile P) node lp r0 r1 (w : World P) v w',
     ChanceSampling.runHelper node lp r0 r1 w = Ok v w' ->
     exists t, trace w' = trace w ++ t /\ nested node t /\
       forall l, closed l t = entered l t /\
                 ((0 < entered l t)%nat -> l ∈ labels node) /\
                 (NoDup (labels node) -> (0 < entered l t)%nat -> closed l t = 1%nat)).
Proof.
  assert (forall node t, nested node t ->
            forall l, closed l t = entered l t /\
                 ((0 < entered l t)%nat -> l ∈ labels node) /\
                 (NoDup (labels node) -> (0 < entered l t)%nat -> closed l t = 1%nat)) as Hcount.
  { intros node t Hnested l. destruct (nested_counts node t Hnested l) as (Hcl & Hin & Hone).
    split; [done|]. split; [done|]. intros Hnd Hpos. specialize (Hone Hnd). lia. }
  split.
  - intros c node lp sp tp st v st' Hrun.
    destruct (post_Ok _ _ _ _ _ (runHelper_traced c node lp sp tp st) Hrun)
      as (t & Ht & Hnested).
    exists t. eauto.
  - intros P SP node lp r0 r1 w v w' Hrun.
    destruct (post_Ok _ _ _ _ _ (chance_runHelper_traced node lp r0 r1 w) Hrun)
      as (t & Ht & Hnested).
    exists t. eauto.
Qed.

End CloseFacts.

(** ** The traversing player *)

Section TraversingPlayer.
Import f32 cfr RobustSampling.

(** C10: Run takes the traversing player to be the iteration counter of
    the profile modulo 2, and hands it to the evaluator with a fresh
    sampled-actions map; Update adds one to a counter a 64-bit int can
    still increment, so from one iteration to the next the traversing
    player alternates between 0 and 1. *)
Theorem Run_alternates c node w :
  Run c node w =
    match runHelper c node (Player node) one (Z.rem (Iter (profile w)) 2) (w, ∅) with
    | Ok ev (w', _) => Ok ev w'
    | Panic (w', _) => Panic w'
    end /\
  Iter (NewPolicyTable (params (profile w))) = 1 /\
  (0 <= Iter (profile w) < MaxInt ->
     Iter (Update (profile w)) = Iter (profile w) + 1 /\
     0 <= Z.rem (Iter (profile w)) 2 <= 1 /\
     Z.rem (Iter (Update (profile w))) 2 = 1 - Z.rem (Iter (profile w)) 2).
Proof.
  split; [reflexivity|]. split; [reflexivity|]. intros Hi. unfold Iter in *.
  rewrite Update_iter, wrap_int_id by (unfold is_int, MinInt, MaxInt in *; lia).
  rewrite !Z.rem_mod_nonneg by lia.
  pose proof (Z.mod_pos_bound (iter (profile w)) 2).
  pose proof (Z.div_mod (iter (profile w)) 2).
  pose proof (Z.mod_pos_bound (iter (profile w) + 1) 2).
  pose proof (Z.div_mod (iter (profile w) + 1) 2).
  lia.
Qed.

End TraversingPlayer.

(** ** Robust sampling: the sampled-actions map *)

Section CacheFacts.
Import f32 cfr RobustSampling.

Lemma cache_kept_refl st : cache_kept st st.
Proof. now intros key i. Qed.

Lemma cache_kept_trans st1 st2 st3 :
  cache_kept st1 st2 -> cache_kept st2 st3 -> cache_kept st1 st3.
Proof. intros H12 H23 key i Hk. eauto. Qed.

Lemma cache_kept_same (st st' : St) : st'.2 = st.2 -> cache_kept st st'.
Proof. intros E key i. now rewrite E. Qed.

Lemma kept_bind {A B} (m : M St A) (f : A -> M St B) st :
  kept_by st (m st) -> (forall a st1, m st = Ok a st1 -> kept_by st1 (f a st1)) ->
  kept_by st (bind m f st).
Proof.
  unfold bind. destruct (m st) as [a st1|st1]; cbn; [|done].
  intros H1 H2. specialize (H2 a st1 eq_refl).
  destruct (f a st1); cbn in *; eauto using cache_kept_trans.
Qed.

Lemma world_cache {A} (m : M (World PolicyTable) A) st :
  match world m st with
  | Ok _ st' => st'.2 = st.2
  | Panic st' => st'.2 = st.2
  end.
Proof. unfold world. now destruct (m st.1). Qed.

Lemma kept_world {A} (m : M (World PolicyTable) A) st : kept_by st (world m st).
Proof.
  pose proof (world_cache m st) as H. destruct (world m st); now apply cache_kept_same.
Qed.

Lemma world_Ok_cache {A} (m : M (World PolicyTable) A) st a st' :
  world m st = Ok a st' -> st'.2 = st.2.
Proof. intros E. pose proof (world_cache m st) as H. now rewrite E in H. Qed.

Lemma kept_select c n st : kept_by st (select_actions c n st).
Proof.
  unfold select_actions. destruct (k c <? _); [|apply cache_kept_refl].
  apply kept_bind; [apply kept_world|]. intros l st1 _.
  destruct (k c <? 0); apply cache_kept_refl.
Qed.

Section Handlers.
Variable c : RobustSamplingCFR.
Variable node : GameTreeNode.
Variable kids : list (evaluator St).
Hypothesis Hkids : forall i ev, index kids i = Some ev -> forall lp sp tp, keeps (ev lp sp tp).

Lemma kept_child i lp sp tp st :
  kept_by st ((child <- GetChild kids i ;; child lp sp tp)%go st).
Proof.
  unfold bind, GetChild. destruct (index kids i) as [ev|] eqn:Hev; cbn.
  - apply (Hkids i ev Hev).
  - apply cache_kept_refl.
Qed.

Lemma kept_handleChanceNode lp sp tp : keeps (handleChanceNode node kids lp sp tp).
Proof.
  intros st. unfold handleChanceNode. apply kept_bind; [apply kept_world|].
  intros i st1 _. apply kept_child.
Qed.

Lemma kept_handleSampledPlayerNode sp tp : keeps (handleSampledPlayerNode node kids sp tp).
Proof.
  intros st. unfold handleSampledPlayerNode. apply kept_bind; [apply kept_world|].
  intros policy st1 _. apply kept_bind; [apply cache_kept_refl|].
  intros st1' ? [= <- <-]. apply kept_bind.
  - destruct (st1.2 !! Key node (Player node)) eqn:Hkey; [apply cache_kept_refl|].
    apply kept_bind; [apply kept_world|]. intros strategy st2 Hst2%world_Ok_cache.
    apply kept_bind; [apply kept_world|]. intros i st3 Hst3%world_Ok_cache.
    cbn. intros key j Hj. cbn.
    destruct (decide (key = Key node (Player node))) as [->|Hne].
    + congruence.
    + now rewrite lookup_insert_ne.
  - intros i st2 _. apply kept_bind; [apply kept_world|].
    intros _ st3 _. apply kept_child.
Qed.

Lemma kept_traversing_loop strategy player q sp tp sel : forall cf (sx : St * list float32),
  match traversing_loop kids strategy player q sp tp sel cf sx with
  | Ok _ sx' => cache_kept sx.1 sx'.1
  | Panic sx' => cache_kept sx.1 sx'.1
  end.
Proof.
  induction sel as [|i sel IH]; intros cf sx; [apply cache_kept_refl|].
  cbn [traversing_loop]. unfold bind at 1, GetChild.
  destruct (index kids i) as [ev|] eqn:Hev; [|apply cache_kept_refl]. cbn.
  unfold bind at 1. destruct (index strategy i) as [p|]; [|apply cache_kept_refl]. cbn.
  unfold bind at 1, with_slice.
  pose proof (Hkids i ev Hev player (mul q sp) tp sx.1) as Hev'.
  destruct (ev player (mul q sp) tp sx.1) as [util st1|st1]; [|exact Hev']. cbn in Hev'.
  unfold bind at 1, slice_set. cbn.
  destruct (decide _); [|exact Hev'].
  specialize (IH (add cf (mul p util)) (st1, <[Z.to_nat i := util]> sx.2)).
  destruct (traversing_loop _ _ _ _ _ _ _ _ _); eauto using cache_kept_trans.
Qed.

Lemma kept_handleTraversingPlayerNode sp tp :
  keeps (handleTraversingPlayerNode c node kids sp tp).
Proof.
  intros st. unfold handleTraversingPlayerNode. apply kept_bind; [apply kept_world|].
  intros policy st1 _. apply kept_bind; [apply kept_world|].
  intros strategy st2 _. apply kept_bind; [apply kept_select|].
  intros sel st3 _. apply kept_bind; [apply kept_world|].
  intros regrets st4 _. unfold slice_scope, bind at 1.
  pose proof (kept_traversing_loop strategy (Player node)
                (div one (of_int (NumChildren node))) sp tp sel zero (st4, regrets)) as Hloop.
  destruct (traversing_loop _ _ _ _ _ _ _ _ _) as [cfValue [st5 x5]|[st5 x5]];
    [|exact Hloop].
  cbn in Hloop |- *. unfold bind, with_slice, world, in_profile. cbn.
  destruct (policy_update _ _ _); exact Hloop.
Qed.

Lemma kept_runHelper_body lp sp tp : keeps (runHelper_body c node kids lp sp tp).
Proof.
  intros st. unfold runHelper_body. apply kept_bind; [apply kept_world|].
  intros ty st1 _. apply kept_bind.
  - destruct ty.
    + apply kept_handleChanceNode.
    + apply cache_kept_refl.
    + apply kept_bind; [|intros; apply cache_kept_refl].
      unfold handlePlayerNode. destruct (decide _).
      * apply kept_handleTraversingPlayerNode.
      * apply kept_handleSampledPlayerNode.
  - intros ev st2 _. apply kept_bind; [apply kept_world|].
    intros; apply cache_kept_refl.
Qed.

End Handlers.

(** Whatever a traversal has put in the map stays there to its end. *)
Lemma keeps_runHelper c node : forall lp sp tp, keeps (runHelper c node lp sp tp).
Proof.
  induction node as [l ty pl key u children IH] using GameTreeNode_ind.
  intros lp sp tp. rewrite runHelper_unfold. apply kept_runHelper_body.
  intros i ev. rewrite index_map. cbn [Children].
  destruct (index children i) as [child|] eqn:Hchild; [|done].
  intros [= <-]. rewrite Forall_forall in IH. apply IH.
  apply index_Some in Hchild as [_ Hchild]. eapply list_elem_of_lookup_2, Hchild.
Qed.

End CacheFacts.

(** ** Robust sampling: a cached action is the one taken *)

Section PinnedFacts.
Import f32 cfr RobustSampling traces.
Variable c : RobustSamplingCFR.
Variable tp : Z.
Variable kappa : string.
Variable i : Z.

Abbreviation cached := (fun st : St => st.2 !! kappa = Some i).

Lemma quiet_world {A} (m : M (World PolicyTable) A) (st : St) :
  (forall w, post m w (fun _ w' => trace w' = trace w)) ->
  post (world m) st (fun _ st' => trace st'.1 = trace st.1 /\ st'.2 = st.2).
Proof.
  intros Hm. apply post_world. eapply post_mono; [apply Hm|]. cbn. eauto.
Qed.

Lemma quiet_in_profile {A} (m : M PolicyTable A) (w : World PolicyTable) :
  post (in_profile m) w (fun _ w' => trace w' = trace w).
Proof. now apply post_in_profile. Qed.

Lemma quiet_Intn bound (w : World PolicyTable) :
  post (Intn bound) w (fun _ w' => trace w' = trace w).
Proof. now apply post_Intn. Qed.

Lemma quiet_sampleOne pv (w : World PolicyTable) :
  post (sampleOne pv) w (fun _ w' => trace w' = trace w).
Proof. apply post_bind, post_Float32. done. Qed.

Lemma quiet_alloc n (w : World PolicyTable) :
  post (alloc n) w (fun _ w' => trace w' = trace w).
Proof. now apply post_alloc. Qed.

Lemma quiet_select n (st : St) :
  post (select_actions c n) st (fun _ st' => trace st'.1 = trace st.1 /\ st'.2 = st.2).
Proof.
  unfold select_actions. destruct (k c <? _); [|done].
  destruct (shuffle_loop_spec (length (arange n) - 1) (arange n) st.1)
    as (l' & r' & Hrun & _).
  unfold post, bind, world, Shuffle. rewrite Hrun. now destruct (k c <? 0).
Qed.

Section Handlers.
Variable node : GameTreeNode.
Variable kids : list (evaluator St).
Hypothesis Hkids : forall j ev, index kids j = Some ev ->
  exists child, index (Children node) j = Some child /\ pinned_ev tp kappa i child ev.

Lemma pinned_one_child j lp sp (st0 st : St) :
  cached st -> trace st.1 = trace st0.1 ->
  post (child <- GetChild kids j ;; child lp sp tp)%go st
    (fun _ st' => cached st' /\
       exists t, pinned_children tp kappa i (Children node) [j] t /\
         trace st'.1 = trace st0.1 ++ t).
Proof.
  intros Hc Hst. apply post_bind, post_GetChild. intros ev Hev.
  destruct (Hkids j ev Hev) as (child & Hchild & Hpin).
  eapply post_mono; [now apply Hpin|]. cbn beta. intros _ st' (Hc' & t & Ht & Hp).
  split; [done|]. exists t. split.
  - rewrite <- (app_nil_r t). econstructor; [done..|constructor].
  - now rewrite Ht, Hst.
Qed.

Lemma pinned_handleChanceNode lp sp st :
  cached st ->
  post (handleChanceNode node kids lp sp tp) st
    (fun _ st' => cached st' /\
       exists j t, pinned_children tp kappa i (Children node) [j] t /\
         trace st'.1 = trace st.1 ++ t).
Proof.
  intros Hc. unfold handleChanceNode. apply post_bind.
  eapply post_mono; [apply quiet_world, quiet_Intn|]. cbn beta. intros j st1 [Ht1 Hc1].
  eapply post_mono; [apply (pinned_one_child j lp sp st); [congruence|done]|].
  cbn beta. intros _ st' (Hc' & t & Hp & Ht). eauto.
Qed.

Lemma pinned_handleSampledPlayerNode sp st :
  cached st ->
  post (handleSampledPlayerNode node kids sp tp) st
    (fun _ st' => cached st' /\
       exists j t, (Key node (Player node) = kappa -> j = i) /\
         pinned_children tp kappa i (Children node) [j] t /\
         trace st'.1 = trace st.1 ++ t).
Proof.
  intros Hc. unfold handleSampledPlayerNode. apply post_bind.
  eapply post_mono; [apply quiet_world, quiet_in_profile|]. cbn beta.
  intros policy st1 [Ht1 Hc1]. apply post_bind, post_get, post_bind.
  apply (post_mono _ _ (fun j st2 =>
           cached st2 /\ trace st2.1 = trace st.1 /\ (Key node (Player node) = kappa -> j = i))).
  - destruct (st1.2 !! Key node (Player node)) as [j|] eqn:Hkey.
    + apply post_ret. split; [congruence|]. split; [done|].
      intros E. rewrite E, Hc1, Hc in Hkey. congruence.
    + apply post_bind.
      eapply post_mono; [apply quiet_world, quiet_in_profile|]. cbn beta.
      intros strategy st2 [Ht2 Hc2]. apply post_bind.
      eapply post_mono; [apply quiet_world, quiet_sampleOne|]. cbn beta.
      intros j st3 [Ht3 Hc3]. apply post_bind, post_modify. unfold post. cbn.
      assert (Key node (Player node) <> kappa) as Hne.
      { intros E. rewrite E, Hc1, Hc in Hkey. discriminate. }
      split; [|split; [congruence|done]].
      rewrite lookup_insert_ne by done. congruence.
  - cbn. intros j st2 (Hc2 & Ht2 & Hj). apply post_bind.
    eapply post_mono; [apply quiet_world, quiet_in_profile|]. cbn beta.
    intros _ st3 [Ht3 Hc3].
    eapply post_mono; [apply (pinned_one_child j _ sp st); [congruence|congruence]|].
    cbn beta. intros _ st' (Hc' & t & Hp & Ht). eauto 10.
Qed.

Lemma pinned_traversing_loop strategy player q sp sel :
  forall cf (sx0 sx : St * list float32) t0,
  cached sx.1 -> trace sx.1.1 = trace sx0.1.1 ++ t0 ->
  post (traversing_loop kids strategy player q sp tp sel cf) sx
    (fun _ sx' => cached sx'.1 /\
       exists t, pinned_children tp kappa i (Children node) sel t /\
         trace sx'.1.1 = trace sx0.1.1 ++ t0 ++ t).
Proof.
  induction sel as [|j sel IH]; intros cf sx0 sx t0 Hc Hsx.
  - apply post_ret. split; [done|]. exists []. split; [constructor|]. now rewrite app_nil_r.
  - cbn [traversing_loop]. apply post_bind, post_GetChild. intros ev Hev.
    destruct (Hkids j ev Hev) as (child & Hchild & Hpin).
    apply post_bind. destruct (index strategy j); [|done]. apply post_ret.
    apply post_bind, post_with_slice.
    eapply post_mono; [now apply Hpin|]. cbn beta. intros util st1 (Hc1 & t & Ht & Hp).
    apply post_bind, post_slice_set. intros _.
    eapply post_mono; [apply (IH _ sx0 _ (t0 ++ t))|].
    + done.
    + cbn. rewrite Ht, Hsx. now rewrite app_assoc.
    + cbn. intros _ sx' (Hc' & ts & Hts & Hsx'). split; [done|].
      exists (t ++ ts). split; [econstructor; done|].
      rewrite Hsx'. now rewrite <- !app_assoc.
Qed.

Lemma pinned_handleTraversingPlayerNode sp st :
  cached st ->
  post (handleTraversingPlayerNode c node kids sp tp) st
    (fun _ st' => cached st' /\
       exists sel t, pinned_children tp kappa i (Children node) sel t /\
         trace st'.1 = trace st.1 ++ t).
Proof.
  intros Hc. unfold handleTraversingPlayerNode. apply post_bind.
  eapply post_mono; [apply quiet_world, quiet_in_profile|]. cbn beta.
  intros policy st1 [Ht1 Hc1]. apply post_bind.
  eapply post_mono; [apply quiet_world, quiet_in_profile|]. cbn beta.
  intros strategy st2 [Ht2 Hc2]. apply post_bind.
  eapply post_mono; [apply quiet_select|]. cbn beta. intros sel st3 [Ht3 Hc3]. apply post_bind.
  eapply post_mono; [apply quiet_world, quiet_alloc|]. cbn beta. intros regrets st4 [Ht4 Hc4].
  apply post_slice_scope, post_bind.
  eapply post_mono;
    [apply (pinned_traversing_loop _ _ _ _ sel _ (st4, regrets) (st4, regrets) []);
     [cbn; congruence|now rewrite app_nil_r]|].
  cbn beta. intros cfValue sx1 (Hc5 & t & Hp & Hsx1).
  apply post_bind, post_modify, post_bind, post_get, post_bind, post_with_slice.
  eapply post_mono; [apply quiet_world, quiet_in_profile|]. cbn beta. intros _ st5 [Ht5 Hc6].
  unfold post. cbn. cbn [fst snd app] in *.
  split; [congruence|]. exists sel, t. split; [done|]. congruence.
Qed.

Lemma pinned_runHelper_body lp sp st :
  cached st ->
  post (runHelper_body c node kids lp sp tp) st
    (fun _ st' => cached st' /\
       exists t, trace st'.1 = trace st.1 ++ t /\ pinned tp kappa i node t).
Proof.
  intros Hc.
  assert (forall (m : M St float32) st1,
            trace st1.1 = trace st.1 ++ [EvType (Label node)] ->
            post m st1 (fun _ st' => cached st' /\
              exists idx t,
                (Type_ node = PlayerNode -> tp <> Player node ->
                 Key node (Player node) = kappa -> idx = [i]) /\
                pinned_children tp kappa i (Children node) idx t /\
                trace st'.1 = trace st1.1 ++ t) ->
            post (ev <- m ;; world (node_Close node) ;;; ret ev)%go st1
              (fun _ st' => cached st' /\
                 exists t, trace st'.1 = trace st.1 ++ t /\ pinned tp kappa i node t)) as Hwrap.
  { intros m st1 Hst1 Hm. apply post_bind.
    eapply post_mono; [apply Hm|]. cbn beta. intros v st2 (Hc2 & idx & t & Hidx & Hp & Hst2).
    unfold post. cbn. split; [done|].
    exists (EvType (Label node) :: t ++ [EvClose (Label node)]). split.
    - rewrite Hst2, Hst1. now rewrite <- !app_assoc.
    - now apply (pinned_node tp kappa i node idx). }
  unfold runHelper_body. apply post_bind, post_world, post_bind, post_emit, post_ret.
  cbn -[handleChanceNode handlePlayerNode].
  destruct (Type_ node) eqn:Hty.
  - apply Hwrap; [done|].
    eapply post_mono; [now apply pinned_handleChanceNode|].
    cbn beta. intros _ st' (Hc' & j & t & Hp & Ht). split; [done|]. exists [j], t.
    split; [congruence|]. eauto.
  - unfold post. cbn. split; [done|].
    exists [EvType (Label node); EvClose (Label node)]. split.
    + now rewrite <- app_assoc.
    + apply (pinned_node tp kappa i node [] []); [congruence|constructor].
  - apply Hwrap; [done|]. apply post_bind.
    apply (post_mono _ _ (fun _ st' => cached st' /\
              exists idx t,
                (PlayerNode = PlayerNode -> tp <> Player node ->
                 Key node (Player node) = kappa -> idx = [i]) /\
                pinned_children tp kappa i (Children node) idx t /\
                trace st'.1 =
                  trace ({| profile := profile st.1; pool := pool st.1; rng := rng st.1;
                            trace := trace st.1 ++ [EvType (Label node)] |}, st.2).1 ++ t));
      [|intros v st2 Hv; apply post_ret, Hv].
    unfold handlePlayerNode. destruct (decide (tp = Player node)) as [Htp|Htp].
    + eapply post_mono; [now apply pinned_handleTraversingPlayerNode|].
      cbn. intros _ st' (Hc' & sel & t & Hp & Ht). split; [done|]. exists sel, t.
      split; [done|]. eauto.
    + eapply post_mono; [now apply pinned_handleSampledPlayerNode|].
      cbn. intros _ st' (Hc' & j & t & Hj & Hp & Ht). split; [done|]. exists [j], t.
      split; [|eauto]. intros _ _ E. now rewrite (Hj E).
Qed.

End Handlers.

(** Started with the action cached, every opponent node of the key that
    a returning traversal enters goes on into that action's child. *)
Lemma runHelper_pinned node : pinned_ev tp kappa i node (runHelper c node).
Proof.
  induction node as [l ty pl key u children IH] using GameTreeNode_ind.
  intros lp sp st Hc. rewrite runHelper_unfold.
  apply pinned_runHelper_body; [|done].
  intros j ev. rewrite index_map. cbn [Children].
  destruct (index children j) as [child|] eqn:Hchild; [|done].
  intros [= <-]. exists child. split; [done|].
  rewrite Forall_forall in IH. apply IH.
  apply index_Some in Hchild as [_ Hchild]. eapply list_elem_of_lookup_2, Hchild.
Qed.

End PinnedFacts.

Section CachedAction.
Import f32 cfr RobustSampling traces.

(** C5: at an opponent node whose infoset key is in the sampled-actions
    map, the evaluator takes the cached action and samples nothing; with
    the key absent it samples one action from the current strategy and
    caches it under the key before going on.  No call of the evaluator
    ever removes or changes an entry, however it ends, and in a call that
    starts with an action cached for a key and returns, every opponent
    node of that key that is entered goes on into the child of that
    action and no other: within one Run a later visit of the key uses the
    action of the first.  Run starts from an empty map of its own, and a
    second Run can sample another action for the same key. *)
Theorem sampled_action_cached c node kids sp tp w (cache : gmap string Z) :
  let key := Key node (Player node) in
  (forall i, cache !! key = Some i ->
     handleSampledPlayerNode node kids sp tp (w, cache) =
     (policy <- world (in_profile (GetPolicy node)) ;;
      world (in_profile (policy_update policy (AddStrategyWeight (div one sp)))) ;;;
      child <- GetChild kids i ;;
      child (Player node) sp tp)%go (w, cache)) /\
  (cache !! key = None ->
     handleSampledPlayerNode node kids sp tp (w, cache) =
     (policy <- world (in_profile (GetPolicy node)) ;;
      strategy <- world (in_profile (policy_read policy GetStrategy)) ;;
      i <- world (sampleOne strategy) ;;
      modify (fun st => (st.1, <[key := i]> st.2)) ;;;
      world (in_profile (policy_update policy (AddStrategyWeight (div one sp)))) ;;;
      child <- GetChild kids i ;;
      child (Player node) sp tp)%go (w, cache)) /\
  (forall nd lp sp' tp' st, kept_by st (runHelper c nd lp sp' tp' st)) /\
  (forall nd lp sp' tp' st kappa i v st',
     st.2 !! kappa = Some i -> runHelper c nd lp sp' tp' st = Ok v st' ->
     st'.2 !! kappa = Some i /\
     exists t, trace st'.1 = trace st.1 ++ t /\ pinned tp' kappa i nd t) /\
  Run c node w =
    match runHelper c node (Player node) one (Z.rem (Iter (profile w)) 2) (w, ∅) with
    | Ok ev (w', _) => Ok ev w'
    | Panic (w', _) => Panic w'
    end /\
  (exists v1 w1 v2 w2,
     Run {| k := 2 |} cfr_example.three (cfr_example.world0 1 0) = Ok v1 w1 /\
     Run {| k := 2 |} cfr_example.three w1 = Ok v2 w2 /\
     trace w1 = [EvType 0; EvType 1; EvClose 1; EvClose 0] /\
     trace w2 = trace w1 ++ [EvType 0; EvType 2; EvClose 2; EvClose 0]).
Proof.
  intros key. split; [|split; [|split; [|split; [|split]]]].
  - intros i Hi. unfold handleSampledPlayerNode, bind, get. fold key.
    pose proof (world_cache (in_profile (GetPolicy node)) (w, cache)) as Hc.
    destruct (world (in_profile (GetPolicy node)) (w, cache)) as [policy st1|st1]; [|done].
    cbn in Hc. rewrite Hc, Hi. reflexivity.
  - intros Hnone. unfold handleSampledPlayerNode, bind, get. fold key.
    pose proof (world_cache (in_profile (GetPolicy node)) (w, cache)) as Hc.
    destruct (world (in_profile (GetPolicy node)) (w, cache)) as [policy st1|st1]; [|done].
    cbn in Hc. rewrite Hc, Hnone.
    destruct (world (in_profile (policy_read policy GetStrategy)) st1)
      as [strategy st2|st2]; [|reflexivity].
    destruct (world (sampleOne strategy) st2) as [i st3|st3]; reflexivity.
  - intros nd lp sp' tp' st. apply keeps_runHelper.
  - intros nd lp sp' tp' st kappa i v st' Hcached Hrun.
    exact (post_Ok _ _ _ _ _ (runHelper_pinned c tp' kappa i nd lp sp' st Hcached) Hrun).
  - reflexivity.
  - eexists _, _, _, _. split; [vm_compute; reflexivity|].
    split; [vm_compute; reflexivity|]. split; reflexivity.
Qed.

End CachedAction.

(** ** Robust sampling: the sampling probability *)

Section SampleProbFacts.
Import f32 cfr RobustSampling.

Lemma bind_ext {S A B} (m : M S A) (f g : A -> M S B) s :
  (forall a s1, m s = Ok a s1 -> f a s1 = g a s1) -> bind m f s = bind m g s.
Proof. intros H. unfold bind. destruct (m s); eauto. Qed.

Lemma bind_assoc {S A B C} (m : M S A) (f : A -> M S B) (g : B -> M S C) s :
  bind (bind m f) g s = bind m (fun a => bind (f a) g) s.
Proof. unfold bind. now destruct (m s). Qed.

Lemma node_Type_value node (st : St) ty st1 :
  world (node_Type node) st = Ok ty st1 -> ty = Type_ node.
Proof. unfold world, node_Type, bind, emit, ret. cbn. now intros [= <- _]. Qed.

Lemma index_None {A} (l : list A) i :
  index l i = None <-> i < 0 \/ Z.of_nat (length l) <= i.
Proof.
  unfold index. destruct (Z.ltb_spec i 0); [split; [auto|done]|].
  rewrite lookup_ge_None. lia.
Qed.

Lemma agree_child lp x tp kids1 kids2 i st :
  agree_at lp x tp kids1 kids2 ->
  (child <- GetChild kids1 i ;; child lp x tp)%go st =
  (child <- GetChild kids2 i ;; child lp x tp)%go st.
Proof.
  intros [Hlen Hag]. unfold bind, GetChild.
  destruct (index kids1 i) as [ev1|] eqn:H1, (index kids2 i) as [ev2|] eqn:H2; cbn.
  - now apply (Hag i).
  - apply index_lt in H1. apply index_None in H2. lia.
  - apply index_lt in H2. apply index_None in H1. lia.
  - reflexivity.
Qed.

Lemma agree_with_slice lp x tp kids1 kids2 i (sx : St * list float32) :
  agree_at lp x tp kids1 kids2 ->
  forall (f : float32 -> M (St * list float32) float32),
  (child <- GetChild kids1 i ;; util <- with_slice (child lp x tp) ;; f util)%go sx =
  (child <- GetChild kids2 i ;; util <- with_slice (child lp x tp) ;; f util)%go sx.
Proof.
  intros [Hlen Hag] f. unfold bind, GetChild.
  destruct (index kids1 i) as [ev1|] eqn:H1, (index kids2 i) as [ev2|] eqn:H2; cbn.
  - unfold with_slice. now rewrite (Hag i ev1 ev2 H1 H2).
  - apply index_lt in H1. apply index_None in H2. lia.
  - apply index_lt in H2. apply index_None in H1. lia.
  - reflexivity.
Qed.

Lemma agree_traversing_loop kids1 kids2 strategy player q sp tp sel :
  agree_at player (mul q sp) tp kids1 kids2 ->
  forall cf sx,
    traversing_loop kids1 strategy player q sp tp sel cf sx =
    traversing_loop kids2 strategy player q sp tp sel cf sx.
Proof.
  intros Hag. induction sel as [|i sel IH]; intros cf sx; [reflexivity|].
  cbn [traversing_loop]. unfold bind, GetChild. destruct Hag as [Hlen Hag].
  destruct (index kids1 i) as [ev1|] eqn:H1, (index kids2 i) as [ev2|] eqn:H2; cbn.
  - destruct (index strategy i) as [p|]; [|reflexivity]. cbn.
    unfold with_slice. rewrite (Hag i ev1 ev2 H1 H2).
    destruct (ev2 player (mul q sp) tp sx.1) as [util st1|st1]; [|reflexivity].
    destruct (slice_set i util (st1, sx.2)) as [[] sx1|sx1]; [|reflexivity].
    apply IH.
  - apply index_lt in H1. apply index_None in H2. lia.
  - apply index_lt in H2. apply index_None in H1. lia.
  - reflexivity.
Qed.

(** C4: on a Terminal node the evaluator returns the utility of the node
    for the last acting player, as a float32, divided by the sampling
    probability it was called with.  The handler of a Chance node and
    that of an opponent node call the evaluators of the children with
    that same probability only, and the handler of a traversing-player
    node with [q * sampleProb] only, [q = 1 / numChildren]: evaluators
    that do the same at that probability give the same result. *)
Theorem sampleProb_flow c node lp sp tp (st : St) :
  (Type_ node = TerminalNode ->
     runHelper c node lp sp tp st =
     Ok (div (of_float64 (Utility node lp)) sp)
        ({| profile := profile st.1; pool := pool st.1; rng := rng st.1;
            trace := trace st.1 ++ [EvType (Label node); EvClose (Label node)] |}, st.2)) /\
  (Type_ node = ChanceNode ->
     runHelper c node lp sp tp st =
     (world (node_Type node) ;;;
      i <- world (node_SampleChild node) ;;
      ev <- match index (Children node) i with
            | Some child => runHelper c child lp sp tp
            | None => panic
            end ;;
      world (node_Close node) ;;;
      ret ev)%go st) /\
  (forall kids1 kids2, agree_at lp sp tp kids1 kids2 ->
     handleChanceNode node kids1 lp sp tp st = handleChanceNode node kids2 lp sp tp st) /\
  (forall kids1 kids2, agree_at (Player node) sp tp kids1 kids2 ->
     handleSampledPlayerNode node kids1 sp tp st =
     handleSampledPlayerNode node kids2 sp tp st) /\
  (forall kids1 kids2,
     agree_at (Player node) (mul (div one (of_int (NumChildren node))) sp) tp kids1 kids2 ->
     handleTraversingPlayerNode c node kids1 sp tp st =
     handleTraversingPlayerNode c node kids2 sp tp st) /\
  (Type_ node = PlayerNode ->
     runHelper c node lp sp tp st =
     (world (node_Type node) ;;;
      v <- (if decide (tp = Player node)
            then handleTraversingPlayerNode c node (map (runHelper c) (Children node)) sp tp
            else handleSampledPlayerNode node (map (runHelper c) (Children node)) sp tp) ;;
      world (node_Close node) ;;;
      ret (mul (getSign lp (Player node)) v))%go st).
Proof.
  split; [|split; [|split; [|split; [|split]]]].
  - intros Hty. rewrite runHelper_unfold.
    unfold runHelper_body, bind, world, node_Type, node_Close, emit, bind, ret. cbn.
    rewrite Hty. cbn. now rewrite <- app_assoc.
  - intros Hty. rewrite runHelper_unfold. unfold runHelper_body.
    apply bind_ext. intros ty st1 ->%node_Type_value. rewrite Hty.
    unfold handleChanceNode. rewrite bind_assoc.
    apply bind_ext. intros i st2 _. unfold bind, GetChild.
    rewrite index_map. now destruct (index (Children node) i).
  - intros kids1 kids2 Hag. unfold handleChanceNode. apply bind_ext.
    intros i st1 _. now apply agree_child.
  - intros kids1 kids2 Hag. unfold handleSampledPlayerNode.
    apply bind_ext. intros policy st1 _. apply bind_ext. intros st1' st1'' _.
    apply bind_ext. intros i st2 _. apply bind_ext. intros _ st3 _.
    now apply agree_child.
  - intros kids1 kids2 Hag. unfold handleTraversingPlayerNode.
    apply bind_ext. intros policy st1 _. apply bind_ext. intros strategy st2 _.
    apply bind_ext. intros sel st3 _. apply bind_ext. intros regrets st4 _.
    unfold slice_scope. unfold bind at 1 5.
    now rewrite (agree_traversing_loop kids1 kids2).
  - intros Hty. rewrite runHelper_unfold. unfold runHelper_body.
    apply bind_ext. intros ty st1 ->%node_Type_value. rewrite Hty.
    rewrite bind_assoc. unfold handlePlayerNode. reflexivity.
Qed.

End SampleProbFacts.

(** ** Robust sampling: the traversing player's node *)

Section TraversingFacts.
Import f32 cfr RobustSampling.

Lemma GetPolicy_Ok node pt np pt1 :
  GetPolicy node pt = Ok np pt1 ->
  np = Key node (Player node) /\
  exists pol, policiesByKey pt1 !! np = Some pol /\ NumActions pol = NumChildren node.
Proof.
  unfold GetPolicy.
  destruct (policiesByKey pt !! Key node (Player node)) as [pol|] eqn:Hpol; cbn.
  - destruct (decide _) as [|Heq]; [discriminate|]. intros [= <- <-]. split; [done|].
    exists pol. cbn. split; [done|]. now apply dec_stable.
  - destruct (decide _) as [|Heq]; [discriminate|]. intros [= <- <-]. split; [done|].
    exists (policy_New (NumChildren node)). cbn. split; [apply lookup_insert_eq|done].
Qed.

Lemma world_in_profile_Ok {A} (m : M PolicyTable A) (st : St) a st1 :
  world (in_profile m) st = Ok a st1 ->
  exists pt1, m (profile st.1) = Ok a pt1 /\
    st1 = ({| profile := pt1; pool := pool st.1; rng := rng st.1; trace := trace st.1 |}, st.2).
Proof.
  unfold world, in_profile. destruct (m (profile st.1)) as [a' pt1|pt1]; [|discriminate].
  intros [= <- <-]. eauto.
Qed.

Lemma policy_read_Ok {A} np (f : Policy -> A) pt a pt1 :
  policy_read np f pt = Ok a pt1 ->
  pt1 = pt /\ exists pol, policiesByKey pt !! np = Some pol /\ a = f pol.
Proof.
  unfold policy_read. destruct (policiesByKey pt !! np) as [pol|]; [|discriminate].
  intros [= <- <-]. eauto.
Qed.

Lemma policy_update_Ok np f pt pt1 :
  policy_update np f pt = Ok tt pt1 ->
  exists pol, policiesByKey pt !! np = Some pol /\
    pt1 = {| params := params pt; iter := iter pt;
             policiesByKey := <[np := f pol]> (policiesByKey pt);
             mayNeedUpdate := mayNeedUpdate pt |}.
Proof.
  unfold policy_update. destruct (policiesByKey pt !! np) as [pol|]; [|discriminate].
  intros [= <-]. eauto.
Qed.

Lemma world_alloc_Ok n (st : St) x st1 :
  world (alloc n) st = Ok x st1 ->
  length x = Z.to_nat n /\
  (pool st.1 = [] -> x = replicate (Z.to_nat n) zero) /\
  exists pool1,
    st1 = ({| profile := profile st.1; pool := pool1; rng := rng st.1;
              trace := trace st.1 |}, st.2).
Proof.
  unfold world, alloc. destruct st as [[pf [|b rest] r t] cache]; cbn; intros [= <- <-].
  - rewrite length_replicate. eauto.
  - rewrite length_resize. split; [done|]. split; [done|]. eauto.
Qed.

(** The loop against the children evaluated in order. *)
Lemma traversing_loop_Ok kids strategy player q sp tp sel :
  forall cf st x v st' x',
  traversing_loop kids strategy player q sp tp sel cf (st, x) = Ok v (st', x') ->
  exists utils,
    run_selected kids player (mul q sp) tp sel st = Ok utils st' /\
    length utils = length sel /\
    v = foldl (fun acc iu => add acc (mul (default zero (index strategy iu.1)) iu.2)) cf
          (zip sel utils) /\
    x' = collected x sel utils /\
    (forall i, i ∈ sel -> 0 <= i < Z.of_nat (length x)).
Proof.
  induction sel as [|i sel IH]; intros cf st x v st' x' Hrun.
  - injection Hrun as <- <- <-. exists []. repeat split; try done.
    all: match goal with Hj : _ ∈ [] |- _ => now apply elem_of_nil in Hj end.
  - cbn [traversing_loop] in Hrun.
    apply bind_Ok in Hrun as (child & sx1 & Hchild & Hrun).
    unfold GetChild in Hchild. destruct (index kids i) as [ev|] eqn:Hev; [|discriminate].
    injection Hchild as <- <-.
    apply bind_Ok in Hrun as (p & sx2 & Hp & Hrun).
    destruct (index strategy i) as [p'|] eqn:Hstrat; [|discriminate].
    injection Hp as <- <-.
    apply bind_Ok in Hrun as (util & sx3 & Hutil & Hrun).
    unfold with_slice in Hutil. cbn in Hutil.
    destruct (ev player (mul q sp) tp st) as [util' st1|] eqn:Hev'; [|discriminate].
    injection Hutil as <- <-.
    apply bind_Ok in Hrun as ([] & sx4 & Hset & Hrun).
    unfold slice_set in Hset. cbn in Hset.
    destruct (decide _) as [Hi|]; [|discriminate]. injection Hset as <-.
    apply IH in Hrun as (utils & Hrest & Hlen & Hv & Hx & Hin).
    exists (util' :: utils). split; [|split; [|split; [|split]]].
    + cbn [run_selected]. unfold bind, GetChild. rewrite Hev. cbn. rewrite Hev'.
      now rewrite Hrest.
    + cbn. now rewrite Hlen.
    + cbn. now rewrite Hstrat.
    + done.
    + intros j [->|Hj]%elem_of_cons; [done|].
      specialize (Hin j Hj). now rewrite length_insert in Hin.
Qed.

Lemma collected_length x sel utils : length (collected x sel utils) = length x.
Proof.
  unfold collected. revert x utils. induction sel as [|i sel IH]; intros x [|u utils]; try done.
  cbn. now rewrite IH, length_insert.
Qed.

(** An index that was not selected keeps what the slice held. *)
Lemma collected_other x sel utils j :
  0 <= j -> (forall i, i ∈ sel -> 0 <= i) -> j ∉ sel ->
  collected x sel utils !! Z.to_nat j = x !! Z.to_nat j.
Proof.
  unfold collected. revert x utils.
  induction sel as [|i sel IH]; intros x [|u utils] Hj Hpos Hnot; try done.
  cbn. rewrite IH; [|done| |].
  - apply list_lookup_insert_ne. intros E.
    apply Z2Nat.inj in E; [|apply Hpos; left|done]. subst. apply Hnot. left.
  - intros i' Hi'. apply Hpos. now right.
  - intros Hin. apply Hnot. now right.
Qed.

(** A selected index holds the value of its child. *)
Lemma collected_selected x sel utils p i u :
  NoDup sel -> (forall i, i ∈ sel -> 0 <= i < Z.of_nat (length x)) ->
  sel !! p = Some i -> utils !! p = Some u ->
  collected x sel utils !! Z.to_nat i = Some u.
Proof.
  unfold collected. revert x utils p.
  induction sel as [|i0 sel IH]; intros x [|u0 utils] p Hnd Hin Hi Hu; try done.
  apply NoDup_cons in Hnd as [Hfresh Hnd]. destruct p as [|p]; cbn in Hi, Hu |- *.
  - injection Hi as ->. injection Hu as ->.
    change (foldl _ ?y (zip sel utils)) with (collected y sel utils).
    rewrite collected_other; [| | |done].
    + apply list_lookup_insert_eq. specialize (Hin i ltac:(left)). lia.
    + specialize (Hin i ltac:(left)). lia.
    + intros i' Hi'. specialize (Hin i' ltac:(now right)). lia.
  - apply (IH _ _ p); try done.
    intros i' Hi'. rewrite length_insert. apply Hin. now right.
Qed.

Lemma index_AddConst cst x j : index (AddConst cst x) j = add cst <$> index x j.
Proof. unfold index, AddConst. destruct (j <? 0); [done|]. apply list_lookup_fmap. Qed.

(** C1, as amended: whenever the handler of a traversing-player node
    returns, [k] not negative: it has selected min(k, numChildren)
    distinct actions uniformly at random without replacement, by
    shuffle-and-take: all the actions, with nothing drawn, when [k] is at
    least their number, and otherwise the first [k] entries of the
    shuffle of the actions, which takes numChildren - 1 values of the
    random source and whose orders correspond one to one to the
    sequences of its draws (two shuffles give the same order exactly when
    their draws agree, and every order of the actions is given by some
    draws).  It has evaluated each selected action with the sampling
    probability [q * sampleProb], [q = 1 / numChildren], stored each
    value at the index of its action in the slice got from the pool, and
    returns [cfValue], the strategy-weighted sum of the values.  It
    subtracted [cfValue] from every entry of the slice, sampled or not: a
    sampled entry holds its value minus [cfValue], and an unsampled entry
    that was zero when the slice was got, as all are on a new slice,
    holds zero minus [cfValue].  AddRegret was called on the policy of
    the node with scale [1 / q] and that slice, and the slice was
    freed. *)
Theorem traversing_node_regrets c node kids sp tp (st : St) v st' :
  handleTraversingPlayerNode c node kids sp tp st = Ok v st' -> 0 <= k c ->
  let n := NumChildren node in
  let q := div one (of_int n) in
  let policy := Key node (Player node) in
  exists pt1 pol sel r3 regs0 pool3 utils st4 pol4,
    let w1 := {| profile := pt1; pool := pool st.1; rng := rng st.1;
                 trace := trace st.1 |} in
    let w3 := {| profile := pt1; pool := pool st.1; rng := r3; trace := trace st.1 |} in
    GetPolicy node (profile st.1) = Ok policy pt1 /\
    policiesByKey pt1 !! policy = Some pol /\
    select_actions c n (w1, st.2) = Ok sel (w3, st.2) /\
    Z.of_nat (length sel) = Z.min (k c) n /\ NoDup sel /\
    (forall i, i ∈ sel -> 0 <= i < n) /\
    (n <= k c -> sel = arange n /\ r3 = rng st.1) /\
    (k c < n ->
       exists shuffled,
         Shuffle (arange n) w1 = Ok shuffled w3 /\
         sel = take (Z.to_nat (k c)) shuffled /\
         shuffled ≡ₚ arange n /\
         r3 = rand_skip (Z.to_nat n - 1) (rng st.1) /\
         (forall w2 l2 w2',
            Shuffle (arange n) w2 = Ok l2 w2' ->
            (shuffled = l2 <->
             forall t, (S t < length (arange n))%nat ->
               raw (rng st.1) (cursor (rng st.1) + t)%nat
                 mod (Z.of_nat (length (arange n)) - Z.of_nat t) =
               raw (rng w2) (cursor (rng w2) + t)%nat
                 mod (Z.of_nat (length (arange n)) - Z.of_nat t))) /\
         (forall target, target ≡ₚ arange n ->
            exists r w2',
              Shuffle (arange n)
                {| profile := pt1; pool := pool st.1; rng := r; trace := trace st.1 |} =
                Ok target w2')) /\
    alloc n w3 =
      Ok regs0 {| profile := pt1; pool := pool3; rng := r3; trace := trace st.1 |} /\
    length regs0 = Z.to_nat n /\
    (pool st.1 = [] -> regs0 = replicate (Z.to_nat n) zero) /\
    run_selected kids (Player node) (mul q sp) tp sel
      ({| profile := pt1; pool := pool3; rng := r3; trace := trace st.1 |}, st.2) =
      Ok utils st4 /\
    length utils = length sel /\
    v = weighted (GetStrategy pol) sel utils /\
    let regrets := AddConst (neg v) (collected regs0 sel utils) in
    (forall p i u, sel !! p = Some i -> utils !! p = Some u ->
       index regrets i = Some (add (neg v) u)) /\
    (forall j, 0 <= j < n -> j ∉ sel -> index regs0 j = Some zero ->
       index regrets j = Some (add (neg v) zero)) /\
    policiesByKey (profile st4.1) !! policy = Some pol4 /\
    st' = (free regrets
             {| profile :=
                  {| params := params (profile st4.1); iter := iter (profile st4.1);
                     policiesByKey :=
                       <[policy := AddRegret (div one q) regrets pol4]>
                         (policiesByKey (profile st4.1));
                     mayNeedUpdate := mayNeedUpdate (profile st4.1) |};
                pool := pool st4.1; rng := rng st4.1; trace := trace st4.1 |},
           st4.2).
Proof.
  intros Hrun Hk n q policy. unfold handleTraversingPlayerNode in Hrun.
  fold n q in Hrun.
  assert (0 <= n) as Hn by (unfold n, NumChildren; lia).
  apply bind_Ok in Hrun as (np & st1 & Hpolicy & Hrun).
  apply world_in_profile_Ok in Hpolicy as (pt1 & Hget & ->).
  destruct (GetPolicy_Ok _ _ _ _ Hget) as (-> & pol & Hpol & _). fold policy in Hget, Hpol, Hrun.
  apply bind_Ok in Hrun as (strategy & st2 & Hstrat & Hrun).
  apply world_in_profile_Ok in Hstrat as (pt2 & Hread & ->). cbn in Hread.
  apply policy_read_Ok in Hread as (-> & pol' & Hpol' & ->).
  rewrite Hpol in Hpol'. injection Hpol' as <-.
  apply bind_Ok in Hrun as (sel & st3 & Hsel & Hrun).
  cbn [fst snd profile pool rng trace] in Hsel.
  set (w1 := {| profile := pt1; pool := pool st.1; rng := rng st.1;
                trace := trace st.1 |}) in *.
  destruct (select_actions_spec c n (w1, st.2) Hn) as [Hok _].
  destruct (Hok Hk) as (sel' & r3 & Hsel' & Hlen & Hnd & Hrange).
  destruct (select_actions_eval c n (w1, st.2) Hn Hk) as (sel2 & r2 & Hsel2 & Hall & Hshuf).
  rewrite Hsel' in Hsel2. injection Hsel2 as <- <-.
  pose proof Hsel' as Hselect.
  rewrite Hsel' in Hsel. injection Hsel as <- <-. cbn [fst snd profile pool trace w1] in Hrun.
  apply bind_Ok in Hrun as (regs0 & st3 & Halloc & Hrun).
  pose proof Halloc as Halloc'.
  apply world_alloc_Ok in Halloc as (Hregs & Hfresh & pool3 & ->).
  cbn [fst snd profile pool rng trace] in Hrun, Hfresh.
  unfold slice_scope in Hrun.
  match type of Hrun with
  | match ?m ?s with _ => _ end = _ => destruct (m s) as [a sx5|sx5] eqn:Hbody
  end; [|now destruct sx5].
  destruct sx5 as [st5 x5]. injection Hrun as -> <-.
  apply bind_Ok in Hbody as (cf & [st4 x4] & Hloop & Hbody).
  apply traversing_loop_Ok in Hloop as (utils & Hkids & Hlu & Hcf & Hx4 & Hinx).
  apply bind_Ok in Hbody as ([] & sx & Hmod & Hbody). injection Hmod as <-.
  apply bind_Ok in Hbody as (sx' & sx'' & Hg & Hbody). injection Hg as <- <-.
  apply bind_Ok in Hbody as ([] & sx3 & Hupd & Hbody). injection Hbody as <- ->.
  unfold with_slice in Hupd. cbn [fst snd] in Hupd.
  match type of Hupd with
  | match ?m ?s with _ => _ end = _ => destruct (m s) as [[] st6|st6] eqn:Hupd'
  end; [|discriminate].
  injection Hupd as <- <-.
  apply world_in_profile_Ok in Hupd' as (pt6 & Hupd' & ->).
  apply policy_update_Ok in Hupd' as (pol4 & Hpol4 & ->).
  exists pt1, pol, sel', r3, regs0, pool3, utils, st4, pol4.
  subst x4. fold (weighted (GetStrategy pol) sel' utils) in Hcf. subst cf.
  cbn zeta. fold w1.
  split; [done|]. split; [done|]. split; [exact Hselect|]. split; [done|].
  split; [done|]. split; [done|]. split; [exact Hall|].
  split.
  { intros Hlt. destruct (Hshuf Hlt) as (shuffled & Hrun2 & Htake & Hr3).
    cbn [fst] in Hrun2. exists shuffled.
    assert (NoDup (arange n)) as Hnda by apply NoDup_seqZ.
    split; [exact Hrun2|]. split; [exact Htake|].
    destruct (Shuffle_eval _ _ _ _ _ _ _ Hnda Hrun2 Hrun2) as (Hperm & _ & _).
    split; [exact Hperm|]. split; [exact Hr3|]. split.
    - intros w2 l2 w2' Hrun3.
      destruct (Shuffle_eval _ _ _ _ _ _ _ Hnda Hrun2 Hrun3) as (_ & _ & Hiff).
      exact Hiff.
    - intros target Htarget.
      destruct (Shuffle_onto (arange n) target w1 Hnda Htarget) as (r & w2' & Hrun3).
      exists r, w2'. exact Hrun3. }
  split.
  { unfold world in Halloc'. cbn [fst snd] in Halloc'.
    destruct (alloc n _) as [x wx|wx] eqn:Ha; [|discriminate].
    injection Halloc' as -> ->. reflexivity. }
  repeat (split; [done|]). split; [|split; [|split; [done|reflexivity]]].
  - intros p i u Hi Hu. rewrite index_AddConst.
    assert (i ∈ sel') as Hin by (eapply list_elem_of_lookup_2, Hi).
    unfold index. destruct (Z.ltb_spec i 0); [specialize (Hrange i Hin); lia|].
    now rewrite (collected_selected regs0 sel' utils p i u).
  - intros j Hj Hnot Hzero. rewrite index_AddConst.
    assert (index (collected regs0 sel' utils) j = index regs0 j) as ->.
    { unfold index. destruct (Z.ltb_spec j 0); [lia|].
      apply collected_other; [lia| |done].
      intros i Hi. specialize (Hrange i Hi). lia. }
    now rewrite Hzero.
Qed.

End TraversingFacts.

(** ** The traversal engines on sample data *)

Section EngineExamples.
Import f32 cfr RobustSampling traces cfr_example.

(** C1 as stated fails: with k = 2 of the three actions of the node
    sampled on a fresh table and pool, the action never entered (the
    first, node 1) does not get zero regret: the slice passed to
    AddRegret is [-12; 3; 9] and the regret of the action is -36. *)
Lemma unsampled_action_regret :
  exists v w' pol,
    Run {| k := 2 |} three (world0 2 0) = Ok v w' /\
    v = of_int 12 /\
    trace w' = [EvType 0; EvType 3; EvClose 3; EvType 2; EvClose 2; EvClose 0] /\
    pool w' = [[of_int (-12); of_int 3; of_int 9]] /\
    policiesByKey (profile (world0 2 0)) !! "root" = None /\
    policiesByKey (profile w') !! "root" = Some pol /\
    regretSum pol = [of_int (-36); of_int 9; of_int 27] /\
    regretSum pol !! 0%nat <> Some zero.
Proof.
  eexists _, _, _. split; [vm_compute; reflexivity|].
  repeat (split; [vm_compute; reflexivity|]). vm_compute. discriminate.
Qed.

Lemma traversing_node_regrets_witness :
  exists v st',
    handleTraversingPlayerNode {| k := 2 |} three
      (map (runHelper {| k := 2 |}) (Children three)) one 0 (world0 2 0, ∅) = Ok v st' /\
    0 <= k {| k := 2 |} /\
    exists sel utils regs0,
      sel = [2; 1] /\
      Z.of_nat (length sel) = Z.min 2 3 /\ NoDup sel /\ length utils = length sel /\
      v = weighted (replicate 3 (div one (of_int 3))) sel utils /\
      regs0 = replicate 3 zero /\
      index (AddConst (neg v) (collected regs0 sel utils)) 0 = Some (add (neg v) zero).
Proof.
  destruct (handleTraversingPlayerNode {| k := 2 |} three
              (map (runHelper {| k := 2 |}) (Children three)) one 0 (world0 2 0, ∅))
    as [v st'|st'] eqn:Hrun; [|vm_compute in Hrun; discriminate].
  assert (0 <= k {| k := 2 |}) as Hk by (cbn; lia).
  exists v, st'. split; [reflexivity|]. split; [exact Hk|].
  destruct (traversing_node_regrets _ _ _ _ _ _ _ _ Hrun Hk)
    as (pt1 & pol & sel & r3 & regs0 & pool3 & utils & st4 & pol4 &
        Hget & Hpol & Hselect & Hlen & Hnd & _ & _ & _ & _ & _ & Hfresh & _ & Hlu & Hv &
        _ & Hunsampled & _).
  exists sel, utils, regs0.
  vm_compute in Hget. injection Hget as <-.
  vm_compute in Hpol. injection Hpol as <-.
  vm_compute in Hselect. injection Hselect as <- <-.
  specialize (Hfresh eq_refl). subst regs0.
  split; [reflexivity|]. split; [exact Hlen|]. split; [exact Hnd|]. split; [exact Hlu|].
  split; [exact Hv|]. split; [reflexivity|].
  apply (Hunsampled 0).
  - change (0 <= 0 < 3). lia.
  - intros Hin. apply elem_of_cons in Hin as [Hin|Hin]; [discriminate|].
    apply elem_of_cons in Hin as [Hin|Hin]; [discriminate|]. now apply elem_of_nil in Hin.
  - reflexivity.
Defined.

Lemma GetPolicy_action_count_witness :
  policiesByKey (profile (world0 1 0)) !! Key three (Player three) = None /\
  Key two_of_key (Player two_of_key) = Key three (Player three) /\
  NumChildren two_of_key <> NumChildren three /\
  exists pt', GetPolicy three (profile (world0 1 0)) = Ok "root" pt' /\
    GetPolicy two_of_key pt' = Panic pt'.
Proof.
  assert (NumChildren two_of_key <> NumChildren three) as Hne by (vm_compute; discriminate).
  split; [reflexivity|]. split; [reflexivity|]. split; [exact Hne|].
  destruct (GetPolicy_action_count three (profile (world0 1 0)))
    as (Hnew & _ & _ & Htwice).
  destruct (Hnew eq_refl) as (pt' & Hget & _).
  specialize (Htwice two_of_key eq_refl Hne). rewrite Hget in Htwice.
  exists pt'. split; [exact Hget|exact Htwice].
Defined.

Lemma sampleProb_flow_witness :
  Type_ (leaf 1 3) = TerminalNode /\
  runHelper {| k := 2 |} (leaf 1 3) 0 (div one (of_int 3)) 0 (world0 2 0, ∅) =
  Ok (div (of_float64 (Utility (leaf 1 3) 0)) (div one (of_int 3)))
     ({| profile := profile (world0 2 0); pool := []; rng := draws 0;
         trace := [EvType 1; EvClose 1] |}, ∅).
Proof.
  split; [reflexivity|].
  destruct (sampleProb_flow {| k := 2 |} (leaf 1 3) 0 (div one (of_int 3)) 0 (world0 2 0, ∅))
    as (Hterminal & _).
  exact (Hterminal eq_refl).
Defined.

Lemma sampled_action_cached_witness :
  ({["root" := 1]} : gmap string Z) !! Key three (Player three) = Some 1 /\
  handleSampledPlayerNode three (map (runHelper {| k := 2 |}) (Children three)) one 1
    (world0 1 0, {["root" := 1]}) =
  (policy <- world (in_profile (GetPolicy three)) ;;
   world (in_profile (policy_update policy (AddStrategyWeight (div one one)))) ;;;
   child <- GetChild (map (runHelper {| k := 2 |}) (Children three)) 1 ;;
   child (Player three) one 1)%go (world0 1 0, {["root" := 1]}).
Proof.
  split; [reflexivity|].
  destruct (sampled_action_cached {| k := 2 |} three
              (map (runHelper {| k := 2 |}) (Children three)) one 1 (world0 1 0)
              {["root" := 1]}) as (Hcached & _).
  exact (Hcached 1 eq_refl).
Defined.

Lemma labels_three_NoDup : NoDup (labels three).
Proof. apply (bool_decide_unpack _). vm_compute. reflexivity. Qed.

Lemma Close_after_value_witness :
  exists v st',
    runHelper {| k := 2 |} three 0 one 0 (world0 2 0, ∅) = Ok v st' /\
    NoDup (labels three) /\
    exists t, trace st'.1 = trace (world0 2 0) ++ t /\ nested three t /\
      closed 0 t = 1%nat /\ closed 1 t = entered 1 t.
Proof.
  destruct (runHelper {| k := 2 |} three 0 one 0 (world0 2 0, ∅))
    as [v st'|st'] eqn:Hrun; [|vm_compute in Hrun; discriminate].
  pose proof labels_three_NoDup as Hnd.
  exists v, st'. split; [reflexivity|]. split; [exact Hnd|].
  destruct Close_after_value as [Hrobust _].
  destruct (Hrobust _ _ _ _ _ _ _ _ Hrun) as (t & Ht & Hnested & Hcount).
  exists t. split; [exact Ht|]. split; [exact Hnested|]. split.
  - destruct (Hcount 0%nat) as (_ & _ & Hone). apply Hone; [exact Hnd|].
    inversion Hnested; subst. rewrite entered_cons.
    destruct (decide _) as [_|Hne]; [lia|now destruct Hne].
  - apply (Hcount 1%nat).
Defined.

Lemma Run_alternates_witness :
  0 <= Iter (profile (world0 1 0)) < MaxInt /\
  Z.rem (Iter (profile (world0 1 0))) 2 = 1 /\
  Z.rem (Iter (Update (profile (world0 1 0)))) 2 = 0.
Proof.
  assert (0 <= Iter (profile (world0 1 0)) < MaxInt) as Hi by (cbn; unfold MaxInt; lia).
  split; [exact Hi|]. split; [reflexivity|].
  destruct (Run_alternates {| k := 2 |} three (world0 1 0)) as (_ & _ & Halt).
  destruct (Halt Hi) as (_ & _ & Hflip). rewrite Hflip. reflexivity.
Defined.

End EngineExamples.


(* ===================================================================== *)
(** * Further properties *)
(* ===================================================================== *)

(** ** The reservoir buffer: writes, panics and the lock *)

Section ReservoirWrites.
Import ldbstore.
Context {Sample : Type}.
Variable enc : Sample -> option bytes.
Variable dec : bytes -> option Sample.
Variable seeks : nat -> nat.

Lemma slot_key_int_inj i j : is_int i -> is_int j -> slot_key i = slot_key j -> i = j.
Proof.
  unfold is_int, MinInt, MaxInt. intros Hi Hj E. apply (f_equal uvarint) in E.
  rewrite !uvarint_slot_key in E. unfold to_uint64 in E.
  pose proof (Z.div_mod i (2 ^ 64)). pose proof (Z.div_mod j (2 ^ 64)). lia.
Qed.

(** putSample on an open store writes the encoding of the sample under
    the key of its index and nothing else: the value is read back under
    that key, the slot of every other index is as it was, as is every
    other store of the disk, the buffer and the random source; a sample
    that does not encode is a panic that leaves the state untouched. *)
Theorem putSample_slot idx s st h store :
  db (buf st) = Some h -> db_closed h = false -> disk st !! db_path h = Some store ->
  is_int idx ->
  match enc s with
  | Some v =>
      exists st' store',
        putSample enc idx s st = Ok tt st' /\
        buf st' = buf st /\ rng st' = rng st /\
        disk st' !! db_path h = Some store' /\
        store' !! slot_key idx = Some v /\
        (forall j, is_int j -> j <> idx -> store' !! slot_key j = store !! slot_key j) /\
        (forall p, p <> db_path h -> disk st' !! p = disk st !! p)
  | None => putSample enc idx s st = Panic st
  end.
Proof.
  intros Hdb Hopen Hstore Hidx. destruct (enc s) as [v|] eqn:Hv.
  - eexists _, _. split; [now apply (putSample_ok enc idx s v st h store)|].
    cbn. split; [done|]. split; [done|]. split; [apply lookup_insert_eq|].
    split; [apply lookup_insert_eq|]. split.
    + intros j Hj Hne. rewrite lookup_insert_ne; [done|].
      intros E. apply slot_key_int_inj in E; done.
    + intros p Hp. now rewrite lookup_insert_ne.
  - unfold putSample. now rewrite PutUvarint_slot_key, Hv.
Qed.

Lemma AddSample_outcome s st :
  mx (buf st) = false ->
  match AddSample enc s st with
  | Ok _ st' | Panic st' =>
      buf st' = with_n (wrap_int (n (buf st) + 1)) (buf st) /\
      exists mid, log st' = log st ++ EvLock :: mid ++ [EvUnlock]
  end.
Proof.
  intros Hmx.
  unfold AddSample, bind, Lock, defer, AddSample_body, bind, incr_n, get. rewrite Hmx.
  cbn [buf n maxSize emit set_buf with_n with_mx].
  assert (forall idx st0 pre,
            log st0 = log st ++ EvLock :: pre ->
            match putSample enc idx s st0 with
            | Ok _ st1 | Panic st1 =>
                buf st1 = buf st0 /\ exists mid, log st1 = log st ++ EvLock :: mid
            end) as Hput.
  { intros idx st0 pre Hlog. unfold putSample.
    destruct (PutUvarint _) as [key|]; [|eauto]. destruct (enc s) as [v|]; [|eauto].
    destruct (db (buf st0)); [|eauto].
    destruct (leveldb_Put _ _ _ _) as [[e|] d']; cbn; [eauto|].
    split; [done|]. rewrite Hlog. exists (pre ++ [EvPut key v]).
    now rewrite <- app_assoc. }
  assert (forall (o : outcome state unit),
            match o with
            | Ok _ st1 | Panic st1 =>
                buf st1 = with_n (wrap_int (n (buf st) + 1)) (with_mx true (buf st)) /\
                exists mid, log st1 = log st ++ EvLock :: mid
            end ->
            match (match o with
                   | Ok a s' => Ok a (Unlock s')
                   | Panic s' => Panic (Unlock s')
                   end) with
            | Ok _ st' | Panic st' =>
                buf st' = with_n (wrap_int (n (buf st) + 1)) (buf st) /\
                exists mid, log st' = log st ++ EvLock :: mid ++ [EvUnlock]
            end) as Hfin.
  { intros o Ho. destruct o as [a st1|st1]; destruct Ho as [Hb [mid Hl]];
      cbn [Unlock buf log emit set_buf]; rewrite Hb, Hl, set_buf_unlock by done;
      (split; [done|]); exists mid; now rewrite <- app_assoc. }
  destruct (Z.leb_spec (wrap_int (n (buf st) + 1)) (maxSize (buf st))).
  - match goal with |- context [putSample enc ?i s ?s0] =>
      apply (Hfin (putSample enc i s s0));
      apply (Hput i s0 [EvSetN (wrap_int (n (buf st) + 1))])
    end.
    cbn [log emit set_buf]. rewrite <- app_assoc. reflexivity.
  - unfold Intn. cbn [rng emit set_buf].
    destruct (rand_Intn _ _) as [[m r']|].
    + destruct (m <? maxSize (buf st)).
      * match goal with |- context [putSample enc ?i s ?s0] =>
          apply (Hfin (putSample enc i s s0));
          apply (Hput i s0 [EvSetN (wrap_int (n (buf st) + 1));
                            EvIntn (wrap_int (n (buf st) + 1)) m])
        end.
        cbn [log emit set_buf set_rng]. rewrite <- !app_assoc. reflexivity.
      * apply (Hfin (Ok tt _)). cbn [log buf emit set_buf set_rng]. split; [done|].
        eexists [_; _]. rewrite <- !app_assoc. reflexivity.
    + apply (Hfin (Panic _)). cbn [log buf emit set_buf set_rng]. split; [done|].
      eexists [_]. rewrite <- !app_assoc. reflexivity.
Qed.

(** Whatever AddSample meets, the write of the store failing or the
    sample not encoding, it ends with the mutex released and the count
    incremented: on a return and on a panic alike the buffer is the one
    before the call with the count one higher, and the log shows the
    Lock first and the Unlock last. *)
Theorem AddSample_unlocks s st :
  mx (buf st) = false ->
  match AddSample enc s st with
  | Ok _ st' | Panic st' =>
      buf st' = with_n (wrap_int (n (buf st) + 1)) (buf st) /\
      exists mid, log st' = log st ++ EvLock :: mid ++ [EvUnlock]
  end.
Proof. apply AddSample_outcome. Qed.

(** A sample that does not encode makes AddSample panic exactly when the
    sample would have been stored: while the buffer fills, and past the
    capacity when the draw falls below it.  Past the capacity with a draw
    at or above it the sample is dropped unencoded and the call returns.
    Either way the store is untouched, the mutex released, and the
    sample counted. *)
Theorem AddSample_unencodable s st h store :
  ready st h store -> 0 <= n (buf st) < MaxInt -> enc s = None ->
  let cnt := n (buf st) + 1 in
  let m := raw (rng st) (cursor (rng st)) mod cnt in
  (cnt <= maxSize (buf st) \/ m < maxSize (buf st) ->
     exists st', AddSample enc s st = Panic st' /\
       disk st' = disk st /\ n (buf st') = cnt /\ mx (buf st') = false) /\
  (maxSize (buf st) < cnt -> maxSize (buf st) <= m ->
     exists st', AddSample enc s st = Ok tt st' /\
       disk st' = disk st /\ n (buf st') = cnt /\ mx (buf st') = false).
Proof.
  intros (Hmx & Hdb & Hopen & Hstore) Hn Hs cnt m.
  assert (forall idx st0, putSample enc idx s st0 = Panic st0) as Hput.
  { intros idx st0. unfold putSample. now rewrite PutUvarint_slot_key, Hs. }
  assert (wrap_int (n (buf st) + 1) = cnt) as Hw.
  { apply wrap_int_id. unfold is_int, MinInt, MaxInt in *. lia. }
  split.
  - intros Hstored.
    unfold AddSample, bind, Lock, defer, AddSample_body, bind, incr_n, get. rewrite Hmx.
    cbn [buf n maxSize emit set_buf with_n with_mx]. rewrite Hw.
    destruct (Z.leb_spec cnt (maxSize (buf st))) as [Hle|Hgt].
    + rewrite Hput. eexists. split; [reflexivity|]. cbn. done.
    + destruct Hstored as [?|Hm]; [lia|].
      unfold Intn. cbn [rng emit set_buf]. rewrite rand_Intn_pos by lia.
      fold m. destruct (Z.ltb_spec m (maxSize (buf st))); [|lia].
      rewrite Hput. eexists. split; [reflexivity|]. cbn. done.
  - intros Hgt Hm. eexists. split.
    + apply (AddSample_discard enc s st); [done|lia|lia|exact Hm].
    + cbn. done.
Qed.

(** A buffer whose capacity is zero or negative stores nothing: every
    AddSample of a stream returns, whether or not the sample encodes and
    whether or not a store is open, the disk is as before, no write is
    logged, and the samples are counted all the same. *)
Theorem AddSamples_no_capacity ss : forall st,
  mx (buf st) = false -> maxSize (buf st) <= 0 ->
  0 <= n (buf st) -> n (buf st) + Z.of_nat (length ss) <= MaxInt ->
  exists st',
    AddSamples enc ss st = Ok tt st' /\
    disk st' = disk st /\ n (buf st') = n (buf st) + Z.of_nat (length ss) /\
    mx (buf st') = false /\ maxSize (buf st') = maxSize (buf st) /\
    forall key value, EvPut key value ∈ log st' -> EvPut key value ∈ log st.
Proof.
  induction ss as [|s ss IH]; intros st Hmx Hcap Hn Hlen.
  - exists st. cbn. repeat split; try done. lia.
  - cbn [length] in Hlen.
    assert (0 <= raw (rng st) (cursor (rng st)) mod (n (buf st) + 1) < n (buf st) + 1) as Hm
      by (apply Z.mod_pos_bound; lia).
    assert (exists st1, AddSample enc s st = Ok tt st1 /\
              st1 = {| buf := with_n (n (buf st) + 1) (buf st); disk := disk st;
                       locks := locks st;
                       rng := (rand_next (rng st)).2;
                       log := log st ++ [EvLock; EvSetN (n (buf st) + 1);
                                EvIntn (n (buf st) + 1)
                                  (raw (rng st) (cursor (rng st)) mod (n (buf st) + 1));
                                EvUnlock] |}) as (st1' & Hrun & Hst1).
    { eexists. split; [|reflexivity]. apply AddSample_discard; [done|lia|lia|lia]. }
    destruct (IH st1') as (st' & Hrun' & Hd & Hn' & Hmx' & Hsz & Hlog).
    { now subst st1'. } { now subst st1'. } { subst st1'. cbn. lia. } { subst st1'. cbn. lia. }
    subst st1'. exists st'. split.
    + cbn [AddSamples]. unfold bind. now rewrite Hrun.
    + split; [done|]. split; [rewrite Hn'; cbn [buf n with_n length]; lia|].
      split; [done|]. split; [done|].
      intros key value Hin. apply Hlog in Hin. cbn in Hin.
      rewrite elem_of_app in Hin. destruct Hin as [Hin|Hin]; [done|].
      repeat (apply elem_of_cons in Hin as [Hin|Hin]; [discriminate|]).
      now apply elem_of_nil in Hin.
Qed.

(** Close closes the store, releases its lock and keeps what it holds
    on the disk; after it a second Close reports that the store is
    closed, GetSamples panics on the error of its iterator, and an
    AddSample that has a sample to store panics on the error of the
    write, the sample counted and the mutex released. *)
Theorem Close_then_use s st h store :
  ready st h store ->
  exists st1,
    Close st = Ok None st1 /\ disk st1 = disk st /\ n (buf st1) = n (buf st) /\
    Close st1 = Ok (Some ErrClosed) st1 /\
    GetSamples dec seeks st1 = Panic st1 /\
    (0 <= n (buf st) < MaxInt -> n (buf st) + 1 <= maxSize (buf st) -> is_Some (enc s) ->
       exists st2,
         AddSample enc s st1 = Panic st2 /\ disk st2 = disk st /\
         mx (buf st2) = false /\ n (buf st2) = n (buf st) + 1) /\
    locks st1 = locks st ∖ {[db_path h]}.
Proof.
  intros (Hmx & Hdb & Hopen & Hstore).
  eexists. split; [|split; [|split; [|split; [|split; [|split]]]]].
  - unfold Close, leveldb_Close. rewrite Hdb, Hopen. reflexivity.
  - reflexivity.
  - reflexivity.
  - unfold Close, leveldb_Close, set_buf, set_locks. cbn.
    destruct st as [[] ? ? ? ?]; reflexivity.
  - unfold GetSamples, leveldb_scan. cbn. reflexivity.
  - intros Hn Hle [v Hv].
    unfold AddSample, bind, Lock, defer, AddSample_body, bind, incr_n, get.
    cbn [buf mx set_buf set_locks with_db]. rewrite Hmx.
    cbn [buf n maxSize db emit set_buf set_locks with_n with_mx with_db].
    rewrite wrap_int_id by (unfold is_int, MinInt, MaxInt in *; lia).
    destruct (Z.leb_spec (n (buf st) + 1) (maxSize (buf st))); [|lia].
    unfold putSample. rewrite PutUvarint_slot_key, Hv.
    cbn [buf db emit set_buf set_locks with_n with_mx with_db leveldb_Put db_closed].
    eexists. split; [reflexivity|]. cbn. done.
  - reflexivity.
Qed.

Lemma decode_entries_None es :
  Exists (fun e => dec e.2 = None) es -> decode_entries dec es = None.
Proof.
  induction 1 as [[k v] es Hv|[k v] es _ IH]; cbn in *.
  - now rewrite Hv.
  - destruct (dec v); [|done]. now rewrite IH.
Qed.

(** The loop stops at the first entry that does not decode. *)
Lemma decoded_stops es :
  Exists (fun e => dec e.2 = None) es ->
  exists e, es !! decoded dec es = Some e /\ dec e.2 = None /\
    forall j e', (j < decoded dec es)%nat -> es !! j = Some e' -> is_Some (dec e'.2).
Proof.
  induction 1 as [[k v] es Hv|[k v] es _ IH]; cbn in *.
  - rewrite Hv. exists (k, v). split; [done|]. split; [done|]. intros j e' Hj. lia.
  - destruct (dec v) as [s|] eqn:Hs.
    + destruct IH as (e & He & Hnone & Hbefore). exists e. split; [done|]. split; [done|].
      intros [|j] e' Hj; cbn.
      * intros [= <-]. cbn. rewrite Hs. eauto.
      * apply Hbefore. lia.
    + exists (k, v). split; [done|]. split; [done|]. intros j e' Hj. lia.
Qed.

(** GetSamples reads the whole store and nothing of the buffer but its
    handle: whatever the count, the capacity and the mutex, it returns
    one sample for every entry of the store, decoded from the entries in
    key order.  Of the state it changes the global random source only,
    from which its iterator has taken values: as many as an iterator
    takes that is advanced once more than the store has entries.  One
    value that does not decode makes it panic at the first such entry in
    key order, the iterator advanced up to that entry. *)
Theorem GetSamples_whole_store st h store :
  db (buf st) = Some h -> db_closed h = false -> disk st !! db_path h = Some store ->
  let es := merge_sort entry_le (map_to_list store) in
  ((forall k v, store !! k = Some v -> is_Some (dec v)) ->
     exists out,
       GetSamples dec seeks st = Ok out (scanned seeks (S (size store)) st) /\
       length out = size store /\
       Forall2 (fun e s => store !! e.1 = Some e.2 /\ dec e.2 = Some s) es out) /\
  (forall k v, store !! k = Some v -> dec v = None ->
     exists i e,
       es !! i = Some e /\ dec e.2 = None /\
       (forall j e', (j < i)%nat -> es !! j = Some e' -> is_Some (dec e'.2)) /\
       GetSamples dec seeks st = Panic (scanned seeks (S i) st)) /\
  (forall nexts,
     buf (scanned seeks nexts st) = buf st /\ disk (scanned seeks nexts st) = disk st /\
     locks (scanned seeks nexts st) = locks st /\ log (scanned seeks nexts st) = log st /\
     rng (scanned seeks nexts st) = rand_skip (seeks nexts) (rng st)).
Proof.
  intros Hdb Hopen Hstore es.
  assert (es ≡ₚ map_to_list store) as Hperm by apply merge_sort_Permutation.
  split; [|split].
  - intros Hall.
    assert (Forall (fun e => is_Some (dec e.2)) es) as Hes.
    { rewrite Hperm. apply Forall_forall. intros [k v] Hkv%elem_of_map_to_list.
      now apply (Hall k v). }
    exists (omap (fun e => dec e.2) es). split; [|split].
    + unfold GetSamples. rewrite Hdb. unfold leveldb_scan. rewrite Hopen, Hstore.
      fold es. rewrite (decode_entries_omap dec es Hes).
      assert (length es = size store) as ->; [|done].
      rewrite (Permutation_length Hperm). apply length_map_to_list.
    + pose proof (decode_entries_values dec es _ (decode_entries_omap dec es Hes)) as H2.
      rewrite <- (Forall2_length _ _ _ H2), Hperm. apply length_map_to_list.
    + pose proof (decode_entries_values dec es _ (decode_entries_omap dec es Hes)) as H2.
      assert (Forall (fun e => store !! e.1 = Some e.2) es) as Hin.
      { rewrite Hperm. apply Forall_forall. now intros [k v] Hkv%elem_of_map_to_list. }
      clear Hes Hperm. revert Hin. induction H2; intros Hin; constructor.
      * apply Forall_cons in Hin as [? ?]. done.
      * apply Forall_cons in Hin as [? ?]. auto.
  - intros k v Hk Hv.
    assert (Exists (fun e => dec e.2 = None) es) as Hex.
    { apply Exists_exists. exists (k, v). split; [|done].
      rewrite Hperm. now apply elem_of_map_to_list. }
    destruct (decoded_stops es Hex) as (e & He & Hnone & Hbefore).
    exists (decoded dec es), e. split; [done|]. split; [done|]. split; [done|].
    unfold GetSamples. rewrite Hdb. unfold leveldb_scan.
    rewrite Hopen, Hstore. fold es. now rewrite decode_entries_None.
  - intros nexts. done.
Qed.

Lemma AddSamples_buf ss : forall st st',
  mx (buf st) = false -> AddSamples enc ss st = Ok tt st' ->
  mx (buf st') = false /\ opts (buf st') = opts (buf st) /\ path (buf st') = path (buf st).
Proof.
  induction ss as [|s ss IH]; intros st st' Hmx.
  - now intros [= <-].
  - cbn [AddSamples]. unfold bind. pose proof (AddSample_outcome s st Hmx) as H1.
    destruct (AddSample enc s st) as [[] st1|]; [|discriminate].
    destruct H1 as [Hb _]. intros Hrun.
    destruct (IH st1 st') as (? & ? & ?); [now rewrite Hb|done|].
    rewrite Hb in *. done.
Qed.

(** A buffer made with nil options, as NewReservoirBuffer allows, cannot
    be encoded: GobEncode panics on it, at once and after any stream of
    samples added. *)
Theorem GobEncode_nil_options p cap lk d b lk' d' r l ss st' :
  NewReservoirBuffer p None cap lk d = (inl b, lk', d') ->
  GobEncode b = Panic tt /\
  (AddSamples enc ss {| buf := b; disk := d'; locks := lk'; rng := r; log := l |} = Ok tt st' ->
   GobEncode (buf st') = Panic tt).
Proof.
  unfold NewReservoirBuffer.
  destruct (leveldb_OpenFile p None lk d) as [[[h|e] lk0] d0]; [|discriminate].
  intros [= <- <- <-]. split; [reflexivity|].
  intros Hrun. apply AddSamples_buf in Hrun as (_ & Ho & _); [|done].
  unfold GobEncode. now rewrite Ho.
Qed.

Section Roundtrip.
Hypothesis gob_roundtrip : forall s v, enc s = Some v -> dec v = Some s.

(** NewReservoirBuffer on a path that has a store already, which no
    handle holds, opens it as it is and starts the count at zero: the
    first sample added overwrites slot 0, and GetSamples goes on
    returning as many samples as the store had, whatever the count
    says. *)
Theorem reopen_restarts_count p o cap lk d store slots s v r l :
  d !! p = Some store -> p ∉ lk -> holds enc store slots ->
  (0 < length slots)%nat -> Z.of_nat (length slots) < 2 ^ 64 ->
  ErrorIfExist (default defaultOptions o) = false -> 0 < cap -> enc s = Some v ->
  exists b st' store' out,
    NewReservoirBuffer p o cap lk d = (inl b, {[p]} ∪ lk, d) /\ n b = 0 /\
    AddSample enc s {| buf := b; disk := d; locks := {[p]} ∪ lk; rng := r; log := l |} =
      Ok tt st' /\
    n (buf st') = 1 /\
    disk st' !! p = Some store' /\ holds enc store' (<[0%nat := s]> slots) /\
    GetSamples dec seeks st' = Ok out (scanned seeks (S (length out)) st') /\
    out ≡ₚ <[0%nat := s]> slots /\
    length out = length slots.
Proof.
  intros Hstore Hfree Hholds Hpos Hlen Hexist Hcap Hv.
  set (h := {| db_path := p; db_closed := false |}).
  set (b := {| path := p; opts := o; maxSize := cap; mx := false; n := 0; db := Some h |}).
  set (st := {| buf := b; disk := d; locks := {[p]} ∪ lk; rng := r; log := l |}).
  assert (ready st h store) as Hready by done.
  pose proof (AddSample_fill enc s v st h store Hready) as Hrun.
  cbn [st buf b n maxSize] in Hrun.
  specialize (Hrun ltac:(unfold MaxInt; lia) Hv ltac:(lia)).
  match type of Hrun with _ = Ok tt ?x => set (st' := x) in * end.
  set (store' := <[slot_key 0 := v]> store).
  assert (ready st' h store') as Hready'.
  { repeat split; cbn; try done. apply lookup_insert_eq. }
  assert (holds enc store' (<[0%nat := s]> slots)) as Hholds'.
  { apply (holds_replace enc store slots 0 s v); done. }
  assert (Z.of_nat (length (<[0%nat := s]> slots)) < 2 ^ 64) as Hlen'
    by now rewrite length_insert.
  destruct (GetSamples_eval enc dec seeks gob_roundtrip st' h store' _ Hready' Hholds' Hlen')
    as (Hget & _ & _ & _ & Hout).
  exists b, st', store'. eexists.
  split; [|split; [|split; [|split; [|split; [|split; [|split; [|split]]]]]]].
  - unfold NewReservoirBuffer, leveldb_OpenFile. rewrite decide_False by done.
    now rewrite Hstore, Hexist.
  - reflexivity.
  - exact Hrun.
  - reflexivity.
  - apply Hready'.
  - exact Hholds'.
  - rewrite Hget. now rewrite (Permutation_length Hout).
  - exact Hout.
  - rewrite Hout. apply length_insert.
Qed.

(** The buffer against the reservoir kept as a list: on a fresh buffer a
    whole stream of encodable samples is added without a panic, and
    GetSamples then returns the samples the list reservoir keeps for the
    same stream and the same draws, with the same count and the random
    source as far on; up to a capacity of 256 it returns them in slot
    order. *)
Theorem AddSamples_reservoir p o cap lk d b lk' d' r l ss :
  NewReservoirBuffer p o cap lk d = (inl b, lk', d') -> d !! p = None -> 0 <= cap ->
  Z.of_nat (length ss) <= MaxInt -> Forall (fun s => is_Some (enc s)) ss ->
  exists st' out,
    AddSamples enc ss {| buf := b; disk := d'; locks := lk'; rng := r; log := l |} = Ok tt st' /\
    GetSamples dec seeks st' = Ok out (scanned seeks (S (length out)) st') /\
    n (buf st') = Z.of_nat (length ss) /\
    rng st' = (reservoir cap ss r).2 /\
    out ≡ₚ (reservoir cap ss r).1.1 /\
    (cap <= 256 -> out = (reservoir cap ss r).1.1).
Proof.
  intros Hnew Hfree Hcap Hlen Henc.
  destruct (fresh_refines enc p o cap lk d b lk' d' r l Hnew Hfree Hcap)
    as (Hdb & Hn & Hsz & Href).
  set (st0 := {| buf := b; disk := d'; locks := lk'; rng := r; log := l |}) in *.
  destruct (AddSamples_refines enc ss st0 _ [] Href) as (st' & Hrun & Hres).
  { cbn. rewrite Hn. lia. }
  { done. }
  cbn zeta in Hres. cbn [buf st0 rng] in Hres. rewrite Hn, Hsz in Hres.
  fold (reservoir cap ss r) in Hres.
  destruct Hres as (Href' & Hn' & Hr' & Hsz' & _).
  pose proof Href' as (store & Hready & Hholds & _ & Hslots).
  set (slots := (reservoir cap ss r).1.1) in *.
  assert (n (buf st') = Z.of_nat (length ss)) as Hcount.
  { rewrite Hn'. unfold reservoir. rewrite reservoir_count. lia. }
  assert (Z.of_nat (length slots) < 2 ^ 64) as Hlt.
  { rewrite Hslots, Hcount. unfold MaxInt in Hlen. lia. }
  destruct (GetSamples_eval enc dec seeks gob_roundtrip st' _ store slots Hready Hholds Hlt)
    as (Hget & _ & _ & _ & Hout).
  exists st'. eexists. split; [done|].
  split; [rewrite Hget; now rewrite (Permutation_length Hout)|]. split; [done|].
  split; [done|]. split; [exact Hout|].
  intros H256. rewrite (scan_slot_order enc store slots Hholds).
  - now destruct (slot_entries_decode enc dec gob_roundtrip store slots Hholds).
  - rewrite Hslots, Hsz'. lia.
Qed.

End Roundtrip.

(** A buffer with options survives being persisted: closed, encoded and
    decoded into another receiver over the same disk, it comes back
    with its path, capacity and count on a reopened store, and
    GetSamples returns from it what it returned before.  Close has
    released the lock of the store, so the reopening is not refused for
    it; the receiver must not bring an ErrorIfExist of its own, since the
    options it had are kept where the serialized ones are zero. *)
Theorem persist_roundtrip (seeks' : nat -> nat) b b0 o lk d store out r l st2 :
  opts b = Some o -> ErrorIfExist (gob_merge (opts b0) o) = false ->
  db b = Some {| db_path := path b; db_closed := false |} ->
  d !! path b = Some store ->
  GetSamples dec seeks {| buf := b; disk := d; locks := lk; rng := r; log := l |} =
    Ok out st2 ->
  exists st1 stream b',
    Close {| buf := b; disk := d; locks := lk; rng := r; log := l |} = Ok None st1 /\
    disk st1 = d /\ locks st1 = lk ∖ {[path b]} /\
    GobEncode (buf st1) = Ok (inl stream) tt /\
    GobDecode stream b0 (locks st1) d = (None, b', {[path b]} ∪ locks st1, d) /\
    n b' = n b /\ maxSize b' = maxSize b /\ path b' = path b /\
    opts b' = Some (set_ErrorIfMissing true (gob_merge (opts b0) o)) /\
    (opts b0 = None -> opts b' = Some (set_ErrorIfMissing true o)) /\
    forall r' l',
      let st3 := {| buf := b'; disk := d; locks := {[path b]} ∪ locks st1;
                    rng := r'; log := l' |} in
      GetSamples dec seeks' st3 = Ok out (scanned seeks' (S (length out)) st3).
Proof.
  intros Ho Hexist Hdb Hstore Hget.
  assert (path b ∉ lk ∖ {[path b]}) as Hfree.
  { intros [_ Hn]%elem_of_difference. apply Hn. now apply elem_of_singleton. }
  eexists _, _, _.
  split; [|split; [|split; [|split; [|split; [|split; [|split; [|split;
    [|split; [|split]]]]]]]]].
  - unfold Close, leveldb_Close. cbn [buf]. rewrite Hdb. reflexivity.
  - reflexivity.
  - reflexivity.
  - unfold GobEncode. cbn. rewrite Ho. reflexivity.
  - unfold GobDecode. cbn. unfold leveldb_OpenFile. cbn.
    rewrite decide_False by done. rewrite Hstore. cbn in Hexist. rewrite Hexist.
    reflexivity.
  - reflexivity.
  - reflexivity.
  - reflexivity.
  - reflexivity.
  - intros Hnil. cbn. now rewrite Hnil, gob_merge_nil.
  - intros r' l' st3. revert Hget. unfold GetSamples.
    cbn [st3 buf db disk with_db with_n with_opts with_maxSize with_path].
    rewrite Hdb. unfold leveldb_scan. cbn [db_closed db_path]. rewrite Hstore.
    destruct (decode_entries _ _) as [out'|] eqn:Hdec; [|discriminate].
    intros [= -> _].
    now rewrite (Forall2_length _ _ _ (decode_entries_values dec _ _ Hdec)).
Qed.

End ReservoirWrites.

(** ** The further properties of the reservoir buffer on sample data *)

Section ReservoirWritesExamples.
Import ldbstore ldb_example.

Lemma one_slot_holds : holds encZ (<[slot_key 0 := [5; 0]]> ∅) [5].
Proof. apply (holds_snoc encZ ∅ [] 5 [5; 0]); [cbn; lia|reflexivity|apply holds_empty]. Qed.

Lemma putSample_slot_witness :
  is_int 1 /\
  exists st' store',
    putSample encZ 1 5 (fresh 2) = Ok tt st' /\
    disk st' !! "db" = Some store' /\ store' !! slot_key 1 = Some [5; 0].
Proof.
  assert (is_int 1) as Hi by (unfold is_int, MinInt, MaxInt; lia).
  split; [exact Hi|].
  pose proof (putSample_slot encZ 1 5 (fresh 2) {| db_path := "db"; db_closed := false |} ∅
                eq_refl eq_refl eq_refl Hi) as H.
  cbn [encZ] in H. destruct H as (st' & store' & Hrun & _ & _ & Hd & Hk & _).
  exists st', store'. split; [exact Hrun|]. split; [exact Hd|exact Hk].
Defined.

Lemma AddSample_unlocks_witness :
  mx (buf (fresh 2)) = false /\
  match AddSample encByte 300 (fresh 2) with
  | Ok _ st' | Panic st' => mx (buf st') = false /\ n (buf st') = 1
  end.
Proof.
  split; [reflexivity|].
  pose proof (AddSample_unlocks encByte 300 (fresh 2) eq_refl) as H.
  destruct (AddSample encByte 300 (fresh 2)) as [a st'|st']; destruct H as [Hb _];
    rewrite Hb; split; reflexivity.
Defined.

Lemma AddSample_unencodable_witness :
  ready (fresh 2) {| db_path := "db"; db_closed := false |} ∅ /\
  0 <= n (buf (fresh 2)) < MaxInt /\ encByte 300 = None /\
  exists st', AddSample encByte 300 (fresh 2) = Panic st' /\ n (buf st') = 1.
Proof.
  assert (0 <= n (buf (fresh 2)) < MaxInt) as Hn by (cbn; unfold MaxInt; lia).
  split; [apply fresh_ready|]. split; [exact Hn|]. split; [reflexivity|].
  destruct (AddSample_unencodable encByte 300 (fresh 2) _ ∅ (fresh_ready 2) Hn eq_refl)
    as [Hpanic _].
  destruct Hpanic as (st' & Hrun & _ & Hcnt & _); [left; cbn; lia|].
  exists st'. split; [exact Hrun|exact Hcnt].
Defined.

Lemma AddSamples_no_capacity_witness :
  mx (buf (fresh 0)) = false /\ maxSize (buf (fresh 0)) <= 0 /\ 0 <= n (buf (fresh 0)) /\
  n (buf (fresh 0)) + Z.of_nat (length [10; 20; 30]) <= MaxInt /\
  exists st', AddSamples encZ [10; 20; 30] (fresh 0) = Ok tt st' /\
    disk st' = disk (fresh 0) /\ n (buf st') = 3.
Proof.
  assert (n (buf (fresh 0)) + Z.of_nat (length [10; 20; 30]) <= MaxInt) as Hlen
    by (cbn; unfold MaxInt; lia).
  split; [reflexivity|]. split; [cbn; lia|]. split; [cbn; lia|]. split; [exact Hlen|].
  destruct (AddSamples_no_capacity encZ [10; 20; 30] (fresh 0) eq_refl
              ltac:(cbn; lia) ltac:(cbn; lia) Hlen) as (st' & Hrun & Hd & Hn & _).
  exists st'. split; [exact Hrun|]. split; [exact Hd|exact Hn].
Defined.

Lemma Close_then_use_witness :
  ready (fresh 2) {| db_path := "db"; db_closed := false |} ∅ /\
  exists st1, Close (fresh 2) = Ok None st1 /\
    Close st1 = Ok (Some ErrClosed) st1 /\ GetSamples decZ one_each st1 = Panic st1 /\
    locks st1 = locks (fresh 2) ∖ {["db"]}.
Proof.
  split; [apply fresh_ready|].
  destruct (Close_then_use encZ decZ one_each 5 (fresh 2) _ ∅ (fresh_ready 2))
    as (st1 & H1 & _ & _ & H2 & H3 & _ & H4).
  exists st1. split; [exact H1|]. split; [exact H2|]. split; [exact H3|exact H4].
Defined.

Lemma three_slots_decode k v : three_slots !! k = Some v -> is_Some (decZ v).
Proof.
  unfold three_slots.
  intros [[_ <-]|[_ [[_ <-]|[_ [[_ <-]|[_ Hk]]%lookup_insert_Some]]%lookup_insert_Some]]
    %lookup_insert_Some; try (eexists; reflexivity).
  now rewrite lookup_empty in Hk.
Qed.

Lemma GetSamples_whole_store_witness :
  disk (set_disk {["db" := three_slots]} (fresh 2)) !! "db" = Some three_slots /\
  (forall k v, three_slots !! k = Some v -> is_Some (decZ v)) /\
  torn_slots !! slot_key 1 = Some [6] /\ decZ [6] = None /\
  GetSamples decZ one_each (set_disk {["db" := three_slots]} (fresh 2)) =
    Ok [5; 6; 7] (scanned one_each 4 (set_disk {["db" := three_slots]} (fresh 2))) /\
  GetSamples decZ one_each (set_disk {["db" := torn_slots]} (fresh 2)) =
    Panic (scanned one_each 2 (set_disk {["db" := torn_slots]} (fresh 2))).
Proof.
  assert (disk (set_disk {["db" := three_slots]} (fresh 2)) !! "db" = Some three_slots)
    as Hthree by reflexivity.
  assert (disk (set_disk {["db" := torn_slots]} (fresh 2)) !! "db" = Some torn_slots)
    as Htorn by reflexivity.
  assert (torn_slots !! slot_key 1 = Some [6]) as Hcut by reflexivity.
  split; [exact Hthree|]. split; [exact three_slots_decode|].
  split; [exact Hcut|]. split; [reflexivity|]. split.
  - destruct (GetSamples_whole_store decZ one_each (set_disk {["db" := three_slots]} (fresh 2))
                {| db_path := "db"; db_closed := false |} three_slots
                eq_refl eq_refl Hthree) as [Hok _].
    destruct (Hok three_slots_decode) as (out & Hget & _ & _).
    rewrite Hget. vm_compute in Hget. injection Hget as <-. reflexivity.
  - destruct (GetSamples_whole_store decZ one_each (set_disk {["db" := torn_slots]} (fresh 2))
                {| db_path := "db"; db_closed := false |} torn_slots
                eq_refl eq_refl Htorn) as (_ & Hpanic & _).
    destruct (Hpanic (slot_key 1) [6] Hcut eq_refl) as (i & e & _ & _ & _ & Hget).
    rewrite Hget. vm_compute in Hget. injection Hget as <-. reflexivity.
Defined.

Lemma GobEncode_nil_options_witness :
  NewReservoirBuffer "db" None 2 no_locks ∅ =
    (inl (buf (fresh 2)), locks (fresh 2), disk (fresh 2)) /\
  GobEncode (buf (fresh 2)) = Panic tt.
Proof.
  assert (NewReservoirBuffer "db" None 2 no_locks ∅ =
            (inl (buf (fresh 2)), locks (fresh 2), disk (fresh 2))) as Hnew
    by reflexivity.
  split; [exact Hnew|].
  exact (proj1 (GobEncode_nil_options encZ "db" 2 no_locks ∅ (buf (fresh 2))
                  (locks (fresh 2)) (disk (fresh 2)) draws [] [] (fresh 2) Hnew)).
Defined.

Lemma reopen_restarts_count_witness :
  one_slot !! "db" = Some (<[slot_key 0 := [5; 0]]> ∅) /\ ("db" ∉ no_locks) /\
  holds encZ (<[slot_key 0 := [5; 0]]> ∅) [5] /\
  (0 < length [5])%nat /\ Z.of_nat (length [5]) < 2 ^ 64 /\
  ErrorIfExist (default defaultOptions None) = false /\ 0 < 2 /\ encZ 7 = Some [7; 0] /\
  exists b st' out,
    NewReservoirBuffer "db" None 2 no_locks one_slot = (inl b, {["db"]} ∪ no_locks, one_slot) /\
    n b = 0 /\
    AddSample encZ 7 {| buf := b; disk := one_slot; locks := {["db"]} ∪ no_locks;
                        rng := draws; log := [] |} = Ok tt st' /\
    GetSamples decZ one_each st' = Ok out (scanned one_each (S (length out)) st') /\
    out ≡ₚ [7].
Proof.
  assert (Z.of_nat (length [5]) < 2 ^ 64) as Hlt by (cbn; lia).
  assert ("db" ∉ no_locks) as Hfree by apply not_elem_of_empty.
  split; [reflexivity|]. split; [exact Hfree|]. split; [exact one_slot_holds|].
  split; [cbn; lia|].
  split; [exact Hlt|]. split; [reflexivity|]. split; [lia|]. split; [reflexivity|].
  destruct (reopen_restarts_count encZ decZ one_each encZ_roundtrip "db" None 2 no_locks
              one_slot (<[slot_key 0 := [5; 0]]> ∅) [5] 7 [7; 0] draws []
              eq_refl Hfree one_slot_holds ltac:(cbn; lia) Hlt eq_refl ltac:(lia) eq_refl)
    as (b & st' & store' & out & Hnew & Hn & Hrun & _ & _ & _ & Hget & Hout & _).
  exists b, st', out. split; [exact Hnew|]. split; [exact Hn|]. split; [exact Hrun|].
  split; [exact Hget|exact Hout].
Defined.

Lemma AddSamples_reservoir_witness :
  NewReservoirBuffer "db" None 2 no_locks ∅ =
    (inl (buf (fresh 2)), locks (fresh 2), disk (fresh 2)) /\
  (∅ : Disk) !! "db" = None /\ 0 <= 2 /\
  Z.of_nat (length [10; 20; 30]) <= MaxInt /\
  Forall (fun s => is_Some (encZ s)) [10; 20; 30] /\
  exists st' out,
    AddSamples encZ [10; 20; 30] (fresh 2) = Ok tt st' /\
    GetSamples decZ one_each st' = Ok out (scanned one_each (S (length out)) st') /\
    out = (reservoir 2 [10; 20; 30] draws).1.1.
Proof.
  assert (Forall (fun s => is_Some (encZ s)) [10; 20; 30]) as Henc.
  { repeat constructor; eexists; reflexivity. }
  assert (Z.of_nat (length [10; 20; 30]) <= MaxInt) as Hlen by (cbn; unfold MaxInt; lia).
  assert (NewReservoirBuffer "db" None 2 no_locks ∅ =
            (inl (buf (fresh 2)), locks (fresh 2), disk (fresh 2))) as Hnew
    by reflexivity.
  assert ((∅ : Disk) !! "db" = None) as Hfree by reflexivity.
  repeat (split; [first [exact Hnew | exact Hfree | exact Henc | exact Hlen | lia]|]).
  destruct (AddSamples_reservoir encZ decZ one_each encZ_roundtrip "db" None 2 no_locks ∅
              (buf (fresh 2)) (locks (fresh 2)) (disk (fresh 2)) draws [] [10; 20; 30]
              Hnew Hfree ltac:(lia) Hlen Henc)
    as (st' & out & Hrun & Hget & _ & _ & _ & Hout).
  exists st', out. split; [exact Hrun|]. split; [exact Hget|]. apply Hout. lia.
Defined.

Lemma persist_roundtrip_witness :
  opts saved = Some defaultOptions /\
  ErrorIfExist (gob_merge (opts tuned) defaultOptions) = false /\
  db saved = Some {| db_path := path saved; db_closed := false |} /\
  one_slot !! path saved = Some (<[slot_key 0 := [5; 0]]> ∅) /\
  GetSamples decZ one_each
    {| buf := saved; disk := one_slot; locks := {["db"]}; rng := draws; log := [] |} =
    Ok [5] (scanned one_each 2
              {| buf := saved; disk := one_slot; locks := {["db"]}; rng := draws;
                 log := [] |}) /\
  exists stream b',
    GobEncode saved = Ok (inl stream) tt /\
    GobDecode stream tuned ({["db"]} ∖ {["db"]}) one_slot =
      (None, b', {["db"]} ∪ {["db"]} ∖ {["db"]}, one_slot) /\
    opts b' = Some (set_ErrorIfMissing true (gob_merge (opts tuned) defaultOptions)) /\
    GetSamples decZ one_each
      {| buf := b'; disk := one_slot; locks := {["db"]} ∪ {["db"]} ∖ {["db"]};
         rng := draws; log := [] |} =
      Ok [5] (scanned one_each 2
                {| buf := b'; disk := one_slot; locks := {["db"]} ∪ {["db"]} ∖ {["db"]};
                   rng := draws; log := [] |}).
Proof.
  assert (GetSamples decZ one_each
            {| buf := saved; disk := one_slot; locks := {["db"]}; rng := draws; log := [] |} =
          Ok [5] (scanned one_each 2
                    {| buf := saved; disk := one_slot; locks := {["db"]}; rng := draws;
                       log := [] |})) as Hget
    by reflexivity.
  split; [reflexivity|]. split; [reflexivity|]. split; [reflexivity|].
  split; [reflexivity|]. split; [exact Hget|].
  destruct (persist_roundtrip decZ one_each one_each saved tuned defaultOptions {["db"]}
              one_slot (<[slot_key 0 := [5; 0]]> ∅) [5] draws [] _
              eq_refl eq_refl eq_refl eq_refl Hget)
    as (st1 & stream & b' & Hclose & _ & Hlk & Henc & Hdec & _ & _ & _ & Ho & _ & Hget').
  unfold Close in Hclose. cbn in Hclose. injection Hclose as <-.
  exists stream, b'. split; [exact Henc|]. split; [exact Hdec|]. split; [exact Ho|].
  exact (Hget' draws []).
Defined.

End ReservoirWritesExamples.

(** ** What a computation keeps, however it ends *)

Section Always.
Context {S : Type} (R : S -> S -> Prop) `{!PreOrder R}.

Lemma always_ret {A} (a : A) s : always R (ret a) s.
Proof. unfold always, ret. reflexivity. Qed.

Lemma always_panic {A} s : always R (panic (A:=A)) s.
Proof. unfold always, panic. reflexivity. Qed.

Lemma always_get s : always R get s.
Proof. unfold always, get. reflexivity. Qed.

Lemma always_bind {A B} (m : M S A) (f : A -> M S B) s :
  always R m s -> (forall a s1, m s = Ok a s1 -> always R (f a) s1) ->
  always R (bind m f) s.
Proof.
  unfold always, bind. destruct (m s) as [a s1|s1]; [|done].
  intros H1 H2. specialize (H2 a s1 eq_refl).
  destruct (f a s1); etrans; done.
Qed.

End Always.

(** ** What a traversal may change of its world *)

Section WorldFrame.
Import f32 cfr.
Context {P : Type} (RP : P -> P -> Prop) `{!PreOrder RP}.

#[global] Instance world_frame_preorder : PreOrder (world_frame RP).
Proof.
  split.
  - intros w. repeat split; reflexivity.
  - intros w1 w2 w3 (Ha & Hb & Hc & Hd & He) (Ha' & Hb' & Hc' & Hd' & He').
    repeat split; [etrans; done|lia|congruence|lia|etrans; done].
Qed.

Lemma frame_emit e w : always (world_frame RP) (emit e) w.
Proof.
  unfold always, emit. repeat split; cbn; try reflexivity. now apply prefix_app_r.
Qed.

Lemma frame_set_profile (w : World P) p' :
  RP (profile w) p' ->
  world_frame RP w {| profile := p'; pool := pool w; rng := rng w; trace := trace w |}.
Proof. intros Hp. repeat split; cbn; done. Qed.

Lemma frame_add_event (w : World P) e :
  world_frame RP w {| profile := profile w; pool := pool w; rng := rng w;
                      trace := trace w ++ [e] |}.
Proof. repeat split; cbn; try reflexivity. now apply prefix_app_r. Qed.

Lemma frame_in_profile {A} (m : M P A) w :
  (forall p, always RP m p) -> always (world_frame RP) (in_profile m) w.
Proof.
  intros Hm. unfold always, in_profile. specialize (Hm (profile w)). unfold always in Hm.
  destruct (m (profile w)); repeat split; cbn; done.
Qed.

Lemma frame_Intn bound w : always (world_frame RP) (Intn bound) w.
Proof.
  unfold always, Intn, rand_Intn. destruct (bound <=? 0); [reflexivity|].
  cbn. repeat split; cbn; try reflexivity. lia.
Qed.

Lemma frame_Float32 w : always (world_frame RP) Float32 w.
Proof.
  unfold always, Float32. cbn. repeat split; cbn; try reflexivity. lia.
Qed.

End WorldFrame.
(** ** The policy table: sharing, updates and the wire format *)

Section TableMore.
Import f32 cfr.

Lemma GetPolicy_again node node2 pt key pt' :
  GetPolicy node pt = Ok key pt' ->
  Key node2 (Player node2) = Key node (Player node) ->
  NumChildren node2 = NumChildren node ->
  key = Key node (Player node) /\
  GetPolicy node2 pt' = Ok key pt' /\
  key ∈ mayNeedUpdate pt' /\
  (exists np, policiesByKey pt' !! key = Some np /\ NumActions np = NumChildren node /\
     forall old, policiesByKey pt !! key = Some old -> np = old) /\
  (forall key', key' <> key -> policiesByKey pt' !! key' = policiesByKey pt !! key') /\
  iter pt' = iter pt /\ params pt' = params pt.
Proof.
  intros Hget Hkey Hnum. unfold GetPolicy in Hget.
  set (k := Key node (Player node)) in *.
  assert (forall pt0 np, policiesByKey pt0 !! k = Some np ->
            NumActions np = NumChildren node -> k ∈ mayNeedUpdate pt0 ->
            GetPolicy node2 pt0 = Ok k pt0) as Hagain.
  { intros pt0 np Hnp Hn Hin. unfold GetPolicy. rewrite Hkey. fold k.
    rewrite Hnp. cbn. destruct (decide _) as [Hne|_]; [congruence|].
    f_equal. destruct pt0 as [ps it pk mu]. cbn in *. f_equal.
    now apply subseteq_union_1_L, singleton_subseteq_l. }
  destruct (policiesByKey pt !! k) as [np|] eqn:Hnp; cbn in Hget.
  - destruct (decide _) as [|Heq]; [discriminate|]. apply dec_stable in Heq.
    injection Hget as <- <-. split; [done|]. split.
    + apply (Hagain _ np); cbn; [done|done|set_solver].
    + cbn. split; [set_solver|]. split; [|done].
      exists np. split; [done|]. split; [done|]. congruence.
  - destruct (decide _) as [|_]; [discriminate|].
    injection Hget as <- <-. split; [done|]. split.
    + apply (Hagain _ (policy_New (NumChildren node))); cbn;
        [apply lookup_insert_eq|done|set_solver].
    + cbn. split; [set_solver|]. split; [|split; [|done]].
      * exists (policy_New (NumChildren node)). split; [apply lookup_insert_eq|].
        split; [done|]. intros old Hold. congruence.
      * intros key' Hne. now rewrite lookup_insert_ne.
Qed.

(** Once GetPolicy has returned for a node, asking again, for that node
    or for any node with the same infoset key and as many children,
    returns the same policy and changes nothing: the table is a fixed
    point of the call.  The first call returns the policy under the
    node's key, sized to its children and marked for update; a policy
    that was there is the one kept, and no other key, nor the counter or
    the parameters, is touched. *)
Theorem GetPolicy_shared node node2 pt key pt' :
  GetPolicy node pt = Ok key pt' ->
  Key node2 (Player node2) = Key node (Player node) ->
  NumChildren node2 = NumChildren node ->
  key = Key node (Player node) /\
  GetPolicy node2 pt' = Ok key pt' /\
  key ∈ mayNeedUpdate pt' /\
  (exists np, policiesByKey pt' !! key = Some np /\ NumActions np = NumChildren node /\
     forall old, policiesByKey pt !! key = Some old -> np = old) /\
  (forall key', key' <> key -> policiesByKey pt' !! key' = policiesByKey pt !! key') /\
  iter pt' = iter pt /\ params pt' = params pt.
Proof. apply GetPolicy_again. Qed.

Lemma Update_none pt :
  mayNeedUpdate pt = ∅ -> policiesByKey (Update pt) = policiesByKey pt.
Proof.
  intros Hmu. unfold Update. destruct (params pt (iter pt)) as [[dPos dNeg] dSum]. cbn.
  apply map_eq. intros key. rewrite map_lookup_imap.
  destruct (policiesByKey pt !! key) as [np|]; [|done]. cbn.
  destruct (decide _) as [Hin|]; [|done]. rewrite Hmu in Hin. set_solver.
Qed.

(** Update applies NextStrategy, with the discount factors of the current
    iteration, to exactly the policies fetched since the last Update and
    leaves every other policy as it is; it keeps the keys and the
    parameters, empties the set of policies to update and counts the
    iteration.  So an Update right after an Update changes no policy,
    and a policy fetched after an Update is the only one the next Update
    rematches, with the factors of the next iteration. *)
Theorem Update_only_fetched pt :
  let dPos := (params pt (iter pt)).1.1 in
  let dNeg := (params pt (iter pt)).1.2 in
  let dSum := (params pt (iter pt)).2 in
  (forall key,
     policiesByKey (Update pt) !! key =
       (fun np => if decide (key ∈ mayNeedUpdate pt)
                  then NextStrategy dPos dNeg dSum np else np) <$> policiesByKey pt !! key) /\
  mayNeedUpdate (Update pt) = ∅ /\ params (Update pt) = params pt /\
  iter (Update pt) = wrap_int (iter pt + 1) /\
  policiesByKey (Update (Update pt)) = policiesByKey (Update pt) /\
  (forall node key pt1, GetPolicy node (Update pt) = Ok key pt1 ->
     mayNeedUpdate pt1 = {[key]} /\
     forall np, policiesByKey pt1 !! key = Some np ->
       policiesByKey (Update pt1) !! key =
         Some (NextStrategy (params pt (wrap_int (iter pt + 1))).1.1
                            (params pt (wrap_int (iter pt + 1))).1.2
                            (params pt (wrap_int (iter pt + 1))).2 np)).
Proof.
  intros dPos dNeg dSum.
  assert (mayNeedUpdate (Update pt) = ∅ /\ params (Update pt) = params pt /\
          iter (Update pt) = wrap_int (iter pt + 1)) as (Hmu & Hps & Hit).
  { unfold Update. now destruct (params pt (iter pt)) as [[? ?] ?]. }
  split; [|split; [done|split; [done|split; [done|split]]]].
  - intros key. unfold Update, dPos, dNeg, dSum.
    destruct (params pt (iter pt)) as [[? ?] ?]. cbn. rewrite map_lookup_imap.
    now destruct (policiesByKey pt !! key).
  - now apply Update_none.
  - intros node key pt1 Hget.
    destruct (GetPolicy_again node node (Update pt) key pt1 Hget eq_refl eq_refl)
      as (Hk & _ & _ & _ & _ & Hit1 & Hps1).
    assert (mayNeedUpdate pt1 = {[key]}) as Hmu1.
    { revert Hget. unfold GetPolicy. rewrite <- Hk.
      destruct (policiesByKey (Update pt) !! _); cbn; destruct (decide _); try discriminate;
        intros [= <-]; cbn; rewrite Hmu; apply (right_id_L ∅ (∪)). }
    split; [done|]. intros np Hnp. unfold Update at 1.
    rewrite Hit1, Hps1, Hit, Hps.
    destruct (params pt (wrap_int (iter pt + 1))) as [[? ?] ?]. cbn.
    rewrite map_lookup_imap, Hnp. cbn. rewrite Hmu1.
    destruct (decide _) as [|Hn]; [done|]. set_solver.
Qed.

Lemma decode_policies_entries es : forall cnt m,
  decode_policies cnt (encode_entries es) m =
  (if decide (cnt <= length es)%nat then None else Some ErrDecode,
   foldl (fun m kp => <[kp.1 := kp.2]> m) m (take cnt es)).
Proof.
  induction es as [|[k p] es IH]; intros cnt m.
  - destruct cnt; cbn; [done|]. destruct (decide _); [lia|done].
  - destruct cnt; cbn [decode_policies].
    + cbn. destruct (decide _); [done|lia].
    + cbn. rewrite IH. cbn. do 2 destruct (decide _); try lia; done.
Qed.

Lemma UnmarshalBinary_eval ps it cnt es pt0 :
  UnmarshalBinary ([GobParams ps; GobInt it; GobInt cnt] ++ encode_entries es) pt0 =
    (if decide (cnt <= Z.of_nat (length es)) then None else Some ErrDecode,
     {| params := ps; iter := it;
        policiesByKey := foldl (fun m kp => <[kp.1 := kp.2]> m) ∅ (take (Z.to_nat cnt) es);
        mayNeedUpdate := ∅ |}).
Proof.
  unfold UnmarshalBinary. cbn [app decodeParams decodeInt].
  rewrite decode_policies_entries. cbn.
  do 2 destruct (decide _); try lia; done.
Qed.

(** UnmarshalBinary trusts the count on the wire: of the entries that
    follow it takes the first [cnt], a later entry replacing an earlier
    one of the same key, and ignores the rest; a count of zero or below
    gives an empty table; a count above the number of entries is a decode
    error that leaves the receiver with the parameters, the counter and
    the entries decoded so far.  No policy is left marked for update. *)
Theorem UnmarshalBinary_count ps it cnt es pt0 :
  UnmarshalBinary ([GobParams ps; GobInt it; GobInt cnt] ++ encode_entries es) pt0 =
    (if decide (cnt <= Z.of_nat (length es)) then None else Some ErrDecode,
     {| params := ps; iter := it;
        policiesByKey := foldl (fun m kp => <[kp.1 := kp.2]> m) ∅ (take (Z.to_nat cnt) es);
        mayNeedUpdate := ∅ |}).
Proof. apply UnmarshalBinary_eval. Qed.

Lemma foldl_insert_list_to_map (es : list (string * Policy)) :
  forall m : gmap string Policy,
  NoDup es.*1 ->
  foldl (fun m kp => <[kp.1 := kp.2]> m) m es = list_to_map es ∪ m.
Proof.
  induction es as [|[k p] es IH]; intros m Hnd.
  - cbn. now rewrite (left_id_L ∅ (∪)).
  - apply NoDup_cons in Hnd as [Hk Hnd]. cbn. rewrite IH by done.
    rewrite <- insert_union_r by now apply not_elem_of_list_to_map_1.
    now rewrite insert_union_l.
Qed.

(** MarshalBinary then UnmarshalBinary restores the parameters, the
    iteration counter and every policy under its key, in whatever order
    the runtime ranges over the map and whatever the receiver held; the
    set of policies to update is not on the wire and comes back empty,
    so the Update after the round trip rematches no policy. *)
Theorem Marshal_Unmarshal range pt pt0 :
  range (policiesByKey pt) ≡ₚ map_to_list (policiesByKey pt) ->
  exists stream pt',
    MarshalBinary range pt = inl stream /\
    UnmarshalBinary stream pt0 = (None, pt') /\
    params pt' = params pt /\ iter pt' = iter pt /\
    policiesByKey pt' = policiesByKey pt /\ mayNeedUpdate pt' = ∅ /\
    policiesByKey (Update pt') = policiesByKey pt.
Proof.
  intros Hperm.
  assert (length (range (policiesByKey pt)) = size (policiesByKey pt)) as Hlen.
  { rewrite Hperm. apply length_map_to_list. }
  assert (NoDup (range (policiesByKey pt)).*1) as Hnd.
  { rewrite Hperm. apply NoDup_fst_map_to_list. }
  eexists _, _. split; [reflexivity|]. split; [|split; [|split; [|split; [|split]]]].
  - rewrite UnmarshalBinary_eval. rewrite Hlen.
    destruct (decide _); [reflexivity|lia].
  - reflexivity.
  - reflexivity.
  - cbn. rewrite Nat2Z.id, <- Hlen, firstn_all, foldl_insert_list_to_map by done.
    rewrite (right_id_L ∅ (∪)).
    rewrite (list_to_map_proper (M:=gmap string) _ (map_to_list (policiesByKey pt))); try done.
    now rewrite list_to_map_to_list.
  - reflexivity.
  - rewrite Update_none by reflexivity.
    cbn. rewrite Nat2Z.id, <- Hlen, firstn_all, foldl_insert_list_to_map by done.
    rewrite (right_id_L ∅ (∪)).
    rewrite (list_to_map_proper (M:=gmap string) _ (map_to_list (policiesByKey pt))); try done.
    now rewrite list_to_map_to_list.
Qed.

End TableMore.
(** ** Chance sampling: what a traversal keeps *)

Section ChanceFrame.
Import f32 cfr ChanceSampling.
Context {P : Type} `{StrategyProfile P}.
Variable RP : P -> P -> Prop.
Context `{!PreOrder RP}.
Hypothesis HGetStrategy : forall node p, always RP (GetStrategy node) p.
Hypothesis HGetActionProbability : forall strat i p,
  always RP (GetActionProbability strat i) p.
Hypothesis HAddRegret : forall strat a b x p, always RP (AddRegret strat a b x) p.

Abbreviation cwf := (world_frame RP).
Abbreviation cwfx := (fun a b : World P * list float32 => world_frame RP a.1 b.1).


#[local] Instance chance_wfx_preorder : PreOrder cwfx.
Proof.
  split.
  - intros wx. reflexivity.
  - intros a b c Hab Hbc. etrans; done.
Qed.




Lemma chance_frame_with_slice {A} (m : M (World P) A) wx :
  always cwf m wx.1 -> always cwfx (with_slice m) wx.
Proof. unfold always, with_slice. now destruct (m wx.1). Qed.

Lemma chance_frame_slice_set i v (wx : World P * list float32) : always cwfx (slice_set i v) wx.
Proof. unfold always, slice_set. destruct (decide _); reflexivity. Qed.

Lemma chance_frame_alloc_scope {A} n (body : list float32 -> M (World P * list float32) A) w :
  (forall x wx, always cwfx (body x) wx) ->
  always cwf (x <- alloc n ;; slice_scope x (body x))%go w.
Proof.
  intros Hbody. unfold always, bind, alloc, slice_scope.
  destruct w as [pf [|b rest] r t]; cbn.
  - match goal with |- context [body ?x ?wx] =>
      pose proof (Hbody x wx) as Hb; unfold always in Hb;
      destruct (body x wx) as [a [w' x']|[w' x']] end;
      unfold world_frame in *; cbn in *; destruct Hb as (?&?&?&?&?);
      repeat split; first [done | lia].
  - match goal with |- context [body ?x ?wx] =>
      pose proof (Hbody x wx) as Hb; unfold always in Hb;
      destruct (body x wx) as [a [w' x']|[w' x']] end;
      unfold world_frame in *; cbn in *; destruct Hb as (?&?&?&?&?);
      repeat split; first [done | lia].
Qed.

Section Handlers.
Variable node : GameTreeNode.
Variable kids : list (evaluator (World P)).
Hypothesis Hkids : forall i ev, index kids i = Some ev ->
  forall lp r0 r1 w, always cwf (ev lp r0 r1) w.

Lemma chance_frame_handleChanceNode lp r0 r1 w : always cwf (handleChanceNode node kids lp r0 r1) w.
Proof.
  unfold handleChanceNode. apply always_bind; [apply _|apply frame_Intn; try apply _|].
  intros i w1 _. apply always_bind; [apply _| |].
  - unfold GetChild. destruct (index kids i); [apply always_ret|apply always_panic]; apply _.
  - intros ev w2. unfold GetChild. destruct (index kids i) as [ev'|] eqn:Hev; [|discriminate].
    intros [= <- <-]. now apply (Hkids i).
Qed.

Lemma chance_frame_player_loop strat player r0 r1 actions : forall eu wx,
  always cwfx (player_loop kids strat player r0 r1 actions eu) wx.
Proof.
  induction actions as [|i actions IH]; intros eu wx; [apply always_ret; apply _|].
  cbn [player_loop]. apply always_bind; [apply _| |].
  { unfold GetChild. destruct (index kids i); [apply always_ret|apply always_panic]; apply _. }
  intros ev wx1. unfold GetChild. destruct (index kids i) as [ev'|] eqn:Hev; [|discriminate].
  intros [= <- <-]. apply always_bind; [apply _| |].
  { apply chance_frame_with_slice, frame_in_profile; try apply _; apply HGetActionProbability. }
  intros p wx2 _. apply always_bind; [apply _| |].
  { apply chance_frame_with_slice. destruct (decide _); now apply (Hkids i). }
  intros util wx3 _. apply always_bind; [apply _|apply chance_frame_slice_set|].
  intros _ wx4 _. apply IH.
Qed.

Lemma chance_frame_handlePlayerNode r0 r1 w : always cwf (handlePlayerNode node kids r0 r1) w.
Proof.
  unfold handlePlayerNode. apply always_bind; [apply _| |].
  { apply frame_in_profile; try apply _; apply HGetStrategy. }
  intros strat w1 _. apply chance_frame_alloc_scope. intros x wx.
  apply always_bind; [apply _|apply chance_frame_player_loop|].
  intros eu wx1 _. apply always_bind; [apply _|unfold always, modify; reflexivity|].
  intros _ wx2 _. apply always_bind; [apply _|apply always_get; apply _|].
  intros wx3 wx4 _. apply always_bind; [apply _| |].
  { apply chance_frame_with_slice, frame_in_profile; try apply _; apply HAddRegret. }
  intros _ wx5 _. apply always_ret. apply _.
Qed.

Lemma chance_frame_runHelper_body lp r0 r1 w : always cwf (runHelper_body node kids lp r0 r1) w.
Proof.
  unfold runHelper_body. apply always_bind; [apply _| |].
  { unfold node_Type. apply always_bind; [apply _|apply frame_emit; try apply _|].
    intros; apply always_ret; apply _. }
  intros ty w1 _. apply always_bind; [apply _| |].
  - destruct ty.
    + apply chance_frame_handleChanceNode.
    + apply always_ret. apply _.
    + apply always_bind; [apply _|apply chance_frame_handlePlayerNode|].
      intros; apply always_ret; apply _.
  - intros ev w2 _. apply always_bind; [apply _|apply frame_emit; try apply _|].
    intros; apply always_ret; apply _.
Qed.

End Handlers.

Lemma chance_frame_runHelper node : forall lp r0 r1 w, always cwf (runHelper node lp r0 r1) w.
Proof.
  induction node as [l ty pl key u children IH] using GameTreeNode_ind.
  intros lp r0 r1 w. rewrite chance_runHelper_unfold. apply chance_frame_runHelper_body.
  intros i ev. rewrite index_map. cbn [Children].
  destruct (index children i) as [child|] eqn:Hchild; [|done].
  intros [= <-]. rewrite Forall_forall in IH. apply IH.
  apply index_Some in Hchild as [_ Hchild]. eapply list_elem_of_lookup_2, Hchild.
Qed.

(** Chance sampling reaches the strategy profile through its three
    methods only: a preorder on profile states that each method keeps,
    on a return and on a panic, relates the profile before Run to the
    profile after, however Run ends.  And however it ends, every slice
    taken from the pool has been put back, the random source is the same
    stream read no less far, and the trace has only been added to. *)
Theorem chance_Run_frame node w :
  match Run node w with
  | Ok _ w' | Panic w' =>
      RP (profile w) (profile w') /\
      (length (pool w) <= length (pool w'))%nat /\
      raw (rng w') = raw (rng w) /\ (cursor (rng w) <= cursor (rng w'))%nat /\
      trace w `prefix_of` trace w'
  end.
Proof.
  pose proof (chance_frame_runHelper node (Player node) one one w) as Hf.
  unfold always in Hf. unfold Run. destruct (runHelper _ _ _ _ _); exact Hf.
Qed.

End ChanceFrame.
(** ** Chance sampling: the full traversal *)

Section ChanceFull.
Import f32 cfr ChanceSampling traces.
Context {P : Type} `{StrategyProfile P}.

Lemma map_index_seqZ {A B} (f : A -> B) (d : B) (l : list A) :
  map (fun i => default d (f <$> index l i)) (seqZ 0 (Z.of_nat (length l))) = map f l.
Proof.
  apply list_eq. intros i. rewrite !list_lookup_fmap.
  destruct (l !! i) as [x|] eqn:Hx.
  - pose proof (lookup_lt_Some _ _ _ Hx).
    rewrite lookup_seqZ_lt by lia. cbn. f_equal.
    unfold index. destruct (Z.ltb_spec (0 + Z.of_nat i) 0); [lia|].
    replace (Z.to_nat (0 + Z.of_nat i)) with i by lia. now rewrite Hx.
  - apply lookup_ge_None in Hx. rewrite lookup_seqZ_ge by lia. done.
Qed.


Section Handlers.
Variable node : GameTreeNode.
Variable kids : list (evaluator (World P)).
Hypothesis Hkids : Type_ node = PlayerNode -> forall i ev, index kids i = Some ev ->
  exists child, index (Children node) i = Some child /\ full_ev child ev.

Lemma exact_player_loop strat player r0 r1 actions :
  Type_ node = PlayerNode -> forall eu (wx : World P * list float32),
  post (player_loop kids strat player r0 r1 actions eu) wx
    (fun _ wx' =>
       trace wx'.1 = trace wx.1 ++
         concat (map (fun i => default [] (full_trace <$> index (Children node) i)) actions) /\
       rng wx'.1 = rng wx.1).
Proof.
  intros Hpl. induction actions as [|i actions IH]; intros eu wx.
  - apply post_ret. cbn. now rewrite app_nil_r.
  - cbn [player_loop]. apply post_bind, chance_post_GetChild. intros ev Hev.
    destruct (Hkids Hpl i ev Hev) as (child & Hchild & Hexact).
    apply post_bind, post_with_slice, post_in_profile. intros p pf' _. cbn.
    apply post_bind, post_with_slice.
    eapply post_mono; [destruct (decide _); apply Hexact|].
    cbn. intros util w1 (Ht & Hr).
    apply post_bind, post_slice_set. intros _.
    eapply post_mono; [apply IH|].
    cbn. intros _ wx' (Ht' & Hr'). rewrite Ht', Ht, Hr', Hr, Hchild. cbn.
    now rewrite <- app_assoc.
Qed.

Lemma exact_runHelper_body lp r0 r1 w :
  Type_ node <> ChanceNode ->
  post (runHelper_body node kids lp r0 r1) w
    (fun _ w' =>
       trace w' = trace w ++ EvType (Label node) ::
         match Type_ node with
         | PlayerNode => concat (map (fun i => default [] (full_trace <$> index (Children node) i))
                                     (arange (NumChildren node)))
         | _ => []
         end ++ [EvClose (Label node)] /\
       rng w' = rng w).
Proof.
  intros Hty. unfold runHelper_body. apply post_bind, post_bind, post_emit, post_ret.
  cbn -[handleChanceNode handlePlayerNode].
  remember (Type_ node) as ty eqn:Hnt in |- *. symmetry in Hnt.
  destruct ty; [done| |].
  - unfold post. cbn. now rewrite <- app_assoc.
  - apply post_bind, post_bind. unfold handlePlayerNode.
    apply post_bind, post_in_profile. intros strat pf' _.
    apply post_bind, post_alloc. intros advantages pool'.
    apply chance_post_slice_scope, post_bind.
    eapply post_mono; [now apply exact_player_loop|].
    cbn. intros eu wx1 (Ht & Hr).
    apply post_bind, post_modify, post_bind, post_get, post_bind, post_with_slice,
      post_in_profile.
    intros _ pf'' _. unfold post. cbn. rewrite Ht, Hr. cbn.
    rewrite <- !app_assoc. done.
Qed.

End Handlers.

Lemma chance_free_exact node : chance_free node = true -> full_ev node (runHelper node).
Proof.
  induction node as [l ty pl key u children IH] using GameTreeNode_ind.
  intros Hfree lp r0 r1 w. rewrite chance_runHelper_unfold.
  assert (ty <> ChanceNode) as Hty by (intros ->; discriminate).
  eapply post_mono; [apply exact_runHelper_body; [|exact Hty]|].
  - cbn [Type_]. intros -> i ev. rewrite index_map. cbn [Children].
    destruct (index children i) as [child|] eqn:Hchild; [|done].
    intros [= <-]. exists child. split; [done|].
    cbn in Hfree. rewrite forallb_forall in Hfree. rewrite Forall_forall in IH.
    apply index_Some in Hchild as [_ Hchild].
    apply list_elem_of_lookup_2 in Hchild.
    apply IH; [done|]. apply Hfree. now apply list_elem_of_In.
  - cbn. intros _ w' [Ht Hr]. split; [|done]. rewrite Ht. f_equal. f_equal.
    destruct ty; [done|done|]. f_equal. f_equal.
    unfold arange, NumChildren. cbn [Children]. apply map_index_seqZ.
Qed.


(** On a tree without chance nodes chance sampling is a full traversal
    that draws nothing: when Run returns, the trace added is the one of
    entering every child of every player node in index order, each node
    closed after its children, and the random source is untouched. *)
Theorem chance_free_traversal node w v w' :
  chance_free node = true -> Run node w = Ok v w' ->
  trace w' = trace w ++ full_trace node /\ rng w' = rng w.
Proof.
  intros Hfree Hrun.
  exact (post_Ok _ _ _ _ _ (chance_free_exact node Hfree (Player node) one one w) Hrun).
Qed.

End ChanceFull.

(** ** Chance sampling: the engine does not panic *)

Section ChanceTotal.
Import f32 cfr ChanceSampling traces.
Context {P : Type} `{StrategyProfile P}.
Hypothesis HGetStrategy : forall node p, exists s p', GetStrategy node p = Ok s p'.
Hypothesis HGetActionProbability : forall strat i p,
  exists x p', GetActionProbability strat i p = Ok x p'.
Hypothesis HAddRegret : forall strat a b x p, exists p', AddRegret strat a b x p = Ok tt p'.


Lemma alloc_length n (w : World P) :
  exists x w', alloc n w = Ok x w' /\ length x = Z.to_nat n.
Proof.
  unfold alloc. destruct (pool w) as [|b rest]; eexists _, _; (split; [reflexivity|]).
  - apply length_replicate.
  - apply length_resize.
Qed.

Section Handlers.
Variable node : GameTreeNode.
Variable kids : list (evaluator (World P)).
Hypothesis Hlen : length kids = length (Children node).
Hypothesis Hkids : Type_ node <> TerminalNode -> forall i ev, index kids i = Some ev ->
  forall lp x y, returns (ev lp x y).

Lemma total_player_loop strat player r0 r1 actions :
  Type_ node <> TerminalNode ->
  forall eu (wx : World P * list float32),
  (forall i, i ∈ actions -> 0 <= i < Z.of_nat (length kids) /\
                            0 <= i < Z.of_nat (length wx.2)) ->
  exists v wx', player_loop kids strat player r0 r1 actions eu wx = Ok v wx'.
Proof.
  intros Hnt. induction actions as [|i actions IH]; intros eu wx Hin.
  - eexists _, _. reflexivity.
  - destruct (Hin i) as [Hi Hx]; [left|].
    cbn [player_loop]. unfold bind at 1, GetChild.
    destruct (index kids i) as [ev|] eqn:Hev.
    2:{ unfold index in Hev. destruct (Z.ltb_spec i 0); [lia|].
        apply lookup_ge_None in Hev. lia. }
    cbn. unfold bind at 1, with_slice, in_profile.
    destruct (HGetActionProbability strat i (profile wx.1)) as (p & pf' & Hp).
    rewrite Hp. cbn. unfold bind at 1, with_slice. cbn.
    match goal with |- context [(if ?b then ?m1 else ?m2) ?w0] =>
      assert (exists util w1, (if b then m1 else m2) w0 = Ok util w1) as (util & w1 & Hu)
    end.
    { destruct (decide _); apply (Hkids Hnt i ev Hev). }
    rewrite Hu. cbn. unfold bind at 1, slice_set. cbn.
    destruct (decide (0 <= i < Z.of_nat (length wx.2))) as [_|Hn]; [|lia].
    apply IH. intros j Hj. cbn. rewrite length_insert.
    apply Hin. now right.
Qed.

Lemma total_runHelper_body lp r0 r1 :
  (Type_ node = ChanceNode -> Children node <> []) ->
  returns (runHelper_body node kids lp r0 r1).
Proof.
  intros Hch w. unfold runHelper_body, bind at 1, node_Type, bind at 1, emit, ret. cbn.
  remember (Type_ node) as ty eqn:Hnt in |- *. symmetry in Hnt. destruct ty.
  - (* chance *)
    unfold bind at 1, handleChanceNode, bind at 1, node_SampleChild, Intn.
    assert (0 < NumChildren node) as Hpos.
    { unfold NumChildren. destruct (Children node); [now destruct Hch|cbn; lia]. }
    rewrite rand_Intn_pos by done. cbn.
    set (i := _ mod _).
    assert (0 <= i < NumChildren node) as Hi by (apply Z.mod_pos_bound; lia).
    unfold bind at 1, GetChild. destruct (index kids i) as [ev|] eqn:Hev.
    2:{ unfold index in Hev. destruct (Z.ltb_spec i 0); [lia|].
        apply lookup_ge_None in Hev. unfold NumChildren in Hi. lia. }
    cbn. match goal with |- context [ev lp r0 r1 ?w1] =>
      destruct (Hkids ltac:(congruence) i ev Hev lp r0 r1 w1) as (v & w2 & Hv) end.
    rewrite Hv. cbn. eexists _, _. reflexivity.
  - eexists _, _. reflexivity.
  - unfold bind at 1, bind at 1, handlePlayerNode, bind at 1, in_profile. cbn.
    destruct (HGetStrategy node (profile w)) as (strat & pf' & Hs). rewrite Hs. cbn.
    unfold bind at 1.
    match goal with |- context [alloc ?n ?w1] =>
      destruct (alloc_length n w1) as (x & w2 & Ha & Hx); rewrite Ha end.
    unfold slice_scope, bind at 1.
    match goal with |- context [player_loop kids strat ?pl r0 r1 ?acts ?eu ?wx] =>
      destruct (total_player_loop strat pl r0 r1 acts ltac:(congruence) eu wx)
        as (eu' & [w3 x3] & Hl) end.
    { intros j Hj%elem_of_seqZ. cbn. unfold NumChildren in *. lia. }
    rewrite Hl. cbn. unfold bind at 1, with_slice, in_profile. cbn.
    match goal with |- context [AddRegret ?s ?a ?b ?y ?p] =>
      destruct (HAddRegret s a b y p) as (pf'' & Har); rewrite Har end.
    cbn. eexists _, _. reflexivity.
Qed.

End Handlers.

Lemma playable_returns node : playable node = true ->
  forall lp r0 r1, returns (runHelper node lp r0 r1).
Proof.
  induction node as [l ty pl key u children IH] using GameTreeNode_ind.
  intros Hplay lp r0 r1. rewrite chance_runHelper_unfold.
  apply total_runHelper_body.
  - now rewrite length_map.
  - cbn [Type_ Children]. intros Hnt i ev. rewrite index_map.
    destruct (index children i) as [child|] eqn:Hchild; [|done].
    intros [= <-]. rewrite Forall_forall in IH.
    apply index_Some in Hchild as [_ Hchild]. apply list_elem_of_lookup_2 in Hchild.
    apply IH; [done|].
    assert (forallb playable children = true) as Hall.
    { destruct ty; cbn in Hplay; [now apply andb_prop in Hplay as [_ ?]|done|done]. }
    rewrite forallb_forall in Hall. apply Hall. now apply list_elem_of_In.
  - cbn [Type_ Children]. intros -> ->. discriminate.
Qed.

(** The chance-sampling engine does not panic by itself: with a strategy
    profile whose methods return, on a tree whose chance nodes each have
    a child to sample, Run returns. *)
Theorem chance_Run_returns node w :
  playable node = true -> exists v w', Run node w = Ok v w'.
Proof. intros Hplay. apply (playable_returns node Hplay). Qed.

End ChanceTotal.
(** ** Robust sampling: what a traversal keeps and what it marks *)

Section RobustFrame.
Import f32 cfr RobustSampling.

#[global] Instance table_grows_preorder : PreOrder table_grows.
Proof.
  split.
  - intros pt. repeat split; try done. eauto.
  - intros p1 p2 p3 (Ha & Hb & Hc & Hd) (Ha' & Hb' & Hc' & Hd').
    repeat split; [congruence|congruence|set_solver|].
    intros key np Hnp. destruct (Hd key np Hnp) as (np2 & Hnp2 & Hn2).
    destruct (Hd' key np2 Hnp2) as (np3 & Hnp3 & Hn3). exists np3. split; [done|congruence].
Qed.

Abbreviation rwf := (world_frame table_grows).
Abbreviation rwfS := (fun a b : St => world_frame table_grows a.1 b.1).
Abbreviation rwfx := (fun a b : St * list float32 => world_frame table_grows a.1.1 b.1.1).

#[local] Instance rwfS_preorder : PreOrder rwfS.
Proof. split; [intros a; reflexivity|intros a b c ? ?; etrans; done]. Qed.
#[local] Instance rwfx_preorder : PreOrder rwfx.
Proof. split; [intros a; reflexivity|intros a b c ? ?; etrans; done]. Qed.

Lemma marked_grows node pt pt' : marked node pt -> table_grows pt pt' -> marked node pt'.
Proof.
  intros [Hin (np & Hnp & Hn)] (_ & _ & Hsub & Hkeep). split; [set_solver|].
  destruct (Hkeep _ _ Hnp) as (np' & Hnp' & Hn'). exists np'. split; [done|congruence].
Qed.

Lemma grows_GetPolicy node pt :
  match GetPolicy node pt with
  | Ok key pt' => table_grows pt pt' /\ key = Key node (Player node) /\ marked node pt'
  | Panic pt' => table_grows pt pt'
  end.
Proof.
  unfold GetPolicy.
  destruct (policiesByKey pt !! Key node (Player node)) as [np|] eqn:Hnp; cbn.
  - destruct (decide _) as [|Heq]; [reflexivity|]. apply dec_stable in Heq.
    split; [|split; [done|]].
    + repeat split; cbn; try done; try set_solver; eauto.
    + split; cbn; [set_solver|eauto].
  - destruct (decide _) as [Hne|_]; [now destruct Hne|].
    + split; [|split; [done|]].
      * repeat split; cbn; try done; try set_solver. intros key np Hk.
        destruct (decide (key = Key node (Player node))) as [->|Hne]; [congruence|].
        exists np. now rewrite lookup_insert_ne.
      * split; cbn; [set_solver|]. eexists. split; [apply lookup_insert_eq|done].
Qed.

Lemma grows_policy_read {A} np (f : Policy -> A) pt : always table_grows (policy_read np f) pt.
Proof. unfold always, policy_read. destruct (policiesByKey pt !! np); reflexivity. Qed.

Lemma grows_policy_update np (f : Policy -> Policy) pt :
  (forall p, NumActions (f p) = NumActions p) ->
  always table_grows (policy_update np f) pt.
Proof.
  intros Hf. unfold always, policy_update.
  destruct (policiesByKey pt !! np) as [pol|] eqn:Hpol; [|reflexivity].
  repeat split; cbn; try done. intros key p Hk.
  destruct (decide (key = np)) as [->|Hne].
  - exists (f pol). rewrite lookup_insert_eq. split; [done|]. rewrite Hf. congruence.
  - exists p. now rewrite lookup_insert_ne.
Qed.

Lemma frame_world {A} (m : M (World PolicyTable) A) st :
  always rwf m st.1 -> always rwfS (world m) st.
Proof. unfold always, world. now destruct (m st.1). Qed.

Lemma frame_with_slice {A} (m : M St A) sx : always rwfS m sx.1 -> always rwfx (with_slice m) sx.
Proof. unfold always, with_slice. now destruct (m sx.1). Qed.

Lemma frame_slice_set i v (sx : St * list float32) : always rwfx (slice_set i v) sx.
Proof. unfold always, slice_set. destruct (decide _); reflexivity. Qed.

Lemma frame_GetChild {S'} (R : S' -> S' -> Prop) `{!PreOrder R}
    (kids : list (evaluator St)) i s :
  always R (GetChild kids i) s.
Proof.
  unfold GetChild. destruct (index kids i); [apply always_ret|apply always_panic]; done.
Qed.

Lemma GetChild_Ok {S'} (kids : list (evaluator St)) i (s s' : S') ev :
  GetChild kids i s = Ok ev s' -> index kids i = Some ev.
Proof. unfold GetChild. destruct (index kids i); [now intros [= <- _]|discriminate]. Qed.

Lemma frame_shuffle_loop i : forall l w, always rwf (shuffle_loop i l) w.
Proof.
  induction i as [|i IH]; intros l w; [apply always_ret; apply _|].
  cbn [shuffle_loop]. apply always_bind; [apply _|apply frame_Intn; try apply _|].
  intros j w1 _. apply IH.
Qed.

Lemma frame_select c n st : always rwfS (select_actions c n) st.
Proof.
  unfold select_actions. destruct (k c <? _); [|apply always_ret; apply _].
  apply always_bind; [apply _| |].
  - apply frame_world, frame_shuffle_loop.
  - intros l st1 _. destruct (k c <? 0); [apply always_panic|apply always_ret]; apply _.
Qed.

Lemma frame_alloc_scope {A} n (body : list float32 -> M (St * list float32) A) st :
  (forall x sx, always rwfx (body x) sx) ->
  always rwfS (x <- world (alloc n) ;; slice_scope x (body x))%go st.
Proof.
  intros Hbody. unfold always, bind, world, alloc, slice_scope.
  destruct st as [[pf [|b rest] r t] cache]; cbn.
  - match goal with |- context [body ?x ?sx] =>
      pose proof (Hbody x sx) as Hb; unfold always in Hb;
      destruct (body x sx) as [a [[w' c'] x']|[[w' c'] x']] end;
      unfold world_frame in *; cbn in *; destruct Hb as (?&?&?&?&?);
      refine (conj _ (conj _ (conj _ (conj _ _)))); first [done | lia].
  - match goal with |- context [body ?x ?sx] =>
      pose proof (Hbody x sx) as Hb; unfold always in Hb;
      destruct (body x sx) as [a [[w' c'] x']|[[w' c'] x']] end;
      unfold world_frame in *; cbn in *; destruct Hb as (?&?&?&?&?);
      refine (conj _ (conj _ (conj _ (conj _ _)))); first [done | lia].
Qed.

Section Handlers.
Variable c : RobustSamplingCFR.
Variable node : GameTreeNode.
Variable kids : list (evaluator St).
Hypothesis Hkids : forall i ev, index kids i = Some ev ->
  forall lp sp tp st, always rwfS (ev lp sp tp) st.


Lemma marked_after_GetPolicy (rest : string -> M St float32) st :
  (forall policy st1, always rwfS (rest policy) st1) ->
  framed_marked node st ((policy <- world (in_profile (GetPolicy node)) ;; rest policy)%go st).
Proof.
  intros Hrest. unfold bind, world, in_profile.
  pose proof (grows_GetPolicy node (profile st.1)) as Hg.
  destruct (GetPolicy node (profile st.1)) as [key pt'|pt'].
  - destruct Hg as (Hg & _ & Hm).
    match goal with |- context [rest key ?s1] =>
      pose proof (Hrest key s1) as Hr; unfold always in Hr; destruct (rest key s1) as [v st'|st']
    end; cbn in *.
    + split.
      * etrans; [|exact Hr]. now apply frame_set_profile.
      * eapply marked_grows; [exact Hm|]. apply Hr.
    + etrans; [|exact Hr]. now apply frame_set_profile.
  - cbn. now apply frame_set_profile.
Qed.

Lemma frame_child i lp sp tp st :
  always rwfS (child <- GetChild kids i ;; child lp sp tp)%go st.
Proof.
  apply always_bind; [apply _|apply frame_GetChild; apply _|].
  intros ev st1 Hev. pose proof (GetChild_Ok _ _ _ _ _ Hev) as Hi. now apply (Hkids i).
Qed.

Lemma frame_handleChanceNode lp sp tp st : always rwfS (handleChanceNode node kids lp sp tp) st.
Proof.
  unfold handleChanceNode. apply always_bind; [apply _| |].
  - apply frame_world, frame_Intn; try apply _.
  - intros i st1 _. apply frame_child.
Qed.

Lemma frame_traversing_loop strategy player q sp tp sel : forall cf sx,
  always rwfx (traversing_loop kids strategy player q sp tp sel cf) sx.
Proof.
  induction sel as [|i sel IH]; intros cf sx; [apply always_ret; apply _|].
  cbn [traversing_loop]. apply always_bind; [apply _|apply frame_GetChild; apply _|].
  intros ev sx1 Hev. pose proof (GetChild_Ok _ _ _ _ _ Hev) as Hi.
  apply always_bind; [apply _| |].
  { destruct (index strategy i); [apply always_ret|apply always_panic]; apply _. }
  intros p sx2 _. apply always_bind; [apply _| |].
  { apply frame_with_slice. now apply (Hkids i). }
  intros util sx3 _. apply always_bind; [apply _|apply frame_slice_set|].
  intros _ sx4 _. apply IH.
Qed.

Lemma marks_handleTraversingPlayerNode sp tp st :
  framed_marked node st (handleTraversingPlayerNode c node kids sp tp st).
Proof.
  unfold handleTraversingPlayerNode. apply marked_after_GetPolicy; unfold framed_marked. intros policy st1.
  apply always_bind; [apply _| |].
  { apply frame_world, frame_in_profile; try apply _. apply grows_policy_read. }
  intros strategy st2 _. apply always_bind; [apply _|apply frame_select|].
  intros sel st3 _. apply frame_alloc_scope. intros x sx.
  apply always_bind; [apply _|apply frame_traversing_loop|].
  intros cf sx1 _. apply always_bind; [apply _|unfold always, modify; reflexivity|].
  intros _ sx2 _. apply always_bind; [apply _|apply always_get; apply _|].
  intros sx3 sx4 _. apply always_bind; [apply _| |].
  { apply frame_with_slice, frame_world, frame_in_profile; try apply _.
    intros p. now apply grows_policy_update. }
  intros _ sx5 _. apply always_ret. apply _.
Qed.

Lemma marks_handleSampledPlayerNode sp tp st :
  framed_marked node st (handleSampledPlayerNode node kids sp tp st).
Proof.
  unfold handleSampledPlayerNode. apply marked_after_GetPolicy; unfold framed_marked. intros policy st1.
  apply always_bind; [apply _|apply always_get; apply _|].
  intros st1' st2 _. apply always_bind; [apply _| |].
  { destruct (st1'.2 !! _); [apply always_ret; apply _|].
    apply always_bind; [apply _| |].
    { apply frame_world, frame_in_profile; try apply _. apply grows_policy_read. }
    intros strategy st3 _. apply always_bind; [apply _| |].
    { apply frame_world. unfold sampleOne. apply always_bind; [apply _| |].
      - apply frame_Float32; try apply _.
      - intros; apply always_ret; apply _. }
    intros i st4 _. apply always_bind; [apply _|unfold always, modify; reflexivity|].
    intros; apply always_ret; apply _. }
  intros i st3 _. apply always_bind; [apply _| |].
  { apply frame_world, frame_in_profile; try apply _.
    intros p. now apply grows_policy_update. }
  intros _ st4 _. apply frame_child.
Qed.

Lemma marks_runHelper_body lp sp tp st :
  match runHelper_body c node kids lp sp tp st with
  | Ok _ st' => rwfS st st' /\ (Type_ node = PlayerNode -> marked node (profile st'.1))
  | Panic st' => rwfS st st'
  end.
Proof.
  unfold runHelper_body, bind at 1, world, node_Type, bind at 1, emit, ret. cbn.
  set (st1 := (_, st.2)).
  assert (rwfS st st1) as H1.
  { apply (frame_add_event table_grows). }
  assert (forall st2 : St,
            rwfS st1 st2 ->
            rwfS st (({| profile := profile st2.1; pool := pool st2.1; rng := rng st2.1;
                        trace := trace st2.1 ++ [EvClose (Label node)] |}, st2.2) : St)) as Hclose.
  { intros st2 H2. etrans; [exact H1|]. etrans; [exact H2|].
    apply (frame_add_event table_grows). }
  destruct (Type_ node) eqn:Hty.
  - unfold bind at 1. pose proof (frame_handleChanceNode lp sp tp st1) as Hh.
    unfold always in Hh. destruct (handleChanceNode _ _ _ _ _ _) as [v st2|st2].
    + cbn. split; [exact (Hclose st2 Hh)|done].
    + etrans; [exact H1|exact Hh].
  - cbn. split; [|done]. apply (Hclose st1). reflexivity.
  - unfold bind at 1, bind at 1, handlePlayerNode.
    assert (framed_marked node st1 (if decide (tp = Player node)
                      then handleTraversingPlayerNode c node kids sp tp st1
                      else handleSampledPlayerNode node kids sp tp st1)) as Hh.
    { destruct (decide _);
        [apply marks_handleTraversingPlayerNode|apply marks_handleSampledPlayerNode]. }
    replace ((if decide (tp = Player node)
              then handleTraversingPlayerNode c node kids sp tp
              else handleSampledPlayerNode node kids sp tp) st1)
      with (if decide (tp = Player node)
            then handleTraversingPlayerNode c node kids sp tp st1
            else handleSampledPlayerNode node kids sp tp st1) by now destruct (decide _).
    destruct (if decide (tp = Player node) then _ else _) as [v st2|st2]; cbn in *.
    + destruct Hh as [Hf Hm]. split; [exact (Hclose st2 Hf)|]. intros _. exact Hm.
    + etrans; [exact H1|exact Hh].
Qed.

End Handlers.

Lemma marks_runHelper c node : forall lp sp tp st,
  match runHelper c node lp sp tp st with
  | Ok _ st' => rwfS st st' /\ (Type_ node = PlayerNode -> marked node (profile st'.1))
  | Panic st' => rwfS st st'
  end.
Proof.
  induction node as [l ty pl key u children IH] using GameTreeNode_ind.
  intros lp sp tp st. rewrite runHelper_unfold. apply marks_runHelper_body.
  intros i ev. rewrite index_map. cbn [Children].
  destruct (index children i) as [child|] eqn:Hchild; [|done].
  intros [= <-]. rewrite Forall_forall in IH.
  apply index_Some in Hchild as [_ Hchild]. apply list_elem_of_lookup_2 in Hchild.
  intros lp' sp' tp' st'. specialize (IH child Hchild lp' sp' tp' st').
  unfold always. destruct (runHelper c child lp' sp' tp' st'); [apply IH|exact IH].
Qed.

(** However a robust-sampling Run ends, on a return or a panic, the
    table has the same parameters and iteration counter, every policy it
    had is still there with its number of actions, nothing was removed
    from the set of policies to update, every slice taken from the pool
    has been put back, the random source is the same stream read no less
    far, and the trace has only been added to. *)
Theorem Run_frame c node w :
  match Run c node w with
  | Ok _ w' | Panic w' =>
      table_grows (profile w) (profile w') /\
      (length (pool w) <= length (pool w'))%nat /\
      raw (rng w') = raw (rng w) /\ (cursor (rng w) <= cursor (rng w'))%nat /\
      trace w `prefix_of` trace w'
  end.
Proof.
  unfold Run.
  pose proof (marks_runHelper c node (Player node) one (Z.rem (Iter (profile w)) 2) (w, ∅)) as Hg.
  destruct (runHelper _ _ _ _ _ _) as [v [w' c']|[w' c']]; [apply Hg|exact Hg].
Qed.

(** Whenever the robust-sampling evaluator returns on a player node, the
    table has a policy under the node's infoset key, sized to the node's
    children and marked for update; and in every table the rest of the
    traversal can leave, the policy is still there and the next Update
    rematches it. *)
Theorem runHelper_marks c node lp sp tp st v st' :
  Type_ node = PlayerNode -> runHelper c node lp sp tp st = Ok v st' ->
  marked node (profile st'.1) /\
  (forall pt'', table_grows (profile st'.1) pt'' ->
     exists np, policiesByKey pt'' !! Key node (Player node) = Some np /\
       NumActions np = NumChildren node /\
       policiesByKey (Update pt'') !! Key node (Player node) =
         Some (NextStrategy (params pt'' (iter pt'')).1.1 (params pt'' (iter pt'')).1.2
                            (params pt'' (iter pt'')).2 np)).
Proof.
  intros Hty Hrun. pose proof (marks_runHelper c node lp sp tp st) as Hg.
  rewrite Hrun in Hg. destruct Hg as [_ Hm]. specialize (Hm Hty). split; [done|].
  intros pt'' Hgrow. destruct (marked_grows _ _ _ Hm Hgrow) as [Hin (np & Hnp & Hn)].
  exists np. split; [done|]. split; [done|].
  unfold Update. destruct (params pt'' (iter pt'')) as [[? ?] ?]. cbn.
  rewrite map_lookup_imap, Hnp. cbn. now destruct (decide _).
Qed.

End RobustFrame.

(** ** The further properties of the engines and the table on sample data *)

Section EngineMoreExamples.
Import f32 cfr RobustSampling traces cfr_example.

Lemma GetPolicy_shared_witness :
  GetPolicy three (profile (world0 1 0)) =
    Ok "root" {| params := vanilla; iter := 1;
                 policiesByKey := {["root" := policy_New 3]};
                 mayNeedUpdate := {["root"]} |} /\
  GetPolicy three {| params := vanilla; iter := 1;
                     policiesByKey := {["root" := policy_New 3]};
                     mayNeedUpdate := {["root"]} |} =
    Ok "root" {| params := vanilla; iter := 1;
                 policiesByKey := {["root" := policy_New 3]};
                 mayNeedUpdate := {["root"]} |}.
Proof.
  assert (GetPolicy three (profile (world0 1 0)) =
            Ok "root" {| params := vanilla; iter := 1;
                         policiesByKey := {["root" := policy_New 3]};
                         mayNeedUpdate := {["root"]} |}) as Hget.
  { vm_compute. reflexivity. }
  split; [exact Hget|].
  exact (proj1 (proj2 (GetPolicy_shared three three _ _ _ Hget eq_refl eq_refl))).
Defined.

Lemma Marshal_Unmarshal_witness :
  map_to_list ({["root" := policy_New 3]} : gmap string Policy) ≡ₚ
    map_to_list ({["root" := policy_New 3]} : gmap string Policy) /\
  exists stream pt',
    MarshalBinary map_to_list {| params := vanilla; iter := 4;
                                 policiesByKey := {["root" := policy_New 3]};
                                 mayNeedUpdate := {["root"]} |} = inl stream /\
    UnmarshalBinary stream (NewPolicyTable vanilla) = (None, pt') /\
    iter pt' = 4 /\ policiesByKey pt' = {["root" := policy_New 3]} /\
    mayNeedUpdate pt' = ∅.
Proof.
  split; [reflexivity|].
  destruct (Marshal_Unmarshal map_to_list
              {| params := vanilla; iter := 4; policiesByKey := {["root" := policy_New 3]};
                 mayNeedUpdate := {["root"]} |} (NewPolicyTable vanilla)
              (reflexivity _))
    as (stream & pt' & Hm & Hu & _ & Hit & Hpk & Hmu & _).
  exists stream, pt'. split; [exact Hm|]. split; [exact Hu|]. split; [exact Hit|].
  split; [exact Hpk|exact Hmu].
Defined.

Lemma uniform_profile_keeps :
  (forall node p, always eq (ChanceSampling.GetStrategy node) p) /\
  (forall strat i p, always eq (ChanceSampling.GetActionProbability strat i) p) /\
  (forall strat a b x p, always eq (ChanceSampling.AddRegret strat a b x) p).
Proof. repeat split. Qed.

Lemma uniform_profile_returns :
  (forall node p, exists s p', ChanceSampling.GetStrategy node p = Ok s p') /\
  (forall strat i p, exists x p', ChanceSampling.GetActionProbability strat i p = Ok x p') /\
  (forall strat a b x p, exists p', ChanceSampling.AddRegret strat a b x p = Ok tt p').
Proof. repeat split; intros; eexists; try eexists; reflexivity. Qed.

Lemma chance_Run_frame_witness :
  ((forall node p, always eq (ChanceSampling.GetStrategy node) p) /\
   (forall strat i p, always eq (ChanceSampling.GetActionProbability strat i) p) /\
   (forall strat a b x p, always eq (ChanceSampling.AddRegret strat a b x) p)) /\
  match ChanceSampling.Run three unit_world with
  | Ok _ w' | Panic w' =>
      (length (pool unit_world) <= length (pool w'))%nat /\
      trace unit_world `prefix_of` trace w'
  end.
Proof.
  split; [exact uniform_profile_keeps|].
  destruct uniform_profile_keeps as (H1 & H2 & H3).
  pose proof (chance_Run_frame eq H1 H2 H3 three unit_world) as Hf.
  destruct (ChanceSampling.Run three unit_world); destruct Hf as (_ & Hp & _ & _ & Ht);
    split; [exact Hp|exact Ht|exact Hp|exact Ht].
Defined.

Lemma chance_free_traversal_witness :
  chance_free three = true /\
  exists v w',
    ChanceSampling.Run three unit_world = Ok v w' /\
    trace w' = [EvType 0; EvType 1; EvClose 1; EvType 2; EvClose 2;
                EvType 3; EvClose 3; EvClose 0] /\
    rng w' = rng unit_world.
Proof.
  split; [reflexivity|].
  destruct uniform_profile_returns as (H1 & H2 & H3).
  destruct (playable_returns H1 H2 H3 three eq_refl (Player three) one one unit_world)
    as (v & w' & Hrun).
  exists v, w'. split; [exact Hrun|].
  exact (chance_free_traversal three unit_world v w' eq_refl Hrun).
Defined.

Lemma chance_Run_returns_witness :
  ((forall node p, exists s p', ChanceSampling.GetStrategy node p = Ok s p') /\
   (forall strat i p, exists x p', ChanceSampling.GetActionProbability strat i p = Ok x p') /\
   (forall strat a b x p, exists p', ChanceSampling.AddRegret strat a b x p = Ok tt p')) /\
  playable clash = true /\
  exists v w', ChanceSampling.Run clash unit_world = Ok v w'.
Proof.
  split; [exact uniform_profile_returns|]. split; [reflexivity|].
  destruct uniform_profile_returns as (H1 & H2 & H3).
  exact (chance_Run_returns H1 H2 H3 clash unit_world eq_refl).
Defined.

Lemma runHelper_marks_witness :
  Type_ three = PlayerNode /\
  exists v st',
    runHelper (NewRobustSampling 2) three 0 one 0 (world0 2 0, ∅) = Ok v st' /\
    marked three (profile st'.1).
Proof.
  split; [reflexivity|].
  assert (exists v st',
            runHelper (NewRobustSampling 2) three 0 one 0 (world0 2 0, ∅) = Ok v st')
    as (v & st' & Hrun).
  { destruct (runHelper (NewRobustSampling 2) three 0 one 0 (world0 2 0, ∅)) eqn:Hrun;
      [eauto|]. exfalso. revert Hrun. vm_compute. discriminate. }
  exists v, st'. split; [exact Hrun|].
  exact (proj1 (runHelper_marks (NewRobustSampling 2) three 0 one 0 _ v st' eq_refl Hrun)).
Defined.

End EngineMoreExamples.

(** ** Robust sampling: the engine does not panic on a well-formed game *)

Section RobustTotal.
Import f32 cfr RobustSampling traces.
Variable c : RobustSamplingCFR.
Variable I : list (string * Z).
Hypothesis Hk : 0 <= k c.
Hypothesis HI : consistent I.

Lemma regretMatching_length n R : length (regretMatching n R) = length R.
Proof.
  unfold regretMatching. destruct (ltb _ _).
  - now rewrite !length_fmap.
  - apply length_replicate.
Qed.

Lemma policy_ok_New n : 0 <= n -> policy_ok n (policy_New n).
Proof.
  intros Hn. unfold policy_ok, policy_New. cbn.
  rewrite regretMatching_length, !length_replicate. done.
Qed.

Lemma policy_ok_AddRegret n w values p :
  policy_ok n p -> length values = Z.to_nat n -> policy_ok n (AddRegret w values p).
Proof.
  intros (H1 & H2 & H3 & H4) Hv. unfold policy_ok, AddRegret. cbn.
  rewrite length_zip_with. repeat split; try done. lia.
Qed.

Lemma policy_ok_AddStrategyWeight n w p :
  policy_ok n p -> policy_ok n (AddStrategyWeight w p).
Proof.
  intros (H1 & H2 & H3 & H4). unfold policy_ok, AddStrategyWeight. cbn.
  rewrite length_zip_with. repeat split; try done. lia.
Qed.

Lemma policy_ok_NextStrategy n a b d p :
  policy_ok n p -> policy_ok n (NextStrategy a b d p).
Proof.
  intros (H1 & H2 & H3 & H4). unfold policy_ok, NextStrategy. cbn.
  rewrite regretMatching_length, !length_fmap. done.
Qed.

Lemma table_ok_Update pt : table_ok I pt -> table_ok I (Update pt).
Proof.
  intros Hok key n np Hin. unfold Update.
  destruct (params pt (iter pt)) as [[a b] d]. cbn. rewrite map_lookup_imap.
  destruct (policiesByKey pt !! key) as [np0|] eqn:Hnp0; [|done]. cbn.
  intros [= <-]. specialize (Hok key n np0 Hin Hnp0).
  destruct (decide _); [now apply policy_ok_NextStrategy|done].
Qed.

Lemma table_ok_insert pt key n np :
  table_ok I pt -> (key, n) ∈ I -> policy_ok n np ->
  table_ok I {| params := params pt; iter := iter pt;
                policiesByKey := <[key := np]> (policiesByKey pt);
                mayNeedUpdate := mayNeedUpdate pt |}.
Proof.
  intros Hok Hin Hnp key' n' np' Hin'. cbn.
  destruct (decide (key' = key)) as [->|Hne].
  - rewrite lookup_insert_eq. intros [= <-]. now rewrite (HI key n' n Hin' Hin).
  - rewrite lookup_insert_ne by done. now apply Hok.
Qed.

Lemma GetPolicy_total node pt :
  table_ok I pt -> (Key node (Player node), NumChildren node) ∈ I ->
  exists pt' np,
    GetPolicy node pt = Ok (Key node (Player node)) pt' /\
    table_ok I pt' /\ table_grows pt pt' /\
    policiesByKey pt' !! Key node (Player node) = Some np /\
    policy_ok (NumChildren node) np.
Proof.
  intros Hok Hin. pose proof (grows_GetPolicy node pt) as Hg. unfold GetPolicy in *.
  destruct (policiesByKey pt !! Key node (Player node)) as [np|] eqn:Hnp; cbn in *.
  - pose proof (Hok _ _ _ Hin Hnp) as Hnp_ok.
    destruct (decide _) as [Hne|_]; [destruct Hne; apply Hnp_ok|].
    destruct Hg as (Hg & _ & _).
    eexists _, np. split; [reflexivity|]. split; [|split; [exact Hg|done]].
    intros key n np' Hin'. cbn. now apply Hok.
  - destruct (decide _) as [Hne|_]; [now destruct Hne|].
    destruct Hg as (Hg & _ & _).
    assert (policy_ok (NumChildren node) (policy_New (NumChildren node))) as Hnew.
    { apply policy_ok_New. unfold NumChildren. lia. }
    eexists _, _. split; [reflexivity|]. split; [|split; [exact Hg|split; [|exact Hnew]]].
    + intros key n np' Hin'. cbn.
      destruct (decide (key = Key node (Player node))) as [->|Hne].
      * rewrite lookup_insert_eq. intros [= <-]. now rewrite (HI _ n _ Hin' Hin).
      * rewrite lookup_insert_ne by done. now apply Hok.
    + cbn. apply lookup_insert_eq.
Qed.

Lemma sampleOne_scan_range x pv : forall cum i,
  pv <> [] -> i <= sampleOne_scan x cum i pv <= i + Z.of_nat (length pv) - 1.
Proof.
  induction pv as [|p pv IH]; intros cum i Hne; [done|].
  cbn [sampleOne_scan length]. destruct (ltb x (add cum p)); [lia|].
  destruct pv as [|p' pv'].
  - cbn. lia.
  - specialize (IH (add cum p) (i + 1) ltac:(done)). cbn [length] in *. lia.
Qed.

Lemma cache_ok_grows (w w' : World PolicyTable) cache :
  cache_ok (w, cache) -> table_grows (profile w) (profile w') -> cache_ok (w', cache).
Proof.
  intros Hc (_ & _ & _ & Hkeep) key i Hi. destruct (Hc key i Hi) as (np & Hnp & Hr).
  destruct (Hkeep key np Hnp) as (np' & Hnp' & Hn). exists np'. split; [done|].
  unfold NumActions in Hn. cbn. lia.
Qed.

Lemma cache_ok_insert (w : World PolicyTable) cache key i np :
  cache_ok (w, cache) -> policiesByKey (profile w) !! key = Some np -> 0 <= i < nActions np ->
  cache_ok (w, <[key := i]> cache).
Proof.
  intros Hc Hnp Hi key' i'. cbn. destruct (decide (key' = key)) as [->|Hne].
  - rewrite lookup_insert_eq. intros [= <-]. eauto.
  - rewrite lookup_insert_ne by done. apply Hc.
Qed.


Abbreviation runs := (fun ev : evaluator St =>
  forall lp sp tp st, sound I st ->
    exists v st', ev lp sp tp st = Ok v st' /\ sound I st' /\
                  table_grows (profile st.1) (profile st'.1)).

Lemma sound_profile (w w' : World PolicyTable) cache :
  sound I (w, cache) -> profile w' = profile w -> sound I (w', cache).
Proof.
  intros [Ht Hc] E. split; cbn; [now rewrite E|].
  intros key i Hi. cbn. rewrite E. now apply Hc.
Qed.

Section Handlers.
Variable node : GameTreeNode.
Variable kids : list (evaluator St).
Hypothesis Hlen : length kids = length (Children node).
Hypothesis Hkids : Type_ node <> TerminalNode -> forall i ev, index kids i = Some ev -> runs ev.

Lemma kid_at i : 0 <= i < NumChildren node -> exists ev, index kids i = Some ev.
Proof.
  intros Hi. unfold index. destruct (Z.ltb_spec i 0); [lia|].
  apply lookup_lt_is_Some. unfold NumChildren in Hi. lia.
Qed.

Lemma step_Intn n (st : St) :
  0 < n ->
  exists i w1, world (Intn n) st = Ok i (w1, st.2) /\ 0 <= i < n /\
    profile w1 = profile st.1 /\ table_grows (profile st.1) (profile w1).
Proof.
  intros Hn. unfold world, Intn. rewrite rand_Intn_pos by done.
  eexists _, _. split; [reflexivity|]. split; [apply Z.mod_pos_bound; lia|].
  split; reflexivity.
Qed.

Lemma step_GetPolicy (st : St) :
  sound I st -> (Key node (Player node), NumChildren node) ∈ I ->
  exists w1 np,
    world (in_profile (GetPolicy node)) st = Ok (Key node (Player node)) (w1, st.2) /\
    sound I (w1, st.2) /\ table_grows (profile st.1) (profile w1) /\
    policiesByKey (profile w1) !! Key node (Player node) = Some np /\
    policy_ok (NumChildren node) np.
Proof.
  intros [Ht Hc] Hin.
  destruct (GetPolicy_total node (profile st.1) Ht Hin) as (pt' & np & Hget & Ht' & Hg & Hnp & Hok).
  unfold world, in_profile. rewrite Hget. eexists _, np. split; [reflexivity|].
  split; [|split; [exact Hg|split; [exact Hnp|exact Hok]]].
  split; [exact Ht'|]. destruct st as [w cache]. now apply (cache_ok_grows w).
Qed.

Lemma step_policy_read {A} key (f : Policy -> A) (st : St) np :
  policiesByKey (profile st.1) !! key = Some np ->
  world (in_profile (policy_read key f)) st =
    Ok (f np) ({| profile := profile st.1; pool := pool st.1; rng := rng st.1;
                  trace := trace st.1 |}, st.2).
Proof. intros Hnp. unfold world, in_profile, policy_read. now rewrite Hnp. Qed.

Lemma step_policy_update key n (f : Policy -> Policy) (st : St) np :
  sound I st -> (key, n) ∈ I -> policiesByKey (profile st.1) !! key = Some np ->
  (forall p, policy_ok n p -> policy_ok n (f p)) ->
  exists w1,
    world (in_profile (policy_update key f)) st = Ok tt (w1, st.2) /\
    sound I (w1, st.2) /\ table_grows (profile st.1) (profile w1) /\
    pool w1 = pool st.1.
Proof.
  intros [Ht Hc] Hin Hnp Hf.
  pose proof (Ht key n np Hin Hnp) as Hok.
  assert (NumActions (f np) = NumActions np) as Hn.
  { destruct (Hf np Hok) as [E _]. destruct Hok as [E' _].
    unfold NumActions. congruence. }
  assert (table_grows (profile st.1)
            {| params := params (profile st.1); iter := iter (profile st.1);
               policiesByKey := <[key := f np]> (policiesByKey (profile st.1));
               mayNeedUpdate := mayNeedUpdate (profile st.1) |}) as Hg.
  { repeat split; cbn; try done. intros key' p Hkp.
    destruct (decide (key' = key)) as [->|Hne].
    - exists (f np). rewrite lookup_insert_eq. split; [done|]. rewrite Hn. congruence.
    - exists p. now rewrite lookup_insert_ne. }
  unfold world, in_profile, policy_update. rewrite Hnp. eexists. split; [reflexivity|].
  split; [|split; [exact Hg|reflexivity]].
  split; cbn.
  - apply (table_ok_insert _ key n); [done..|now apply Hf].
  - destruct st as [w cache]. now apply (cache_ok_grows w).
Qed.

Lemma sound_child i lp sp tp (st : St) :
  Type_ node <> TerminalNode -> 0 <= i < NumChildren node -> sound I st ->
  exists v st', (child <- GetChild kids i ;; child lp sp tp)%go st = Ok v st' /\
    sound I st' /\ table_grows (profile st.1) (profile st'.1).
Proof.
  intros Hnt Hi Hs. destruct (kid_at i Hi) as (ev & Hev).
  unfold bind, GetChild. rewrite Hev. cbn. now apply (Hkids Hnt i ev Hev).
Qed.

Lemma sound_handleChanceNode lp sp tp st :
  Type_ node <> TerminalNode -> 0 < NumChildren node -> sound I st ->
  exists v st', handleChanceNode node kids lp sp tp st = Ok v st' /\ sound I st' /\
                table_grows (profile st.1) (profile st'.1).
Proof.
  intros Hnt Hpos Hs. unfold handleChanceNode, bind at 1, node_SampleChild.
  destruct (step_Intn (NumChildren node) st Hpos) as (i & w1 & Hrun & Hi & Hp & Hf).
  rewrite Hrun.
  destruct (sound_child i lp sp tp (w1, st.2) Hnt Hi) as (v & st' & Hrun' & Hs' & Hf').
  { destruct st as [w cache]. now apply (sound_profile w). }
  exists v, st'. split; [exact Hrun'|]. split; [exact Hs'|]. etrans; [exact Hf|exact Hf'].
Qed.

Lemma sound_handleSampledPlayerNode sp tp st :
  Type_ node <> TerminalNode -> 0 < NumChildren node -> (Key node (Player node), NumChildren node) ∈ I -> sound I st ->
  exists v st', handleSampledPlayerNode node kids sp tp st = Ok v st' /\ sound I st' /\
                table_grows (profile st.1) (profile st'.1).
Proof.
  intros Hnt Hpos Hin Hs. unfold handleSampledPlayerNode, bind at 1.
  destruct (step_GetPolicy st Hs Hin) as (w1 & np & Hget & Hs1 & Hf1 & Hnp & Hok).
  rewrite Hget. unfold bind at 1, get. cbn [fst snd].
  assert (exists i w2,
            (match st.2 !! Key node (Player node) with
             | Some i => ret i
             | None =>
                 (strategy <- world (in_profile (policy_read (Key node (Player node)) GetStrategy)) ;;
                  i <- world (sampleOne strategy) ;;
                  modify (fun st => (st.1, <[Key node (Player node) := i]> st.2)) ;;;
                  ret i)%go
             end) (w1, st.2) = Ok i w2 /\
            0 <= i < NumChildren node /\ sound I w2 /\ table_grows (profile w1) (profile w2.1) /\
            policiesByKey (profile w2.1) !! Key node (Player node) = Some np)
    as (i & st2 & Hi_run & Hi & Hs2 & Hf2 & Hnp2).
  { destruct (st.2 !! Key node (Player node)) as [i|] eqn:Hcache.
    - exists i, (w1, st.2). split; [reflexivity|]. split; [|split; [done|split; [reflexivity|done]]].
      destruct Hs1 as [_ Hc1]. destruct (Hc1 _ _ Hcache) as (np' & Hnp' & Hr).
      cbn in Hnp'. rewrite Hnp in Hnp'. injection Hnp' as <-.
      destruct Hok as [E _]. lia.
    - unfold bind at 1. rewrite (step_policy_read _ _ (w1, st.2) np Hnp).
      unfold bind at 1, world, sampleOne, bind at 1, Float32. cbn.
      set (i := sampleOne_scan _ _ _ _).
      assert (0 <= i < NumChildren node) as Hi.
      { pose proof Hok as (_ & _ & _ & Hlen'). unfold GetStrategy in *.
        assert (currentStrategy np <> []) as Hne.
        { intros E. rewrite E in Hlen'. cbn in Hlen'. lia. }
        pose proof (sampleOne_scan_range
                      (div (of_int (raw (rng w1) (cursor (rng w1)) mod 2 ^ 24)) (of_int (2 ^ 24)))
                      (currentStrategy np) zero 0 Hne) as Hr.
        fold i in Hr. rewrite Hlen' in Hr. lia. }
      eexists i, _. split; [reflexivity|]. split; [exact Hi|].
      split; [|split; [|exact Hnp]].
      + split; cbn; [apply Hs1|].
        apply (cache_ok_insert _ _ _ _ np); [|exact Hnp|destruct Hok as [E _]; lia].
        intros key j Hj. destruct Hs1 as [_ Hc1]. apply (Hc1 key j Hj).
      + cbn. reflexivity. }
  unfold bind at 1. rewrite Hi_run. unfold bind at 1.
  destruct (step_policy_update (Key node (Player node)) (NumChildren node)
              (AddStrategyWeight (div one sp)) st2 np Hs2 Hin Hnp2)
    as (w3 & Hupd & Hs3 & Hf3 & _).
  { intros p. apply policy_ok_AddStrategyWeight. }
  rewrite Hupd.
  destruct (sound_child i (Player node) sp tp (w3, st2.2) Hnt Hi Hs3) as (v & st' & Hrun' & Hs' & Hf').
  exists v, st'. split; [exact Hrun'|]. split; [exact Hs'|].
  etrans; [exact Hf1|]. etrans; [exact Hf2|]. etrans; [exact Hf3|exact Hf'].
Qed.

Lemma sound_traversing_loop strategy player q sp tp sel :
  Type_ node <> TerminalNode ->
  (forall i, i ∈ sel -> 0 <= i < NumChildren node) ->
  length strategy = Z.to_nat (NumChildren node) ->
  forall cf (sx : St * list float32),
  sound I sx.1 -> length sx.2 = Z.to_nat (NumChildren node) ->
  exists v sx',
    traversing_loop kids strategy player q sp tp sel cf sx = Ok v sx' /\
    sound I sx'.1 /\ length sx'.2 = Z.to_nat (NumChildren node) /\
    table_grows (profile sx.1.1) (profile sx'.1.1).
Proof.
  intros Hnt Hsel Hstrat. induction sel as [|i sel IH]; intros cf sx Hs Hx.
  - eexists _, _. split; [reflexivity|]. split; [done|]. split; [done|reflexivity].
  - assert (0 <= i < NumChildren node) as Hi by (apply Hsel; left).
    destruct (kid_at i Hi) as (ev & Hev).
    cbn [traversing_loop]. unfold bind at 1, GetChild. rewrite Hev. cbn.
    assert (exists p, index strategy i = Some p) as (p & Hp).
    { unfold index. destruct (Z.ltb_spec i 0); [lia|]. apply lookup_lt_is_Some. lia. }
    unfold bind at 1. rewrite Hp. cbn. unfold bind at 1, with_slice.
    destruct (Hkids Hnt i ev Hev player (mul q sp) tp sx.1 Hs) as (util & st1 & Hrun & Hs1 & Hg1).
    rewrite Hrun. cbn. unfold bind at 1, slice_set. cbn.
    destruct (decide (0 <= i < Z.of_nat (length sx.2))) as [_|Hn]; [|lia].
    destruct (IH ltac:(intros j Hj; apply Hsel; now right) (add cf (mul p util))
                (st1, <[Z.to_nat i := util]> sx.2) Hs1 ltac:(cbn; now rewrite length_insert))
      as (v & sx' & Hrun' & Hs' & Hx' & Hg').
    exists v, sx'. split; [exact Hrun'|]. split; [exact Hs'|]. split; [exact Hx'|].
    etrans; [exact Hg1|exact Hg'].
Qed.

Lemma sound_handleTraversingPlayerNode sp tp st :
  Type_ node <> TerminalNode ->
  (Key node (Player node), NumChildren node) ∈ I -> sound I st ->
  exists v st', handleTraversingPlayerNode c node kids sp tp st = Ok v st' /\ sound I st' /\
                table_grows (profile st.1) (profile st'.1).
Proof.
  intros Hnt Hin Hs. unfold handleTraversingPlayerNode, bind at 1.
  destruct (step_GetPolicy st Hs Hin) as (w1 & np & Hget & Hs1 & Hg1 & Hnp & Hok).
  rewrite Hget. unfold bind at 1. rewrite (step_policy_read _ _ (w1, st.2) np Hnp).
  cbn [fst snd profile pool rng trace].
  assert (0 <= NumChildren node) as Hn by (unfold NumChildren; lia).
  unfold bind at 1.
  match goal with |- context [select_actions c ?n ?s2] =>
    destruct (select_actions_spec c n s2 Hn) as [Hsel _];
    destruct (Hsel Hk) as (sel & r' & Hselrun & _ & _ & Hrange) end.
  rewrite Hselrun. cbn [fst snd profile pool rng trace].
  unfold bind at 1, world, alloc. cbn [fst snd profile pool rng trace].
  assert (forall x (w4 : World PolicyTable),
            profile w4 = profile w1 -> length x = Z.to_nat (NumChildren node) ->
            exists v st',
              slice_scope x
                (cfValue <- traversing_loop kids (GetStrategy np) (Player node)
                              (div one (of_int (NumChildren node))) sp tp sel zero ;;
                 modify (fun sx => (sx.1, AddConst (neg cfValue) sx.2)) ;;;
                 sx <- get ;;
                 with_slice
                   (world (in_profile
                      (policy_update (Key node (Player node))
                         (AddRegret (div one (div one (of_int (NumChildren node)))) sx.2)))) ;;;
                 ret cfValue)%go (w4, st.2) = Ok v st' /\
              sound I st' /\ table_grows (profile w1) (profile st'.1)) as Hscope.
  { intros x w4 Hp4 Hx. unfold slice_scope, bind at 1.
    destruct (sound_traversing_loop (GetStrategy np) (Player node)
                (div one (of_int (NumChildren node))) sp tp sel Hnt Hrange
                ltac:(apply Hok) zero (@pair St (list float32) (w4, st.2) x))
      as (cf & [st5 x5] & Hloop & Hs5 & Hx5 & Hg5).
    { now apply (sound_profile w1). } { done. }
    rewrite Hloop. cbn in Hs5, Hx5, Hg5. rewrite Hp4 in Hg5.
    unfold bind at 1, modify. unfold bind at 1, get. unfold bind at 1, with_slice.
    cbn [fst snd].
    destruct (proj2 (proj2 (proj2 Hg5)) _ _ Hnp) as (np5 & Hnp5 & _).
    destruct (step_policy_update (Key node (Player node)) (NumChildren node)
                (AddRegret (div one (div one (of_int (NumChildren node))))
                           (AddConst (neg cf) x5)) st5 np5 Hs5 Hin Hnp5)
      as (w6 & Hupd & Hs6 & Hg6 & _).
    { intros p Hp. apply policy_ok_AddRegret; [done|].
      unfold AddConst. now rewrite length_fmap. }
    rewrite Hupd. cbn. eexists _, _. split; [reflexivity|]. split.
    - destruct Hs6 as [Ht6 Hc6]. split; [exact Ht6|].
      intros key j Hj. apply (Hc6 key j Hj).
    - cbn. etrans; [exact Hg5|exact Hg6]. }
  destruct (pool w1) as [|b rest].
  - destruct (Hscope (replicate (Z.to_nat (NumChildren node)) zero)
                {| profile := profile w1; pool := []; rng := r'; trace := trace w1 |}
                eq_refl ltac:(apply length_replicate)) as (v & st' & Hrun & Hs' & Hg').
    exists v, st'. split; [exact Hrun|]. split; [exact Hs'|]. etrans; [exact Hg1|exact Hg'].
  - destruct (Hscope (resize (Z.to_nat (NumChildren node)) zero b)
                {| profile := profile w1; pool := rest; rng := r'; trace := trace w1 |}
                eq_refl ltac:(apply length_resize)) as (v & st' & Hrun & Hs' & Hg').
    exists v, st'. split; [exact Hrun|]. split; [exact Hs'|]. etrans; [exact Hg1|exact Hg'].
Qed.

Lemma sound_runHelper_body lp sp tp st :
  (Type_ node <> TerminalNode -> 0 < NumChildren node) ->
  (Type_ node = PlayerNode -> (Key node (Player node), NumChildren node) ∈ I) ->
  sound I st ->
  exists v st', runHelper_body c node kids lp sp tp st = Ok v st' /\ sound I st' /\
                table_grows (profile st.1) (profile st'.1).
Proof.
  intros Hpos Hin Hs.
  unfold runHelper_body, bind at 1, world, node_Type, bind at 1, emit, ret.
  cbn [fst snd profile pool rng trace].
  set (st1 := (_, st.2) : St).
  assert (sound I st1) as Hs1.
  { destruct st as [w cache]. now apply (sound_profile w). }
  assert (forall (m : M St float32),
            (exists v st2, m st1 = Ok v st2 /\ sound I st2 /\
                           table_grows (profile st1.1) (profile st2.1)) ->
            exists v st', (ev <- m ;; world (node_Close node) ;;; ret ev)%go st1 = Ok v st' /\
                          sound I st' /\ table_grows (profile st.1) (profile st'.1)) as Hwrap.
  { intros m (v & st2 & Hm & Hs2 & Hg2). unfold bind at 1. rewrite Hm.
    unfold bind, world, node_Close, emit, ret. cbn.
    eexists _, _. split; [reflexivity|]. split; [|exact Hg2].
    destruct st2 as [w2 cache2]. now apply (sound_profile w2). }
  remember (Type_ node) as ty eqn:Hty in |- *. symmetry in Hty. destruct ty.
  - apply Hwrap. apply sound_handleChanceNode; [congruence|apply Hpos; congruence|done].
  - apply Hwrap. eexists _, _. split; [reflexivity|]. split; [done|reflexivity].
  - apply Hwrap. unfold bind at 1, handlePlayerNode.
    assert (exists v st2,
              (if decide (tp = Player node)
               then handleTraversingPlayerNode c node kids sp tp
               else handleSampledPlayerNode node kids sp tp) st1 = Ok v st2 /\
              sound I st2 /\ table_grows (profile st1.1) (profile st2.1))
      as (v & st2 & Hh & Hs2 & Hg2).
    { destruct (decide _).
      - apply sound_handleTraversingPlayerNode; [congruence|now apply Hin|done].
      - apply sound_handleSampledPlayerNode; [congruence|apply Hpos; congruence|now apply Hin|done]. }
    rewrite Hh. eexists _, _. split; [reflexivity|]. split; [exact Hs2|exact Hg2].
Qed.

End Handlers.


Lemma infosets_child l ty pl key u children child :
  ty <> TerminalNode -> child ∈ children ->
  forall e, e ∈ infosets child -> e ∈ infosets (MkNode l ty pl key u children).
Proof.
  intros Hty Hchild e He.
  assert (e ∈ concat (map infosets children)) as Hin.
  { apply list_elem_of_In, in_concat. exists (infosets child).
    split; [apply in_map; now apply list_elem_of_In|now apply list_elem_of_In]. }
  cbn [infosets]. destruct ty; [done|done|now right].
Qed.

Lemma sound_runHelper node :
  branching node = true -> (forall e, e ∈ infosets node -> e ∈ I) -> runs (runHelper c node).
Proof.
  induction node as [l ty pl key u children IH] using GameTreeNode_ind.
  intros Hbr Hsub lp sp tp st Hs. rewrite runHelper_unfold.
  apply sound_runHelper_body; [| | | |exact Hs].
  - now rewrite length_map.
  - cbn [Children Type_]. intros Hty i ev. rewrite index_map.
    destruct (index children i) as [child|] eqn:Hchild; [|done].
    intros [= <-]. rewrite Forall_forall in IH.
    apply index_Some in Hchild as [_ Hchild]. apply list_elem_of_lookup_2 in Hchild.
    apply IH; [done| |].
    + assert (forallb branching children = true) as Hall.
      { destruct ty; cbn in Hbr; [|done|]; now apply andb_prop in Hbr as [_ ?]. }
      rewrite forallb_forall in Hall. apply Hall. now apply list_elem_of_In.
    + intros e He. apply Hsub. now apply (infosets_child l ty pl key u children child).
  - cbn [Type_]. intros Hty. unfold NumChildren. cbn [Children].
    destruct ty; [|done|]; cbn in Hbr; apply andb_prop in Hbr as [Hne _];
      destruct children; [done|cbn; lia|done|cbn; lia].
  - cbn [Type_]. intros ->. apply Hsub. cbn. left.
Qed.

End RobustTotal.

Section RobustReturns.
Import f32 cfr RobustSampling traces.

(** Robust sampling does not panic on a well-formed game: with [k] not
    negative, on a tree whose chance and player nodes each have a child
    and whose infoset keys each go with one number of children, from a
    table whose policies for these infosets are sized to them, Run
    returns, and leaves such a table, as does the Update that follows;
    a new table is such a table.  So the iterations of Run and Update
    from a new table all return. *)
Theorem Run_returns c node w :
  0 <= k c -> branching node = true -> consistent (infosets node) ->
  table_ok (infosets node) (profile w) ->
  exists v w',
    Run c node w = Ok v w' /\
    table_ok (infosets node) (profile w') /\
    table_ok (infosets node) (Update (profile w')) /\
    forall ps, table_ok (infosets node) (NewPolicyTable ps).
Proof.
  intros Hk Hbr HI Ht.
  destruct (sound_runHelper c (infosets node) Hk HI node Hbr ltac:(done)
              (Player node) one (Z.rem (Iter (profile w)) 2) (w, ∅))
    as (v & [w' cache'] & Hrun & [Ht' _] & _).
  { split; [exact Ht|]. intros key i Hi. cbn in Hi. now rewrite lookup_empty in Hi. }
  exists v, w'. split; [|split; [exact Ht'|split]].
  - unfold Run. now rewrite Hrun.
  - now apply table_ok_Update.
  - intros ps key n np _ Hnp. cbn in Hnp. now rewrite lookup_empty in Hnp.
Qed.

End RobustReturns.

(** ** Run on sample data *)

Section RunReturnsExample.
Import f32 cfr RobustSampling traces cfr_example.

Lemma Run_returns_witness :
  0 <= k (NewRobustSampling 2) /\ branching three = true /\ consistent (infosets three) /\
  table_ok (infosets three) (profile (world0 1 0)) /\
  exists v w', Run (NewRobustSampling 2) three (world0 1 0) = Ok v w' /\
    table_ok (infosets three) (Update (profile w')).
Proof.
  assert (consistent (infosets three)) as HI.
  { intros key n n' Hn Hn'. cbn in Hn, Hn'.
    apply list_elem_of_singleton in Hn, Hn'. congruence. }
  assert (table_ok (infosets three) (profile (world0 1 0))) as Ht.
  { intros key n np _ Hnp. cbn in Hnp. now rewrite lookup_empty in Hnp. }
  split; [cbn; lia|]. split; [reflexivity|]. split; [exact HI|]. split; [exact Ht|].
  destruct (Run_returns (NewRobustSampling 2) three (world0 1 0) ltac:(cbn; lia) eq_refl HI Ht)
    as (v & w' & Hrun & _ & Hup & _).
  exists v, w'. split; [exact Hrun|exact Hup].
Defined.
End RunReturnsExample.

(* ===================================================================== *)

Section PoolTransparent.
Import f32 cfr ChanceSampling.
Context {P : Type} `{StrategyProfile P}.

Lemma agree_bind {S A B} (R : S -> S -> Prop) (m1 m2 : M S A) (f1 f2 : A -> M S B) s1 s2 :
  agree_out R (m1 s1) (m2 s2) ->
  (forall a t1 t2, R t1 t2 -> agree_out R (f1 a t1) (f2 a t2)) ->
  agree_out R (bind m1 f1 s1) (bind m2 f2 s2).
Proof.
  unfold agree_out at 1, bind.
  destruct (m1 s1) as [a t1|t1], (m2 s2) as [b t2|t2]; try done.
  intros [<- HR] Hf. now apply Hf.
Qed.

Lemma but_pool_in_profile {A} (m : M P A) (w1 w2 : World P) :
  but_pool w1 w2 -> agree_out but_pool (in_profile m w1) (in_profile m w2).
Proof.
  intros (Hp & Hr & Ht). unfold in_profile. rewrite Hp.
  destruct (m (profile w2)); cbn; repeat split; done.
Qed.

Lemma but_pool_emit e (w1 w2 : World P) :
  but_pool w1 w2 -> agree_out but_pool (emit e w1) (emit e w2).
Proof.
  intros (Hp & Hr & Ht). cbn. repeat split; cbn; try done. now rewrite Ht.
Qed.

Lemma but_pool_Intn n (w1 w2 : World P) :
  but_pool w1 w2 -> agree_out but_pool (Intn n w1) (Intn n w2).
Proof.
  intros (Hp & Hr & Ht). unfold Intn. rewrite Hr.
  destruct (rand_Intn n (rng w2)) as [[m r']|]; cbn; repeat split; done.
Qed.

Section Handlers.
Variable node : GameTreeNode.
Variable kids : list (evaluator (World P)).
Hypothesis Hkids : forall i ev, index kids i = Some ev ->
  forall lp x y w1 w2, but_pool w1 w2 -> agree_out but_pool (ev lp x y w1) (ev lp x y w2).

Lemma pool_handleChanceNode lp r0 r1 w1 w2 :
  but_pool w1 w2 ->
  agree_out but_pool (handleChanceNode node kids lp r0 r1 w1)
                     (handleChanceNode node kids lp r0 r1 w2).
Proof.
  intros HR. unfold handleChanceNode. apply agree_bind; [now apply but_pool_Intn|].
  intros i t1 t2 HR'. unfold bind, GetChild.
  destruct (index kids i) as [ev|] eqn:Hev; cbn; [|done]. now apply (Hkids i).
Qed.

Lemma pool_player_loop L strat player r0 r1 actions : forall D eu sx1 sx2,
  slices L D sx1 sx2 ->
  agree_loop L (fun i => D i \/ i ∈ actions)
    (player_loop kids strat player r0 r1 actions eu sx1)
    (player_loop kids strat player r0 r1 actions eu sx2).
Proof.
  induction actions as [|i actions IH]; intros D eu sx1 sx2 (HR & Hlen & Hlen2 & HD).
  - cbn. split; [done|]. split; [done|]. split; [done|]. split; [done|].
    intros j [Hj|Hj]; [now apply HD|]. now apply elem_of_nil in Hj.
  - cbn [player_loop]. unfold bind, GetChild.
    destruct (index kids i) as [ev|] eqn:Hev; cbn; [|done].
    unfold with_slice.
    pose proof (but_pool_in_profile (GetActionProbability strat i) _ _ HR) as Hp.
    destruct (in_profile _ sx1.1) as [p t1|t1], (in_profile _ sx2.1) as [p' t2|t2];
      cbn in Hp |- *; try done.
    destruct Hp as [<- HR1].
    cbn.
    assert (exists a b, (if decide (player = 0) then ev player (mul p r0) r1
                         else ev player r0 (mul p r1)) = ev player a b) as (a & b & ->).
    { destruct (decide _); eauto. }
    pose proof (Hkids i ev Hev player a b t1 t2 HR1) as Hu.
    destruct (ev player a b t1) as [util u1|u1], (ev player a b t2) as [util' u2|u2];
      cbn in Hu |- *; try done.
    destruct Hu as [<- HR2].
    unfold slice_set. cbn. rewrite Hlen, Hlen2.
    destruct (decide (0 <= i < Z.of_nat L)) as [Hi|Hi]; cbn; [|done].
    specialize (IH (fun j => D j \/ j = i) (add eu (mul p util))
                  (u1, <[Z.to_nat i := util]> sx1.2) (u2, <[Z.to_nat i := util]> sx2.2)).
    match type of IH with ?A -> _ => assert A as HA end.
    { split; [done|]. split; cbn; [now rewrite !length_insert|].
      split; [now rewrite !length_insert|].
      intros j [Hj| ->].
      - destruct (decide (Z.to_nat j = Z.to_nat i)) as [E|Hne].
        + rewrite E, !list_lookup_insert_eq by lia. done.
        + rewrite !list_lookup_insert_ne by done. now apply HD.
      - rewrite !list_lookup_insert_eq by lia. done. }
    specialize (IH HA).
    destruct (player_loop _ _ _ _ _ _ _ _) as [v s|s],
             (player_loop _ _ _ _ _ _ _ _) as [v' s'|s']; cbn in IH |- *; try done.
    destruct IH as [<- (HR3 & Hl3 & Hl3' & HD3)].
    split; [done|]. split; [exact HR3|]. split; [exact Hl3|]. split; [exact Hl3'|].
    intros j [Hj|Hj]; apply HD3; [now left; left|].
    apply elem_of_cons in Hj as [->|Hj]; [left; now right|now right].
Qed.

Lemma pool_handlePlayerNode r0 r1 w1 w2 :
  but_pool w1 w2 ->
  agree_out but_pool (handlePlayerNode node kids r0 r1 w1) (handlePlayerNode node kids r0 r1 w2).
Proof.
  intros HR. unfold handlePlayerNode. apply agree_bind; [now apply but_pool_in_profile|].
  intros strat t1 t2 HR1. unfold bind.
  assert (exists x1 u1 x2 u2,
            alloc (NumChildren node) t1 = Ok x1 u1 /\ alloc (NumChildren node) t2 = Ok x2 u2 /\
            slices (Z.to_nat (NumChildren node)) (fun _ => False) (u1, x1) (u2, x2))
    as (x1 & u1 & x2 & u2 & -> & -> & Hsl).
  { destruct HR1 as (Hp & Hr & Ht). unfold alloc.
    destruct (pool t1) as [|b1 rest1], (pool t2) as [|b2 rest2]; eexists _, _, _, _;
      (split; [reflexivity|]); (split; [reflexivity|]);
      (split; [repeat split; cbn; done|]); cbn;
      rewrite ?length_replicate, ?length_resize; (split; [done|]); (split; [done|]); done. }
  unfold slice_scope.
  pose proof (pool_player_loop (Z.to_nat (NumChildren node)) strat (Player node) r0 r1
                (arange (NumChildren node)) _ zero _ _ Hsl) as Hloop.
  destruct (player_loop _ _ _ _ _ _ _ (u1, x1)) as [eu [v1 y1]|[v1 y1]],
           (player_loop _ _ _ _ _ _ _ (u2, x2)) as [eu' [v2 y2]|[v2 y2]];
    cbn in Hloop; try done.
  destruct Hloop as [<- (HR2 & Hl1 & Hl2 & HD)]. cbn in HR2, Hl1, Hl2, HD.
    assert (y1 = y2) as <-.
    { apply list_eq. intros j. destruct (decide (j < length y1)%nat) as [Hj|Hj].
      - rewrite <- (Nat2Z.id j). apply HD. right. apply elem_of_seqZ. lia.
      - rewrite !lookup_ge_None_2 by lia. done. }
    unfold modify, get, with_slice. cbn.
    pose proof (but_pool_in_profile
                  (AddRegret strat (reachProb (Player node) r0 r1 one)
                     (counterFactualProb (Player node) r0 r1 one)
                     (AddConst (neg eu) y1)) _ _ HR2) as Hreg.
    destruct (in_profile _ v1) as [[] z1|z1], (in_profile _ v2) as [[] z2|z2];
      cbn in Hreg |- *; try done.
    all: try (destruct Hreg as [_ (Hp & Hr & Ht)]; split; [done|]; repeat split; cbn; done).
    all: try (destruct Hreg as (Hp & Hr & Ht); repeat split; cbn; done).
Qed.

Lemma pool_runHelper_body lp r0 r1 w1 w2 :
  but_pool w1 w2 ->
  agree_out but_pool (runHelper_body node kids lp r0 r1 w1) (runHelper_body node kids lp r0 r1 w2).
Proof.
  intros HR. unfold runHelper_body. apply agree_bind.
  { unfold node_Type. apply agree_bind; [now apply but_pool_emit|]. intros [] t1 t2 HR'. done. }
  intros ty t1 t2 HR1. apply agree_bind.
  - destruct ty.
    + now apply pool_handleChanceNode.
    + done.
    + apply agree_bind; [now apply pool_handlePlayerNode|]. intros v u1 u2 HR2. done.
  - intros ev u1 u2 HR2. apply agree_bind; [now apply but_pool_emit|].
    intros [] z1 z2 HR3. done.
Qed.

End Handlers.

Lemma pool_runHelper node : forall lp r0 r1 w1 w2,
  but_pool w1 w2 -> agree_out but_pool (runHelper node lp r0 r1 w1) (runHelper node lp r0 r1 w2).
Proof.
  induction node as [l ty pl key u children IH] using GameTreeNode_ind.
  intros lp r0 r1 w1 w2 HR. rewrite chance_runHelper_unfold. apply pool_runHelper_body; [|done].
  intros i ev. rewrite index_map. cbn [Children].
  destruct (index children i) as [child|] eqn:Hchild; [|done].
  intros [= <-]. rewrite Forall_forall in IH. apply IH.
  apply index_Some in Hchild as [_ Hchild]. eapply list_elem_of_lookup_2, Hchild.
Qed.

(** What the slice pool holds never reaches a chance-sampling
    traversal.  Two runs of [Run] from worlds with the same strategy
    profile, random source and trace, whatever their pools hold, end the
    same way: both return, the same value, or both panic; and they leave
    the same profile, random source and trace.  Every entry of the
    advantages slice is written before it is read. *)
Theorem chance_pool_transparent node w1 w2 :
  profile w1 = profile w2 -> rng w1 = rng w2 -> trace w1 = trace w2 ->
  match Run node w1, Run node w2 with
  | Ok v1 w1', Ok v2 w2' =>
      v1 = v2 /\ profile w1' = profile w2' /\ rng w1' = rng w2' /\ trace w1' = trace w2'
  | Panic w1', Panic w2' =>
      profile w1' = profile w2' /\ rng w1' = rng w2' /\ trace w1' = trace w2'
  | _, _ => False
  end.
Proof.
  intros Hp Hr Ht.
  pose proof (pool_runHelper node (Player node) one one w1 w2 (conj Hp (conj Hr Ht))) as Ha.
  unfold Run. destruct (runHelper _ _ _ _ w1), (runHelper _ _ _ _ w2); exact Ha.
Qed.

End PoolTransparent.

(* ===================================================================== *)

Section ShuffleFacts.
Import f32 cfr RobustSampling.

(** The shuffle behind the action selection loses no draw.  On a
    list without duplicates [Shuffle] returns a permutation after
    [length l - 1] draws, and two shuffles of the list give the same order
    exactly when their draws agree one by one, the [t]-th draw being the
    source's value reduced modulo [length l - t]: each order comes from
    one sequence of draws only. *)
Theorem Shuffle_draws l (w1 w2 : World PolicyTable) l1 l2 w1' w2' :
  NoDup l -> Shuffle l w1 = Ok l1 w1' -> Shuffle l w2 = Ok l2 w2' ->
  l1 ≡ₚ l /\
  cursor (rng w1') = (cursor (rng w1) + (length l - 1))%nat /\
  (l1 = l2 <->
   forall t, (S t < length l)%nat ->
     raw (rng w1) (cursor (rng w1) + t)%nat mod (Z.of_nat (length l) - Z.of_nat t) =
     raw (rng w2) (cursor (rng w2) + t)%nat mod (Z.of_nat (length l) - Z.of_nat t)).
Proof. apply Shuffle_eval. Qed.

End ShuffleFacts.

(* ===================================================================== *)

Section PoolShuffleExamples.
Import f32 cfr traces cfr_example.

Lemma chance_pool_transparent_witness :
  profile unit_world = profile used_world /\ rng unit_world = rng used_world /\
  trace unit_world = trace used_world /\
  match ChanceSampling.Run three unit_world, ChanceSampling.Run three used_world with
  | Ok v1 w1', Ok v2 w2' =>
      v1 = v2 /\ profile w1' = profile w2' /\ rng w1' = rng w2' /\ trace w1' = trace w2'
  | Panic w1', Panic w2' =>
      profile w1' = profile w2' /\ rng w1' = rng w2' /\ trace w1' = trace w2'
  | _, _ => False
  end.
Proof.
  split; [reflexivity|]. split; [reflexivity|]. split; [reflexivity|].
  pose proof (chance_pool_transparent three unit_world used_world eq_refl eq_refl eq_refl) as Hx.
  exact Hx.
Defined.

Lemma Shuffle_draws_witness :
  NoDup [0; 1; 2] /\
  exists l1 l2 w1' w2',
    RobustSampling.Shuffle [0; 1; 2] (world0 1 0) = Ok l1 w1' /\
    RobustSampling.Shuffle [0; 1; 2] (world0 1 1) = Ok l2 w2' /\
    l1 ≡ₚ [0; 1; 2] /\ cursor (rng w1') = 2%nat.
Proof.
  assert (NoDup [0; 1; 2]) as Hnd by (apply (bool_decide_unpack (NoDup [0; 1; 2])); vm_compute; exact I).
  split; [exact Hnd|].
  eexists _, _, _, _. split; [vm_compute; reflexivity|]. split; [vm_compute; reflexivity|].
  match goal with |- ?l1 ≡ₚ _ /\ cursor (rng ?w1') = _ =>
    destruct (Shuffle_draws [0; 1; 2] (world0 1 0) (world0 1 1) l1 _ w1' _ Hnd
                ltac:(vm_compute; reflexivity) ltac:(vm_compute; reflexivity))
      as (Hperm & Hcur & _)
  end.
  split; [exact Hperm|exact Hcur].
Defined.

End PoolShuffleExamples.
